(** * pgbedrock: the privilege reconciliation engine ([pgbedrock/privileges.py])

    A shallow embedding of the spec-graph resolver ([get_members],
    [determine_schema_writers], ...), of [PrivilegeAnalyzer] and of the
    orchestrator [analyze_privileges], with the properties the specification
    states about them.

    Python data is modelled as follows.
    - [str] is [string]; [set] is [gset]; a [dict] that is only looked up is a
      [gmap]; the specification, an ordered mapping that is iterated, is an
      association list in iteration order.
    - An exception is the [Raise] branch of [result].  Python bounds the depth
      of the call stack ([sys.getrecursionlimit]); [get_members] takes the
      number of frames that are left and raises [RecursionError] when none is.
    - [common.fail] prints its message and exits; it is [Raise (SystemExit msg)].
    - The emitted SQL text is kept as a record of the template and its
      arguments ([stmt]); [render] gives the text.
    - The specification is an object that the run can change: functions that
      write to it return it next to their result.  Its lists are taken to be
      distinct objects, as a YAML document without anchors gives them.  The
      orchestrator is also given on list objects with identity
      ([analyze_privileges_shared]), where one object may sit under several
      keys; the two agree when no read list is shared.
    - A loop over a [set] visits [elements] of the [gset]; nothing below
      depends on that order but the key of a [KeyError].

    The functions of [pgbedrock.common] and [pgbedrock.context] that the
    module calls are parameters of the development.  Proofs are closed with
    only the parameters their statement names ([Proof using Type]); where
    automation would otherwise pick up another one, it is cleared first. *)

From Stdlib Require Import String Ascii.
From stdpp Require Import base option list strings gmap sets sorting relations.

Open Scope string_scope.
Open Scope list_scope.

Set Default Proof Using "Type".
Set Warnings "-clear-no-such-hyp".

(** ** Exceptions and results *)

Inductive exn :=
| RecursionError
| KeyError (key : string)
| SystemExit (msg : string).

Inductive result (A : Type) :=
| Ok (a : A)
| Raise (e : exn).
Arguments Ok {A} a.
Arguments Raise {A} e.

Definition bind {A B : Type} (m : result A) (k : A → result B) : result B :=
  match m with
  | Ok a => k a
  | Raise e => Raise e
  end.

Notation "'let*' x ':=' m 'in' k" := (bind m (λ x, k))
  (at level 10, x name, m at level 100, k at level 200).

(** [for x in l: body], threading the local state [s]; stops at the first
    exception. *)
Fixpoint for_in {A S : Type} (l : list A) (body : A → S → result S) (s : S) : result S :=
  match l with
  | [] => Ok s
  | x :: l' =>
      match body x s with
      | Ok s' => for_in l' body s'
      | Raise e => Raise e
      end
  end.

(** The same loop when the body also updates an object that outlives the
    call (the store [st]): what was written before an exception stays written. *)
Fixpoint for_in_store {A S St : Type} (l : list A) (body : A → S → St → St * result S)
    (s : S) (st : St) : St * result S :=
  match l with
  | [] => (st, Ok s)
  | x :: l' =>
      match body x s st with
      | (st', Ok s') => for_in_store l' body s' st'
      | (st', Raise e) => (st', Raise e)
      end
  end.

(** [d[k]] on a plain dict. *)
Definition getitem {V : Type} (d : gmap string V) (k : string) : result V :=
  match d !! k with
  | Some v => Ok v
  | None => Raise (KeyError k)
  end.

(** ** The specification document *)

(** A YAML scalar as the loader hands it over. *)
Inductive scalar :=
| SBool (b : bool)
| SStr (s : string).

Inductive access_level := read | write.

#[global] Instance access_level_eq_dec : EqDecision access_level.
Proof. solve_decision. Defined.

Definition access_str (a : access_level) : string :=
  match a with
  | read => "read"
  | write => "write"
  end.

(** [{'read': [...], 'write': [...]}]; [None] is an absent key. *)
Record access_items := {
  items_read : option (list string);
  items_write : option (list string) }.

Definition get_items (a : access_level) (d : access_items) : option (list string) :=
  match a with
  | read => items_read d
  | write => items_write d
  end.

Record owns_config := { owns_schemas : option (list string) }.

(** A role configuration; every key is optional. *)
Record role_config := {
  cfg_is_superuser : option scalar;
  cfg_has_personal_schema : option scalar;
  cfg_member_of : option (list string);
  cfg_owns : option owns_config;
  cfg_privileges : option (gmap string access_items) }.

(** [spec.items()] in iteration order.  A value is [None] for a role without
    configuration; an empty mapping behaves the same in every function below,
    as each of them reads keys with a default. *)
Abbreviation Spec := (list (string * option role_config)).

(** ** The database snapshot ([pgbedrock.context]) *)

Record DBObject := {
  dbo_schema : string;
  dbo_object_name : option string }.

#[global] Instance DBObject_eq_dec : EqDecision DBObject.
Proof. solve_decision. Defined.

#[global] Instance DBObject_countable : Countable DBObject.
Proof.
  refine (inj_countable' (λ o, (dbo_schema o, dbo_object_name o))
                         (λ p, {| dbo_schema := p.1; dbo_object_name := p.2 |}) _).
  by intros [].
Defined.

Record object_attrs := { owner : string }.

Record DatabaseContext := {
  is_superuser : string → bool;
  get_role_current_defaults : string → string → access_level → gset (string * string * string);
  get_role_current_nondefaults : string → string → access_level → list (DBObject * string);
  get_all_object_attributes : gmap string (gmap string (gmap DBObject object_attrs)) }.

(** ** Emitted statements *)

Inductive stmt :=
| SkipSuperuser (rolename : string)
| GrantNondefault (privilege object_kind objname rolename : string)
| RevokeNondefault (privilege object_kind objname rolename : string)
| GrantDefault (grantor schema privilege object_kind rolename : string)
| RevokeDefault (grantor schema privilege object_kind rolename : string).

(** ** The analyzer and the turns of the orchestrator *)

Record PrivilegeAnalyzer := {
  rolename : string;
  access : access_level;
  object_kind : string;
  desired_items : list string;
  schema_writers : gmap string (gset string);
  personal_schemas : gset string;
  default_acl_possible : bool;
  current_defaults : gset (string * string * string);
  current_nondefaults : gset (string * string);
  all_object_attrs : gmap string (gmap string (gmap DBObject object_attrs)) }.

(** What [identify_desired_objects] stores on the instance; [desired_defaults]
    is only set when default privileges exist for the object kind. *)
Record desired := {
  desired_nondefaults : gset (string * string);
  desired_defaults : option (gset (string * string * string)) }.

(** Who emitted a statement: the role and, for a grant or a revoke, the
    object kind and the access level of the analyzer. *)
Abbreviation emitter := (string * option (string * access_level))%type.

(** The arguments of one [PrivilegeAnalyzer(...)] call. *)
Record analyzer_call := {
  call_rolename : string;
  call_access : access_level;
  call_object_kind : string;
  call_desired_items : list string }.

(** One turn of the loop of [analyze_privileges]: a superuser that is
    skipped, or one role, object kind and access level with the desired
    items handed to the analyzer. *)
Inductive combination :=
| Skipped (rolename : string)
| Analyzed (rolename : string) (a : access_level) (object_kind : string)
    (desired_items : list string).

(** ** String helpers *)

Definition dquote : string := String (ascii_of_nat 34) EmptyString.
Definition newline : string := String (ascii_of_nat 10) EmptyString.

Definition upper_ascii (c : ascii) : ascii :=
  let n := nat_of_ascii c in
  if (97 <=? n)%nat && (n <=? 122)%nat then ascii_of_nat (n - 32) else c.

(** [s.upper()] on ASCII text. *)
Fixpoint upper (s : string) : string :=
  match s with
  | EmptyString => EmptyString
  | String c s' => String (upper_ascii c) (upper s')
  end.

(** [s[:-1]] *)
Fixpoint drop_last (s : string) : string :=
  match s with
  | EmptyString => EmptyString
  | String c EmptyString => EmptyString
  | String c s' => String c (drop_last s')
  end.

(** [s.endswith(suffix)] *)
Definition endswith (s suffix : string) : bool :=
  let n := String.length s in
  let k := String.length suffix in
  (k <=? n)%nat && String.eqb (String.substring (n - k) k s) suffix.

(** [s.split('.', 1)]: the text before the first dot and, if there is a dot,
    the text after it. *)
Fixpoint split_dot (s : string) : string * option string :=
  match s with
  | EmptyString => (EmptyString, None)
  | String c s' =>
      if Ascii.eqb c "."%char then (EmptyString, Some s')
      else let '(a, b) := split_dot s' in (String c a, b)
  end.

(** ** Statement templates *)

Definition Q_GRANT_NONDEFAULT (privilege kind objname rolename : string) : string :=
  "GRANT " +:+ privilege +:+ " ON " +:+ kind +:+ " " +:+ objname +:+ " TO "
    +:+ dquote +:+ rolename +:+ dquote +:+ ";".

Definition Q_REVOKE_NONDEFAULT (privilege kind objname rolename : string) : string :=
  "REVOKE " +:+ privilege +:+ " ON " +:+ kind +:+ " " +:+ objname +:+ " FROM "
    +:+ dquote +:+ rolename +:+ dquote +:+ ";".

Definition Q_GRANT_DEFAULT (grantor schema privilege kind rolename : string) : string :=
  newline +:+ "    SET ROLE " +:+ dquote +:+ grantor +:+ dquote +:+ ";" +:+ newline
    +:+ "    ALTER DEFAULT PRIVILEGES IN SCHEMA " +:+ schema +:+ " GRANT " +:+ privilege
    +:+ " ON " +:+ kind +:+ " TO " +:+ dquote +:+ rolename +:+ dquote +:+ ";" +:+ newline
    +:+ "    RESET ROLE;" +:+ newline +:+ "    ".

Definition Q_REVOKE_DEFAULT (grantor schema privilege kind rolename : string) : string :=
  newline +:+ "    SET ROLE " +:+ dquote +:+ grantor +:+ dquote +:+ ";" +:+ newline
    +:+ "    ALTER DEFAULT PRIVILEGES IN SCHEMA " +:+ schema +:+ " REVOKE " +:+ privilege
    +:+ " ON " +:+ kind +:+ " FROM " +:+ dquote +:+ rolename +:+ dquote +:+ ";" +:+ newline
    +:+ "    RESET ROLE;" +:+ newline +:+ "    ".

Definition SKIP_SUPERUSER_PRIVILEGE_CONFIGURATION_MSG (rolename : string) : string :=
  "-- Skipping privilege configuration for superuser " +:+ dquote +:+ rolename +:+ dquote.

Definition PERSONAL_SCHEMAS_ERROR_MSG (rolename object_kind access : string) : string :=
  "Unable to interpret reserved keyword 'personal_schemas' for rolename '" +:+ rolename
    +:+ "', object_kind '" +:+ object_kind +:+ "', access '" +:+ access +:+ "'".

Definition OBJECT_DOES_NOT_EXIST_ERROR_MSG (obj_kind_singular item rolename : string) : string :=
  obj_kind_singular +:+ " '" +:+ item +:+ "' requested for role " +:+ dquote +:+ rolename
    +:+ dquote +:+ " does not exist".

Definition OBJECTS_WITH_DEFAULTS : list string :=
  ["functions"; "tables"; "sequences"; "types"].

(** The text of a statement: the template filled as [grant_nondefault],
    [revoke_nondefault], [grant_default] and [revoke_default] fill it. *)
Definition render (q : stmt) : string :=
  match q with
  | SkipSuperuser r => SKIP_SUPERUSER_PRIVILEGE_CONFIGURATION_MSG r
  | GrantNondefault p k o r => Q_GRANT_NONDEFAULT p (drop_last (upper k)) o r
  | RevokeNondefault p k o r => Q_REVOKE_NONDEFAULT p (drop_last (upper k)) o r
  | GrantDefault g s p k r => Q_GRANT_DEFAULT g s p (upper k) r
  | RevokeDefault g s p k r => Q_REVOKE_DEFAULT g s p (upper k) r
  end.

(** [common.fail(msg)] *)
Definition fail {A : Type} (msg : string) : result A := Raise (SystemExit msg).

(** [sorted(s)] for a set of tuples of strings: the elements in increasing
    lexicographic order. *)
Definition pair_le (x y : string * string) : Prop :=
  String.le x.1 y.1 ∧ (x.1 = y.1 → String.le x.2 y.2).

#[global] Instance pair_le_dec : RelDecision pair_le.
Proof. intros x y. unfold pair_le. apply _. Defined.

Definition triple_le (x y : string * string * string) : Prop :=
  pair_le x.1 y.1 ∧ (x.1 = y.1 → String.le x.2 y.2).

#[global] Instance triple_le_dec : RelDecision triple_le.
Proof. intros x y. unfold triple_le. apply _. Defined.

Definition sorted2 (s : gset (string * string)) : list (string * string) :=
  merge_sort pair_le (elements s).

Definition sorted3 (s : gset (string * string * string)) : list (string * string * string) :=
  merge_sort triple_le (elements s).

(** [set(itertools.product(objs, privs))] *)
Definition product (objs : gset string) (privs : list string) : gset (string * string) :=
  list_to_set (o ← elements objs; (λ p, (o, p)) <$> privs).

(** ** The specification as Python objects

    The loader gives one list object for a sequence of the document and for
    every alias of it, and [+=] extends the object.  Here a list of the
    specification is a reference into a store of list objects: two keys that
    hold the same reference hold one object.  Mappings and scalars are never
    written to, so they stay values. *)

Definition loc := nat.

(** [{'read': [...], 'write': [...]}] as the list objects under its keys. *)
Record shared_items := {
  ref_read : option loc;
  ref_write : option loc }.

Definition get_ref (a : access_level) (d : shared_items) : option loc :=
  match a with
  | read => ref_read d
  | write => ref_write d
  end.

Record shared_owns := { ref_schemas : option loc }.

Record shared_config := {
  shc_is_superuser : option scalar;
  shc_has_personal_schema : option scalar;
  shc_member_of : option loc;
  shc_owns : option shared_owns;
  shc_privileges : option (gmap string shared_items) }.

Abbreviation SharedSpec := (list (string * option shared_config)).

(** The contents of the list objects. *)
Abbreviation heap := (gmap loc (list string)).

Definition deref (h : heap) (r : loc) : list string := default [] (h !! r).

(** The specification as it reads when the list objects hold [h]. *)
Definition load_items (h : heap) (d : shared_items) : access_items :=
  {| items_read := deref h <$> ref_read d;
     items_write := deref h <$> ref_write d |}.

Definition load_config (h : heap) (c : shared_config) : role_config :=
  {| cfg_is_superuser := shc_is_superuser c;
     cfg_has_personal_schema := shc_has_personal_schema c;
     cfg_member_of := deref h <$> shc_member_of c;
     cfg_owns :=
       (λ o : shared_owns, {| owns_schemas := deref h <$> ref_schemas o |}) <$> shc_owns c;
     cfg_privileges :=
       (λ p : gmap string shared_items, load_items h <$> p) <$> shc_privileges c |}.

Definition load (h : heap) (spec : SharedSpec) : Spec :=
  (λ x : string * option shared_config, (x.1, load_config h <$> x.2)) <$> spec.

(** ** Sample collaborators and inputs

    Stand-ins for the functions of [pgbedrock.common] and
    [pgbedrock.context], enough to run the definitions on examples, and small
    specifications and snapshots. *)

Module Sample.

Definition parse_bool (v : scalar) : bool :=
  match v with
  | SBool b => b
  | SStr s => bool_decide (s ∈ ["true"; "True"; "yes"; "on"; "1"])
  end.

Definition check_name (name : string) : result string := Ok name.

Definition quoted (name : string) : string := dquote +:+ name +:+ dquote.

Definition ensure_quoted_identifier (objname : string) : string :=
  match split_dot objname with
  | (schema, Some name) => schema +:+ "." +:+ quoted name
  | (schema, None) => schema
  end.

Definition qualified_name (dbo : DBObject) : string :=
  match dbo_object_name dbo with
  | Some name => dbo_schema dbo +:+ "." +:+ name
  | None => dbo_schema dbo
  end.

Definition PRIVILEGE_MAP : list (string * (list string * list string)) :=
  [("schemas", (["USAGE"], ["CREATE"]));
   ("sequences", (["SELECT"], ["USAGE"; "UPDATE"]));
   ("tables", (["SELECT"],
               ["INSERT"; "UPDATE"; "DELETE"; "TRUNCATE"; "REFERENCES"; "TRIGGER"]))].

Definition role (is_superuser has_personal_schema : option scalar)
    (member_of : option (list string)) (owns : option (list string))
    (privileges : option (gmap string access_items)) : option role_config :=
  Some {| cfg_is_superuser := is_superuser;
          cfg_has_personal_schema := has_personal_schema;
          cfg_member_of := member_of;
          cfg_owns := (λ schemas, {| owns_schemas := Some schemas |}) <$> owns;
          cfg_privileges := privileges |}.

(** A lists B and B lists A in [member_of]. *)
Definition cyclic_spec : Spec :=
  [("A", role None None (Some ["B"]) None None);
   ("B", role None None (Some ["A"]) None None)].

(** B is a member of A, C a member of B. *)
Definition chain_spec : Spec :=
  [("A", None);
   ("B", role None None (Some ["A"]) None None);
   ("C", role None None (Some ["B"]) None None)].

Definition chain_rank (r : string) : nat :=
  if bool_decide (r = "A") then 2 else if bool_decide (r = "B") then 1 else 0.

(** [admin] is a superuser, [owner] owns the schema [sales], [reader] reads
    every table of it. *)
Definition sales_spec : Spec :=
  [("admin", role (Some (SBool true)) None None None None);
   ("owner", role None None None (Some ["sales"]) None);
   ("reader", role None None None None
                (Some {["tables" := {| items_read := Some ["sales.*"];
                                       items_write := None |}]}))].

Definition orders : DBObject := {| dbo_schema := "sales"; dbo_object_name := Some (quoted "orders") |}.

Definition sales_attrs : gmap string (gmap string (gmap DBObject object_attrs)) :=
  {["tables" := {["sales" := {[orders := {| owner := "owner" |}]}]}]}.

(** Nothing is granted yet. *)
Definition sales_before : DatabaseContext :=
  {| is_superuser := λ r, bool_decide (r = "admin");
     get_role_current_defaults := λ _ _ _, ∅;
     get_role_current_nondefaults := λ _ _ _, [];
     get_all_object_attributes := sales_attrs |}.




(** [writer] has a read list and a write list for tables. *)
Definition writer_spec : Spec :=
  [("owner", role None None None (Some ["sales"]) None);
   ("writer", role None None None None
                (Some {["tables" := {| items_read := Some ["sales.orders"];
                                       items_write := Some ["sales.*"] |}]}))].

(** [alice] has a personal schema and reads all personal schemas. *)
Definition alice_spec : Spec :=
  [("alice", role None (Some (SBool true)) None None
               (Some {["schemas" := {| items_read := Some ["personal_schemas"];
                                       items_write := None |}]}))].

Definition alice_context : DatabaseContext :=
  {| is_superuser := λ _, false;
     get_role_current_defaults := λ _ _ _, ∅;
     get_role_current_nondefaults := λ _ _ _, [];
     get_all_object_attributes :=
       {["schemas" := {["alice" := {[ {| dbo_schema := "alice"; dbo_object_name := None |}
                                      := {| owner := "alice" |} ]}]}]} |}.

(** The analyzer of [alice]'s read access to schemas. *)
Definition alice_schemas_read : PrivilegeAnalyzer :=
  {| rolename := "alice";
     access := read;
     object_kind := "schemas";
     desired_items := ["personal_schemas"];
     schema_writers := {["alice" := {["alice"]}]};
     personal_schemas := {["alice"]};
     default_acl_possible := false;
     current_defaults := ∅;
     current_nondefaults := ∅;
     all_object_attrs := get_all_object_attributes alice_context |}.

(** An analyzer of write access to tables whose items name a table that was
    never created, then the keyword. *)
Definition ghost_tables_write : PrivilegeAnalyzer :=
  {| rolename := "reader";
     access := write;
     object_kind := "tables";
     desired_items := ["ghost.nonexistent_table"; "personal_schemas"];
     schema_writers := ∅;
     personal_schemas := ∅;
     default_acl_possible := true;
     current_defaults := ∅;
     current_nondefaults := ∅;
     all_object_attrs := sales_attrs |}.

(** The analyzer of [reader]'s read access to tables when the snapshot holds
    a grant and a default privilege that the specification does not ask for. *)
Definition reader_tables_stale : PrivilegeAnalyzer :=
  {| rolename := "reader";
     access := read;
     object_kind := "tables";
     desired_items := ["sales.*"];
     schema_writers := {["sales" := {["owner"; "admin"]}]};
     personal_schemas := ∅;
     default_acl_possible := true;
     current_defaults := {[("former", "sales", "SELECT")]};
     current_nondefaults := {[("sales." +:+ quoted "archive", "SELECT")]};
     all_object_attrs := sales_attrs |}.

(** An analyzer of read access to tables that is handed the keyword. *)
Definition keyword_tables_read : PrivilegeAnalyzer :=
  {| rolename := "reader";
     access := read;
     object_kind := "tables";
     desired_items := ["personal_schemas"];
     schema_writers := ∅;
     personal_schemas := ∅;
     default_acl_possible := true;
     current_defaults := ∅;
     current_nondefaults := ∅;
     all_object_attrs := sales_attrs |}.

(** [intern] may write to the schema [lab], which nobody owns. *)
Definition unowned_spec : Spec :=
  [("intern", role None None None None
                (Some {["schemas" := {| items_read := None;
                                        items_write := Some ["lab"] |}]}))].

(** The message about the table that was never created. *)
Definition ghost_message : string :=
  OBJECT_DOES_NOT_EXIST_ERROR_MSG "table"
    (ensure_quoted_identifier "ghost.nonexistent_table") "reader".

(** What [analyze] returns for [reader_tables_stale]. *)
Definition stale_sql : list stmt :=
  [GrantNondefault "SELECT" "tables" (qualified_name orders) "reader";
   RevokeNondefault "SELECT" "tables" ("sales." +:+ quoted "archive") "reader";
   GrantDefault "admin" "sales" "SELECT" "tables" "reader";
   GrantDefault "owner" "sales" "SELECT" "tables" "reader";
   RevokeDefault "former" "sales" "SELECT" "tables" "reader"].

(** The members of every role of [chain_spec]. *)
Definition chain_members : gmap string (gset string) :=
  {["A" := {["B"; "C"]}; "B" := {["C"]}; "C" := ∅]}.

(** What [reader_tables_stale] asks for. *)
Definition stale_desired : desired :=
  {| desired_nondefaults := {[(qualified_name orders, "SELECT")]};
     desired_defaults := Some {[("admin", "sales", "SELECT"); ("owner", "sales", "SELECT")]} |}.

(** An analyzer of read access to every table of the schema [lab], which has
    no entry among the schema writers. *)
Definition lab_tables_read : PrivilegeAnalyzer :=
  {| rolename := "reader";
     access := read;
     object_kind := "tables";
     desired_items := ["lab.*"];
     schema_writers := {["sales" := {["owner"; "admin"]}]};
     personal_schemas := ∅;
     default_acl_possible := true;
     current_defaults := ∅;
     current_nondefaults := ∅;
     all_object_attrs := sales_attrs |}.

(** Two roles declare the schema [shared]. *)
Definition contested_spec : Spec :=
  [("first", role None None None (Some ["shared"]) None);
   ("second", role None None None (Some ["shared"]) None)].

(** [writer_spec] as objects: every list is an object of its own. *)
Definition writer_shared : SharedSpec :=
  [("owner", Some {| shc_is_superuser := None; shc_has_personal_schema := None;
                     shc_member_of := None;
                     shc_owns := Some {| ref_schemas := Some 0 |};
                     shc_privileges := None |});
   ("writer", Some {| shc_is_superuser := None; shc_has_personal_schema := None;
                      shc_member_of := None; shc_owns := None;
                      shc_privileges :=
                        Some {["tables" := {| ref_read := Some 1;
                                              ref_write := Some 2 |}]} |})].

Definition writer_heap : heap :=
  {[0 := ["sales"]; 1 := ["sales.orders"]; 2 := ["sales.*"]]}.

(** The same document with an alias: one list object sits under the read
    key and under the write key of [writer]. *)
Definition doubled_shared : SharedSpec :=
  [("owner", Some {| shc_is_superuser := None; shc_has_personal_schema := None;
                     shc_member_of := None;
                     shc_owns := Some {| ref_schemas := Some 0 |};
                     shc_privileges := None |});
   ("writer", Some {| shc_is_superuser := None; shc_has_personal_schema := None;
                      shc_member_of := None; shc_owns := None;
                      shc_privileges :=
                        Some {["tables" := {| ref_read := Some 2;
                                              ref_write := Some 2 |}]} |})].

(** One list object is the read list for tables of [one] and of [two];
    each has a write list of its own. *)
Definition aliased_shared : SharedSpec :=
  [("owner", Some {| shc_is_superuser := None; shc_has_personal_schema := None;
                     shc_member_of := None;
                     shc_owns := Some {| ref_schemas := Some 0 |};
                     shc_privileges := None |});
   ("one", Some {| shc_is_superuser := None; shc_has_personal_schema := None;
                   shc_member_of := None; shc_owns := None;
                   shc_privileges :=
                     Some {["tables" := {| ref_read := Some 1;
                                           ref_write := Some 2 |}]} |});
   ("two", Some {| shc_is_superuser := None; shc_has_personal_schema := None;
                   shc_member_of := None; shc_owns := None;
                   shc_privileges :=
                     Some {["tables" := {| ref_read := Some 1;
                                           ref_write := None |}]} |})].

End Sample.

Section privileges.

(** ** Collaborators that live in other modules

    [pgbedrock.common] and [pgbedrock.context] are used through these
    functions and this constant only. *)

(** [common.parse_bool] *)
Variable parse_bool : scalar → bool.
(** [common.check_name]: the name to use, or a failure. *)
Variable check_name : string → result string.
(** [common.ensure_quoted_identifier] *)
Variable ensure_quoted_identifier : string → string.
(** [DBObject.qualified_name] *)
Variable qualified_name : DBObject → string.
(** [context.PRIVILEGE_MAP]: object kind to the privilege verbs of read and of
    write access, in the order of [PRIVILEGE_MAP.keys()]. *)
Variable PRIVILEGE_MAP : list (string * (list string * list string)).

Definition PRIVILEGE_MAP_keys : list string := PRIVILEGE_MAP.*1.

(** [PRIVILEGE_MAP[object_kind][access]] *)
Definition privilege_verbs (object_kind : string) (a : access_level) : result (list string) :=
  match list_find (λ kv, kv.1 = object_kind) PRIVILEGE_MAP with
  | Some (_, (_, (r, w))) => Ok (match a with read => r | write => w end)
  | None => Raise (KeyError object_kind)
  end.

(** ** Spec graph resolver *)

(** [config and group in config.get('member_of', ())] *)
Definition lists_as_member_of (group : string) (config : option role_config) : bool :=
  match config with
  | Some c => bool_decide (group ∈ default [] (cfg_member_of c))
  | None => false
  end.

Fixpoint get_members (limit : nat) (group : string) (spec : Spec) : result (gset string) :=
  match limit with
  | 0 => Raise RecursionError
  | S limit' =>
      for_in spec (λ '(role, config) (members : gset string),
        if lists_as_member_of group config then
          match get_members limit' role spec with
          | Ok sub_members => Ok (({[role]} ∪ members) ∪ sub_members)
          | Raise e => Raise e
          end
        else Ok members) ∅
  end.

Definition determine_role_members (limit : nat) (spec : Spec) : result (gmap string (gset string)) :=
  for_in spec (λ '(role, _) (d : gmap string (gset string)),
    let* members := get_members limit role spec in
    Ok (<[role := members]> d)) ∅.

(** [config and common.parse_bool(config.get(key, False))] *)
Definition flagged (field : role_config → option scalar) (config : option role_config) : bool :=
  match config with
  | Some c => parse_bool (default (SBool false) (field c))
  | None => false
  end.

Definition determine_personal_schemas (spec : Spec) : gset string :=
  foldl (λ (personal_schemas : gset string) '(role, config),
    if flagged cfg_has_personal_schema config then {[role]} ∪ personal_schemas
    else personal_schemas) ∅ spec.

(** [config['owns'].get('schemas', ())] when ['owns' in config] *)
Definition owned_schemas (c : role_config) : list string :=
  match cfg_owns c with
  | Some o => default [] (owns_schemas o)
  | None => []
  end.

Definition determine_schema_owners (spec : Spec) : gmap string string :=
  foldl (λ (schema_owners : gmap string string) '(role, config),
    match config with
    | None => schema_owners
    | Some c =>
        let schema_owners :=
          foldl (λ (d : gmap string string) schema, <[schema := role]> d)
                schema_owners (owned_schemas c) in
        if parse_bool (default (SBool false) (cfg_has_personal_schema c))
        then <[role := role]> schema_owners
        else schema_owners
    end) ∅ spec.

Definition determine_superusers (spec : Spec) : gset string :=
  foldl (λ (superusers : gset string) '(role, config),
    if flagged cfg_is_superuser config then {[role]} ∪ superusers
    else superusers) ∅ spec.

(** [set(config['privileges']['schemas']['write']) if config else set()],
    the empty set on [KeyError]. *)
Definition schemas_write (config : option role_config) : gset string :=
  match config with
  | Some c =>
      match cfg_privileges c with
      | Some p =>
          match p !! "schemas" with
          | Some d => list_to_set (default [] (items_write d))
          | None => ∅
          end
      | None => ∅
      end
  | None => ∅
  end.

(** The set after the ['personal_schemas'] entry is replaced. *)
Definition writable_schemas (personal_schemas : gset string)
    (config : option role_config) : gset string :=
  let ws := schemas_write config in
  if bool_decide ("personal_schemas" ∈ ws)
  then (ws ∖ {["personal_schemas"]}) ∪ personal_schemas
  else ws.

Definition determine_schema_writers (limit : nat) (spec : Spec)
    : result (gmap string (gset string)) :=
  let* members_of_role := determine_role_members limit spec in
  let personal_schemas := determine_personal_schemas spec in
  let schema_owners := determine_schema_owners spec in
  let writers : gmap string (gset string) := (λ owner, {[owner]}) <$> schema_owners in
  let* writers := for_in spec (λ '(role, config) (writers : gmap string (gset string)),
    for_in (elements (writable_schemas personal_schemas config))
      (λ schema (writers : gmap string (gset string)),
         let* ws := getitem writers schema in
         let* role_members := getitem members_of_role role in
         Ok (<[schema := ({[role]} ∪ ws) ∪ role_members]> writers)) writers) writers in
  let superusers := determine_superusers spec in
  Ok ((λ vals, vals ∪ superusers) <$> writers).

(** ** PrivilegeAnalyzer *)

(** [PrivilegeAnalyzer.__init__] *)
Definition PrivilegeAnalyzer_init (rolename : string) (access : access_level)
    (object_kind : string) (desired_items : list string)
    (schema_writers : gmap string (gset string)) (personal_schemas : gset string)
    (dbcontext : DatabaseContext) : result PrivilegeAnalyzer :=
  let* checked := check_name rolename in
  let current_nondefault_objects :=
    get_role_current_nondefaults dbcontext rolename object_kind access in
  Ok {| rolename := checked;
        access := access;
        object_kind := object_kind;
        desired_items := desired_items;
        schema_writers := schema_writers;
        personal_schemas := personal_schemas;
        default_acl_possible := bool_decide (object_kind ∈ OBJECTS_WITH_DEFAULTS);
        current_defaults := get_role_current_defaults dbcontext rolename object_kind access;
        current_nondefaults :=
          list_to_set ((λ '(dbo, priv), (qualified_name dbo, priv)) <$> current_nondefault_objects);
        all_object_attrs := get_all_object_attributes dbcontext |}.

(** [self.all_object_attrs.get(objkind, dict()).get(schema, dict())] *)
Definition object_owners (self : PrivilegeAnalyzer) (objkind schema : string)
    : gmap DBObject object_attrs :=
  default ∅ (default ∅ (all_object_attrs self !! objkind) !! schema).

Definition get_object_owner (self : PrivilegeAnalyzer) (item : string)
    (objkind : option string) : result string :=
  let objkind :=
    match objkind with
    | Some k => if bool_decide (k = EmptyString) then object_kind self else k
    | None => object_kind self
    end in
  let '(schema, objname) := split_dot item in
  let dbo := {| dbo_schema := schema; dbo_object_name := objname |} in
  match object_owners self objkind schema !! dbo with
  | Some attr =>
      if bool_decide (owner attr = EmptyString)
      then fail (OBJECT_DOES_NOT_EXIST_ERROR_MSG (drop_last objkind) item (rolename self))
      else Ok (owner attr)
  | None => fail (OBJECT_DOES_NOT_EXIST_ERROR_MSG (drop_last objkind) item (rolename self))
  end.

Definition get_schema_objects (self : PrivilegeAnalyzer) (schema : string) : gset string :=
  list_to_set
    (qualified_name <$>
       (filter (λ kv, owner kv.2 ≠ rolename self)
               (map_to_list (object_owners self (object_kind self) schema))).*1).

Definition get_schema_owner (self : PrivilegeAnalyzer) (schema : string) : result string :=
  get_object_owner self schema (Some "schemas").

Definition determine_desired_defaults (self : PrivilegeAnalyzer) (schemas : list string)
    : result (gset (string * string * string)) :=
  for_in schemas (λ schema (desired_defaults : gset (string * string * string)),
    let* writers := getitem (schema_writers self) schema in
    for_in (elements writers) (λ writer (desired_defaults : gset (string * string * string)),
      if bool_decide (writer = rolename self) then Ok desired_defaults
      else
        let* verbs := privilege_verbs (object_kind self) (access self) in
        Ok (list_to_set ((λ pg_priv_kind, (writer, schema, pg_priv_kind)) <$> verbs)
              ∪ desired_defaults)) desired_defaults) ∅.

(** One turn of the loop over [self.desired_items]. *)
Definition identify_item (self : PrivilegeAnalyzer) (item : string)
    (st : gset string * list string) : result (gset string * list string) :=
  let '(desired_nondefault_objs, schemas) := st in
  if bool_decide (item = "personal_schemas") && bool_decide (object_kind self = "schemas")
  then Ok (desired_nondefault_objs ∪ personal_schemas self, schemas)
  else if bool_decide (item = "personal_schemas") && bool_decide (object_kind self ≠ "schemas")
  then fail (PERSONAL_SCHEMAS_ERROR_MSG (rolename self) (object_kind self)
               (access_str (access self)))
  else if bool_decide (item = "personal_schemas.*")
  then Ok (desired_nondefault_objs, schemas ++ elements (personal_schemas self))
  else if negb (endswith item ".*")
  then
    let quoted_item := ensure_quoted_identifier item in
    let* owner := get_object_owner self quoted_item None in
    if bool_decide (owner ≠ rolename self)
    then Ok ({[quoted_item]} ∪ desired_nondefault_objs, schemas)
    else Ok (desired_nondefault_objs, schemas)
  else Ok (desired_nondefault_objs, schemas ++ [drop_last (drop_last item)]).

Definition identify_desired_objects (self : PrivilegeAnalyzer) : result desired :=
  let* st := for_in (desired_items self) (identify_item self) (∅, []) in
  let '(desired_nondefault_objs, schemas) := st in
  let desired_nondefault_objs :=
    foldl (λ (objs : gset string) schema, objs ∪ get_schema_objects self schema)
          desired_nondefault_objs schemas in
  let* priv_types := privilege_verbs (object_kind self) (access self) in
  let desired_nondefaults := product desired_nondefault_objs priv_types in
  if default_acl_possible self then
    let* desired_defaults := determine_desired_defaults self schemas in
    Ok {| desired_nondefaults := desired_nondefaults;
          desired_defaults := Some desired_defaults |}
  else
    Ok {| desired_nondefaults := desired_nondefaults; desired_defaults := None |}.

Definition grant_nondefault (self : PrivilegeAnalyzer) (key : string * string) : stmt :=
  GrantNondefault key.2 (object_kind self) key.1 (rolename self).

Definition revoke_nondefault (self : PrivilegeAnalyzer) (key : string * string) : stmt :=
  RevokeNondefault key.2 (object_kind self) key.1 (rolename self).

Definition grant_default (self : PrivilegeAnalyzer) (key : string * string * string) : stmt :=
  GrantDefault key.1.1 key.1.2 key.2 (object_kind self) (rolename self).

Definition revoke_default (self : PrivilegeAnalyzer) (key : string * string * string) : stmt :=
  RevokeDefault key.1.1 key.1.2 key.2 (object_kind self) (rolename self).

(** The statements [analyze_nondefaults] appends to [self.sql_to_run]. *)
Definition analyze_nondefaults (self : PrivilegeAnalyzer)
    (desired_nondefaults : gset (string * string)) : list stmt :=
  let nondefaults_to_grant := desired_nondefaults ∖ current_nondefaults self in
  let nondefaults_to_revoke := current_nondefaults self ∖ desired_nondefaults in
  (grant_nondefault self <$> sorted2 nondefaults_to_grant)
    ++ (revoke_nondefault self <$> sorted2 nondefaults_to_revoke).

(** The statements [analyze_defaults] appends to [self.sql_to_run]. *)
Definition analyze_defaults (self : PrivilegeAnalyzer)
    (desired_defaults : gset (string * string * string)) : list stmt :=
  let defaults_to_grant := desired_defaults ∖ current_defaults self in
  let defaults_to_revoke := current_defaults self ∖ desired_defaults in
  (grant_default self <$> sorted3 defaults_to_grant)
    ++ (revoke_default self <$> sorted3 defaults_to_revoke).

Definition analyze (self : PrivilegeAnalyzer) : result (list stmt) :=
  let* d := identify_desired_objects self in
  let sql_to_run := analyze_nondefaults self (desired_nondefaults d) in
  if default_acl_possible self
  then Ok (sql_to_run ++ analyze_defaults self (default ∅ (desired_defaults d)))
  else Ok sql_to_run.

(** ** Orchestrator *)

Definition no_items : access_items := {| items_read := None; items_write := None |}.

(** [(config or {}).get('privileges', {}).get(object_kind, {})] for the role at
    position [i] of the specification as it is now. *)
Definition desired_items_this_obj (spec : Spec) (i : nat) (object_kind : string)
    : access_items :=
  match spec !! i with
  | Some (_, Some c) =>
      match cfg_privileges c with
      | Some all_desired_privs => default no_items (all_desired_privs !! object_kind)
      | None => no_items
      end
  | _ => no_items
  end.

(** The list under [privileges][object_kind]['read'] of role [i] becomes
    [items]: what [+=] does to a list that belongs to the specification. *)
Definition store_read_items (spec : Spec) (i : nat) (object_kind : string)
    (items : list string) : Spec :=
  match spec !! i with
  | Some (role, Some c) =>
      match cfg_privileges c with
      | Some p =>
          match p !! object_kind with
          | Some d =>
              let d' := {| items_read := Some items; items_write := items_write d |} in
              let c' := {| cfg_is_superuser := cfg_is_superuser c;
                           cfg_has_personal_schema := cfg_has_personal_schema c;
                           cfg_member_of := cfg_member_of c;
                           cfg_owns := cfg_owns c;
                           cfg_privileges := Some (<[object_kind := d']> p) |} in
              <[i := (role, Some c')]> spec
          | None => spec
          end
      | None => spec
      end
  | _ => spec
  end.

(** Lines 61 to 64: the list handed to the analyzer, and the specification
    afterwards.  [.get(access, [])] returns the list of the specification
    when the key is there and a new list otherwise; [+=] extends that list
    in place. *)
Definition desired_items_for (spec : Spec) (i : nat) (object_kind : string)
    (a : access_level) : list string * Spec :=
  let d := desired_items_this_obj spec i object_kind in
  let desired_items := default [] (get_items a d) in
  match a with
  | read =>
      let desired_items := desired_items ++ default [] (get_items write d) in
      (desired_items,
       match get_items read d with
       | Some _ => store_read_items spec i object_kind desired_items
       | None => spec
       end)
  | write => (desired_items, spec)
  end.

Section orchestrator.

(** The loop of [analyze_privileges] for any per-combination analysis
    [privconf] and any note [skip] left for a superuser. *)
Context {X : Type}.
Variable skip : string → X.
Variable privconf :
  string → access_level → string → list string →
  gmap string (gset string) → gset string → result (list X).

Definition analyze_access (i : nat) (rolename object_kind : string)
    (schema_writers : gmap string (gset string)) (personal_schemas : gset string)
    (a : access_level) (all_sql_to_run : list X) (spec : Spec) : Spec * result (list X) :=
  let '(desired_items, spec) := desired_items_for spec i object_kind a in
  (spec,
   let* role_sql_to_run :=
     privconf rolename a object_kind desired_items schema_writers personal_schemas in
   Ok (all_sql_to_run ++ role_sql_to_run)).

Definition analyze_role (dbcontext : DatabaseContext)
    (schema_writers : gmap string (gset string)) (personal_schemas : gset string)
    (i : nat) (all_sql_to_run : list X) (spec : Spec) : Spec * result (list X) :=
  match spec !! i with
  | None => (spec, Ok all_sql_to_run)
  | Some (rolename, _) =>
      if is_superuser dbcontext rolename
      then (spec, Ok (all_sql_to_run ++ [skip rolename]))
      else
        for_in_store PRIVILEGE_MAP_keys (λ object_kind,
          for_in_store [read; write]
            (analyze_access i rolename object_kind schema_writers personal_schemas))
          all_sql_to_run spec
  end.

Definition analyze_privileges_loop (limit : nat) (spec : Spec) (dbcontext : DatabaseContext)
    : Spec * result (list X) :=
  match determine_schema_writers limit spec with
  | Raise e => (spec, Raise e)
  | Ok schema_writers =>
      let personal_schemas := determine_personal_schemas spec in
      for_in_store (seq 0 (length spec))
        (analyze_role dbcontext schema_writers personal_schemas) [] spec
  end.

End orchestrator.

(** [analyze_privileges(spec, cursor, verbose)], with the snapshot that
    [DatabaseContext(cursor, verbose)] gives.  The first component is the
    specification object after the call. *)
Definition analyze_privileges (limit : nat) (spec : Spec) (dbcontext : DatabaseContext)
    : Spec * result (list stmt) :=
  analyze_privileges_loop SkipSuperuser
    (λ rolename a object_kind desired_items schema_writers personal_schemas,
       let* privconf :=
         PrivilegeAnalyzer_init rolename a object_kind desired_items schema_writers
           personal_schemas dbcontext in
       analyze privconf)
    limit spec dbcontext.






(** The constructor calls the loop makes, one after the other, when no
    analysis fails. *)
Definition analyzer_calls (limit : nat) (spec : Spec) (dbcontext : DatabaseContext)
    : Spec * result (list (option analyzer_call)) :=
  analyze_privileges_loop (λ _, None)
    (λ rolename a object_kind desired_items _ _,
       Ok [Some {| call_rolename := rolename; call_access := a;
                   call_object_kind := object_kind;
                   call_desired_items := desired_items |}])
    limit spec dbcontext.

(** ** Orchestrator on list objects

    The loop of [analyze_privileges] once more, with the lists of the
    specification as objects: [spec] holds the references, the store [h]
    their contents. *)

Definition no_refs : shared_items := {| ref_read := None; ref_write := None |}.

(** [(config or {}).get('privileges', {}).get(object_kind, {})] *)
Definition refs_this_obj (spec : SharedSpec) (i : nat) (object_kind : string)
    : shared_items :=
  match spec !! i with
  | Some (_, Some c) =>
      match shc_privileges c with
      | Some all_desired_privs => default no_refs (all_desired_privs !! object_kind)
      | None => no_refs
      end
  | _ => no_refs
  end.

(** Lines 61 to 64.  [.get(access, [])] is the list object under the key, or
    a new empty list; [+=] extends that object with the contents of the
    object under ['write'], which may be the same object. *)
Definition desired_items_shared (spec : SharedSpec) (i : nat) (object_kind : string)
    (a : access_level) (h : heap) : list string * heap :=
  let d := refs_this_obj spec i object_kind in
  let desired_items := default [] (deref h <$> get_ref a d) in
  match a with
  | read =>
      let desired_items := desired_items ++ default [] (deref h <$> get_ref write d) in
      (desired_items,
       match get_ref read d with
       | Some r => <[r := desired_items]> h
       | None => h
       end)
  | write => (desired_items, h)
  end.

Section shared_orchestrator.

Context {X : Type}.
Variable skip : string → X.
Variable privconf :
  string → access_level → string → list string →
  gmap string (gset string) → gset string → result (list X).

Definition analyze_access_shared (spec : SharedSpec) (i : nat)
    (rolename object_kind : string)
    (schema_writers : gmap string (gset string)) (personal_schemas : gset string)
    (a : access_level) (all_sql_to_run : list X) (h : heap) : heap * result (list X) :=
  let '(desired_items, h) := desired_items_shared spec i object_kind a h in
  (h,
   let* role_sql_to_run :=
     privconf rolename a object_kind desired_items schema_writers personal_schemas in
   Ok (all_sql_to_run ++ role_sql_to_run)).

Definition analyze_role_shared (spec : SharedSpec) (dbcontext : DatabaseContext)
    (schema_writers : gmap string (gset string)) (personal_schemas : gset string)
    (i : nat) (all_sql_to_run : list X) (h : heap) : heap * result (list X) :=
  match spec !! i with
  | None => (h, Ok all_sql_to_run)
  | Some (rolename, _) =>
      if is_superuser dbcontext rolename
      then (h, Ok (all_sql_to_run ++ [skip rolename]))
      else
        for_in_store PRIVILEGE_MAP_keys (λ object_kind,
          for_in_store [read; write]
            (analyze_access_shared spec i rolename object_kind schema_writers
               personal_schemas))
          all_sql_to_run h
  end.

Definition analyze_privileges_loop_shared (limit : nat) (spec : SharedSpec) (h : heap)
    (dbcontext : DatabaseContext) : heap * result (list X) :=
  match determine_schema_writers limit (load h spec) with
  | Raise e => (h, Raise e)
  | Ok schema_writers =>
      let personal_schemas := determine_personal_schemas (load h spec) in
      for_in_store (seq 0 (length spec))
        (analyze_role_shared spec dbcontext schema_writers personal_schemas) [] h
  end.

End shared_orchestrator.

(** [analyze_privileges(spec, cursor, verbose)] on list objects.  The first
    component is the store after the call. *)
Definition analyze_privileges_shared (limit : nat) (spec : SharedSpec) (h : heap)
    (dbcontext : DatabaseContext) : heap * result (list stmt) :=
  analyze_privileges_loop_shared SkipSuperuser
    (λ rolename a object_kind desired_items schema_writers personal_schemas,
       let* privconf :=
         PrivilegeAnalyzer_init rolename a object_kind desired_items schema_writers
           personal_schemas dbcontext in
       analyze privconf)
    limit spec h dbcontext.

(** The constructor calls of the loop on list objects. *)
Definition analyzer_calls_shared (limit : nat) (spec : SharedSpec) (h : heap)
    (dbcontext : DatabaseContext) : heap * result (list (option analyzer_call)) :=
  analyze_privileges_loop_shared (λ _, None)
    (λ rolename a object_kind desired_items _ _,
       Ok [Some {| call_rolename := rolename; call_access := a;
                   call_object_kind := object_kind;
                   call_desired_items := desired_items |}])
    limit spec h dbcontext.

(** * Vocabulary of the properties *)

(** The desired items of an access level, from the lists of the
    specification: write items count as read items too. *)
Definition combined_items (a : access_level) (d : access_items) : list string :=
  match a with
  | read => default [] (items_read d) ++ default [] (items_write d)
  | write => default [] (items_write d)
  end.

(** [carries msg part]: the text [part] occurs in the message. *)
Definition carries (msg part : string) : Prop :=
  ∃ before after, msg = before +:+ part +:+ after.

Fixpoint infixb (part s : string) : bool :=
  String.prefix part s
  || match s with
     | EmptyString => false
     | String _ s' => infixb part s'
     end.

Fixpoint last_char (s : string) : option ascii :=
  match s with
  | EmptyString => None
  | String c s' => match last_char s' with Some c' => Some c' | None => Some c end
  end.

(** The item names one object: it is neither a keyword nor a wildcard. *)
Definition names_single_object (item : string) : bool :=
  negb (bool_decide (item = "personal_schemas"))
  && negb (bool_decide (item = "personal_schemas.*"))
  && negb (endswith item ".*").

(** [sorted_keys R keys s]: [keys] lists the elements of the set [s], each
    once, in increasing order, and is what sorting gives whatever the order
    in which the set hands out its elements. *)
Definition sorted_keys {A : Type} `{Countable A} (R : relation A) `{!RelDecision R}
    (keys : list A) (s : gset A) : Prop :=
  StronglySorted R keys ∧ NoDup keys ∧ (∀ k, k ∈ keys ↔ k ∈ s)
  ∧ ∀ enumeration, enumeration ≡ₚ elements s → merge_sort R enumeration = keys.

(** [schema_has_owner spec schema]: some role of the specification lists the
    schema under [owns.schemas], or the schema is a personal schema. *)
Definition schema_has_owner (spec : Spec) (schema : string) : Prop :=
  (∃ role c, (role, Some c) ∈ spec ∧ schema ∈ owned_schemas c)
  ∨ schema ∈ determine_personal_schemas spec.

(** [declares_owner role config schema]: the entry of [role] makes it the
    owner of the schema, by [owns.schemas] or by its personal schema. *)
Definition declares_owner (role : string) (config : option role_config)
    (schema : string) : bool :=
  match config with
  | Some c =>
      bool_decide (schema ∈ owned_schemas c)
      || (bool_decide (schema = role)
          && parse_bool (default (SBool false) (cfg_has_personal_schema c)))
  | None => false
  end.

(** One turn of the loop of [determine_schema_owners]. *)
Definition schema_owners_step (schema_owners : gmap string string)
    (item : string * option role_config) : gmap string string :=
  match item.2 with
  | None => schema_owners
  | Some c =>
      let schema_owners :=
        foldl (λ (d : gmap string string) schema, <[schema := item.1]> d)
              schema_owners (owned_schemas c) in
      if parse_bool (default (SBool false) (cfg_has_personal_schema c))
      then <[item.1 := item.1]> schema_owners
      else schema_owners
  end.

(** [direct_member spec r g]: role [r] lists [g] in its [member_of]. *)
Definition direct_member (spec : Spec) (r g : string) : Prop :=
  ∃ config, (r, config) ∈ spec ∧ lists_as_member_of g config = true.

Definition get_members_body (limit : nat) (group : string) (spec : Spec)
    (item : string * option role_config) (members : gset string) : result (gset string) :=
  if lists_as_member_of group item.2 then
    match get_members limit item.1 spec with
    | Ok sub_members => Ok (({[item.1]} ∪ members) ∪ sub_members)
    | Raise e => Raise e
    end
  else Ok members.

(** The objects one desired item asks privileges on. *)
Definition item_objects (self : PrivilegeAnalyzer) (item o : string) : Prop :=
  (item = "personal_schemas" ∧ object_kind self = "schemas" ∧ o ∈ personal_schemas self)
  ∨ (names_single_object item = true ∧ o = ensure_quoted_identifier item
     ∧ ∃ owner, get_object_owner self o None = Ok owner ∧ owner ≠ rolename self).

(** The schemas one desired item defers to the expansion of wildcards. *)
Definition item_schemas (self : PrivilegeAnalyzer) (item : string) : list string :=
  if bool_decide (item = "personal_schemas") then []
  else if bool_decide (item = "personal_schemas.*") then elements (personal_schemas self)
  else if endswith item ".*" then [drop_last (drop_last item)]
  else [].

(** [owner_known self item]: the snapshot has an owner for the object. *)
Definition owner_known (self : PrivilegeAnalyzer) (item : string) : Prop :=
  ∃ o, get_object_owner self (ensure_quoted_identifier item) None = Ok o.

(** The turns for the role at position [i], read off the specification. *)
Definition role_combinations (spec : Spec) (dbcontext : DatabaseContext) (i : nat)
    : list combination :=
  match spec !! i with
  | None => []
  | Some (rolename, _) =>
      if is_superuser dbcontext rolename then [Skipped rolename]
      else
        object_kind ← PRIVILEGE_MAP_keys;
        (λ a, Analyzed rolename a object_kind
                (combined_items a (desired_items_this_obj spec i object_kind)))
          <$> [read; write]
  end.

Definition combinations (spec : Spec) (dbcontext : DatabaseContext) : list combination :=
  seq 0 (length spec) ≫= role_combinations spec dbcontext.

(** The read list after [+=]: the read items followed by the write items. *)
Definition extended (d : access_items) : access_items :=
  {| items_read := Some (combined_items read d); items_write := items_write d |}.

Definition items_evolved (d0 d : access_items) : Prop := d = d0 ∨ d = extended d0.

Definition privileges_evolved (p0 p : option (gmap string access_items)) : Prop :=
  match p0, p with
  | None, None => True
  | Some m0, Some m =>
      ∀ k, match m0 !! k, m !! k with
           | None, None => True
           | Some d0, Some d => items_evolved d0 d
           | _, _ => False
           end
  | _, _ => False
  end.

Definition config_evolved (c0 c : option role_config) : Prop :=
  match c0, c with
  | None, None => True
  | Some a, Some b =>
      cfg_is_superuser b = cfg_is_superuser a
      ∧ cfg_has_personal_schema b = cfg_has_personal_schema a
      ∧ cfg_member_of b = cfg_member_of a
      ∧ cfg_owns b = cfg_owns a
      ∧ privileges_evolved (cfg_privileges a) (cfg_privileges b)
  | _, _ => False
  end.

(** [evolved spec0 st]: the store [st] is the specification [spec0] but for
    read lists that were extended with the write items. *)
Definition evolved (spec0 st : Spec) : Prop :=
  Forall2 (λ x0 x, x.1 = x0.1 ∧ config_evolved x0.2 x.2) spec0 st.

(** [fresh_from spec0 st i ks]: moreover the read lists of the roles after
    position [i], and those of role [i] for the object kinds [ks], are still
    as in [spec0]. *)
Definition fresh_from (spec0 st : Spec) (i : nat) (ks : list string) : Prop :=
  evolved spec0 st
  ∧ (∀ j k, i < j ∨ (j = i ∧ k ∈ ks) →
       desired_items_this_obj st j k = desired_items_this_obj spec0 j k).

(** What one turn adds to [all_sql_to_run]. *)
Definition run_combination {X : Type} (skip : string → X)
    (privconf : string → access_level → string → list string →
                gmap string (gset string) → gset string → result (list X))
    (schema_writers : gmap string (gset string)) (personal_schemas : gset string)
    (c : combination) (all_sql_to_run : list X) : result (list X) :=
  match c with
  | Skipped rolename => Ok (all_sql_to_run ++ [skip rolename])
  | Analyzed rolename a object_kind desired_items =>
      let* role_sql_to_run :=
        privconf rolename a object_kind desired_items schema_writers personal_schemas in
      Ok (all_sql_to_run ++ role_sql_to_run)
  end.


(** The analyzer with other current privileges. *)
Definition with_current (self : PrivilegeAnalyzer)
    (defaults : gset (string * string * string)) (nondefaults : gset (string * string))
    : PrivilegeAnalyzer :=
  {| rolename := rolename self;
     access := access self;
     object_kind := object_kind self;
     desired_items := desired_items self;
     schema_writers := schema_writers self;
     personal_schemas := personal_schemas self;
     default_acl_possible := default_acl_possible self;
     current_defaults := defaults;
     current_nondefaults := nondefaults;
     all_object_attrs := all_object_attrs self |}.

(** The analyzer with other desired items. *)
Definition with_items (self : PrivilegeAnalyzer) (items : list string) : PrivilegeAnalyzer :=
  {| rolename := rolename self;
     access := access self;
     object_kind := object_kind self;
     desired_items := items;
     schema_writers := schema_writers self;
     personal_schemas := personal_schemas self;
     default_acl_possible := default_acl_possible self;
     current_defaults := current_defaults self;
     current_nondefaults := current_nondefaults self;
     all_object_attrs := all_object_attrs self |}.




(** The plain turn of [analyze_privileges]. *)
Definition plain_privconf (dbcontext : DatabaseContext) (rolename : string)
    (a : access_level) (object_kind : string) (desired_items : list string)
    (schema_writers : gmap string (gset string)) (personal_schemas : gset string)
    : result (list stmt) :=
  let* privconf :=
    PrivilegeAnalyzer_init rolename a object_kind desired_items schema_writers
      personal_schemas dbcontext in
  analyze privconf.

(** A place of the specification that holds a list: the [member_of] and the
    [owns.schemas] of the role at a position, or its list for an object kind
    and an access level. *)
Inductive slot :=
| MemberOf (i : nat)
| OwnsSchemas (i : nat)
| Items (i : nat) (object_kind : string) (a : access_level).

(** The list object at a place, if the key is there. *)
Definition slot_ref (spec : SharedSpec) (s : slot) : option loc :=
  match s with
  | MemberOf i =>
      match spec !! i with
      | Some (_, Some c) => shc_member_of c
      | _ => None
      end
  | OwnsSchemas i =>
      match spec !! i with
      | Some (_, Some c) => o ← shc_owns c; ref_schemas o
      | _ => None
      end
  | Items i object_kind a =>
      match spec !! i with
      | Some (_, Some c) =>
          privileges ← shc_privileges c; d ← privileges !! object_kind; get_ref a d
      | _ => None
      end
  end.

(** [read_lists_unshared spec]: a list object under a ['read'] key sits at no
    other place of the specification.  A document without aliases is so. *)
Definition read_lists_unshared (spec : SharedSpec) : Prop :=
  ∀ i object_kind r s,
    slot_ref spec (Items i object_kind read) = Some r →
    slot_ref spec s = Some r → s = Items i object_kind read.

(** * Properties *)

(** ** Membership resolution *)

Lemma for_in_ext {A S : Type} (l : list A) (f g : A → S → result S) (s : S) :
  (∀ x s, f x s = g x s) → for_in l f s = for_in l g s.
Proof.
  intros Hfg. revert s. induction l as [|x l IH]; intros s; simpl; [done|].
  rewrite Hfg. destruct (g x s); auto.
Qed.

Lemma get_members_unfold (limit : nat) (group : string) (spec : Spec) :
  get_members (S limit) group spec = for_in spec (get_members_body limit group spec) ∅.
Proof. simpl. apply for_in_ext. by intros [role config] members. Qed.

Lemma tc_last_step {A : Type} (R : relation A) (x z : A) :
  tc R x z → ∃ y, rtc R x y ∧ R y z.
Proof.
  induction 1 as [x y Hxy | x y z Hxy _ (w & Hyw & Hwz)].
  - exists x. split; [apply rtc_refl | done].
  - exists w. split; [by eapply rtc_l | done].
Qed.

Section membership.
Variable spec : Spec.

(** The loop of [get_members] over a part [items] of the specification, when
    every recursive call it makes returns the transitive members. *)
Lemma get_members_loop_ok (limit : nat) (group : string)
    (items : list (string * option role_config)) (members : gset string) :
  (∀ role config, (role, config) ∈ items → lists_as_member_of group config = true →
     ∃ M, get_members limit role spec = Ok M
          ∧ ∀ r, r ∈ M ↔ tc (direct_member spec) r role) →
  ∃ M, for_in items (get_members_body limit group spec) members = Ok M
       ∧ ∀ r, r ∈ M ↔
           r ∈ members
           ∨ ∃ role config, (role, config) ∈ items
                ∧ lists_as_member_of group config = true
                ∧ (r = role ∨ tc (direct_member spec) r role).
Proof.
  clear ensure_quoted_identifier check_name.
  revert members. induction items as [|[role config] items IH]; intros members Hrec.
  - exists members. split; [done|]. intros r. split; [by left|].
    intros [?|(? & ? & Hin & _)]; [done|]. by apply elem_of_nil in Hin.
  - simpl. unfold get_members_body at 1. simpl.
    destruct (lists_as_member_of group config) eqn:Hmem.
    + destruct (Hrec role config) as (Msub & -> & Hsub); [left|done|].
      destruct (IH (({[role]} ∪ members) ∪ Msub)) as (M & -> & HM).
      { intros role' config' Hin. apply Hrec. by right. }
      exists M. split; [done|]. intros r. rewrite HM. split.
      * intros [Hr|(role' & config' & Hin & Hl & Hr)].
        -- apply elem_of_union in Hr as [Hr|Hr].
           ++ apply elem_of_union in Hr as [Hr|Hr]; [|by left].
              apply elem_of_singleton in Hr as ->.
              right. exists role, config. split; [left|]. by split; [|left].
           ++ right. exists role, config. split; [left|]. split; [done|].
              right. by apply Hsub.
        -- right. exists role', config'. split; [by right|done].
      * intros [Hr|(role' & config' & Hin & Hl & Hr)].
        -- left. set_solver.
        -- apply elem_of_cons in Hin as [Heq|Hin].
           ++ simplify_eq. left. destruct Hr as [->|Hr]; [set_solver|].
              apply elem_of_union. right. by apply Hsub.
           ++ right. by exists role', config'.
    + destruct (IH members) as (M & -> & HM).
      { intros role' config' Hin. apply Hrec. by right. }
      exists M. split; [done|]. intros r. rewrite HM. split.
      * intros [Hr|(role' & config' & Hin & Hl & Hr)]; [by left|].
        right. exists role', config'. split; [by right|done].
      * intros [Hr|(role' & config' & Hin & Hl & Hr)]; [by left|].
        apply elem_of_cons in Hin as [Heq|Hin].
        -- simplify_eq. congruence.
        -- right. by exists role', config'.
Qed.

Lemma get_members_only_recursion_error (limit : nat) (group : string) (e : exn) :
  get_members limit group spec = Raise e → e = RecursionError.
Proof.
  revert group. induction limit as [|limit IH]; intros group; simpl.
  { congruence. }
  generalize (∅ : gset string). generalize spec at 1.
  intros items. induction items as [|[role config] items IHi]; intros members; simpl.
  { discriminate. }
  destruct (lists_as_member_of group config).
  - destruct (get_members limit role spec) eqn:Hsub.
    + apply IHi.
    + intros [= <-]. by eapply IH.
  - apply IHi.
Qed.

(** A recursive call that exhausts the stack ends the loop. *)
Lemma get_members_loop_raise (limit : nat) (group : string)
    (items : list (string * option role_config)) (members : gset string)
    (role : string) (config : option role_config) :
  (role, config) ∈ items → lists_as_member_of group config = true →
  get_members limit role spec = Raise RecursionError →
  for_in items (get_members_body limit group spec) members = Raise RecursionError.
Proof.
  intros Hin Hl Hraise. revert members.
  induction items as [|[role' config'] items IH]; intros members.
  { by apply elem_of_nil in Hin. }
  simpl. unfold get_members_body at 1. simpl.
  apply elem_of_cons in Hin as [Heq|Hin].
  - injection Heq as <- <-. by rewrite Hl, Hraise.
  - destruct (lists_as_member_of group config').
    + destruct (get_members limit role' spec) eqn:Hsub; [by apply IH|].
      f_equal. by eapply get_members_only_recursion_error.
    + by apply IH.
Qed.

(** Without a guard against roles already visited, a group that has a role
    on a membership cycle among its members (or is itself on one) uses up
    any stack. *)
Lemma get_members_on_cycle (limit : nat) (group c : string) :
  rtc (direct_member spec) c group → tc (direct_member spec) c c →
  get_members limit group spec = Raise RecursionError.
Proof.
  revert group. induction limit as [|limit IH]; intros group Hreach Hcyc; [done|].
  assert (∃ r, direct_member spec r group ∧ rtc (direct_member spec) c r)
    as (r & (config & Hin & Hl) & Hcr).
  { apply rtc_tc in Hreach as [<-|Htc].
    - apply tc_last_step in Hcyc as (y & ? & ?). by exists y.
    - apply tc_last_step in Htc as (y & ? & ?). by exists y. }
  rewrite get_members_unfold.
  eapply get_members_loop_raise; [done..|]. by apply IH.
Qed.

(** C1 (amended).  On a specification whose [member_of] relation has no
    cycle (every role ranks below the groups it lists), [get_members] returns
    as soon as the stack has more frames than the rank of the group, and the
    set it returns holds exactly the direct and the indirect members. *)
Theorem get_members_acyclic_transitive_members (rank : string → nat) (limit : nat)
    (group : string) :
  (∀ r g, direct_member spec r g → rank r < rank g) →
  rank group < limit →
  ∃ M, get_members limit group spec = Ok M
       ∧ ∀ r, r ∈ M ↔ tc (direct_member spec) r group.
Proof.
  intros Hrank. revert group. induction limit as [|limit IH]; intros group Hlt; [lia|].
  rewrite get_members_unfold.
  destruct (get_members_loop_ok limit group spec ∅) as (M & HM & Hiff).
  { intros role config Hin Hl. apply IH.
    assert (rank role < rank group) by (apply Hrank; by exists config). lia. }
  exists M. split; [done|]. intros r. rewrite Hiff. split.
  - intros [Hr|(role & config & Hin & Hl & [->|Hr])].
    + by apply not_elem_of_empty in Hr.
    + apply tc_once. by exists config.
    + eapply tc_r; [done|]. by exists config.
  - intros Htc. right. apply tc_last_step in Htc as (role & Hr & config & Hin & Hl).
    exists role, config. do 2 (split; [done|]).
    apply rtc_tc in Hr as [->|?]; auto.
Qed.

End membership.

(** ** Schema writers *)

(** The roles a flag-collecting loop ([determine_personal_schemas],
    [determine_superusers]) gathers. *)
Lemma elem_of_flagged_roles (field : role_config → option scalar) (spec : Spec)
    (acc : gset string) (r : string) :
  r ∈ foldl (λ (roles : gset string) '(role, config),
               if flagged field config then {[role]} ∪ roles else roles) acc spec
  ↔ r ∈ acc ∨ ∃ config, (r, config) ∈ spec ∧ flagged field config = true.
Proof.
  revert acc. induction spec as [|[role config] spec IH]; intros acc; simpl.
  - split; [by left|]. intros [?|(? & Hin & _)]; [done|]. by apply elem_of_nil in Hin.
  - rewrite IH. destruct (flagged field config) eqn:Hf.
    + rewrite elem_of_union, elem_of_singleton. split.
      * intros [[->|?]|(c & ? & ?)]; [|by left|].
        -- right. exists config. split; [left|done].
        -- right. exists c. split; [by right|done].
      * intros [?|(c & Hin & ?)]; [by left; right|].
        apply elem_of_cons in Hin as [?|?]; simplify_eq; [by left; left|].
        right. by exists c.
    + split.
      * intros [?|(c & ? & ?)]; [by left|]. right. exists c. split; [by right|done].
      * intros [?|(c & Hin & ?)]; [by left|].
        apply elem_of_cons in Hin as [?|?]; simplify_eq; [congruence|].
        right. by exists c.
Qed.

Lemma elem_of_determine_superusers (spec : Spec) (r : string) :
  r ∈ determine_superusers spec
  ↔ ∃ config, (r, config) ∈ spec ∧ flagged cfg_is_superuser config = true.
Proof.
  clear ensure_quoted_identifier check_name.
  unfold determine_superusers. rewrite elem_of_flagged_roles. set_solver.
Qed.

Lemma elem_of_determine_personal_schemas (spec : Spec) (r : string) :
  r ∈ determine_personal_schemas spec
  ↔ ∃ config, (r, config) ∈ spec ∧ flagged cfg_has_personal_schema config = true.
Proof.
  clear ensure_quoted_identifier check_name.
  unfold determine_personal_schemas. rewrite elem_of_flagged_roles. set_solver.
Qed.

(** C8.  In the map [determine_schema_writers] returns, the writer set of
    every schema holds every role of the specification that is flagged
    [is_superuser]. *)
Theorem determine_schema_writers_superusers (limit : nat) (spec : Spec)
    (writers : gmap string (gset string)) (schema : string) (vals : gset string)
    (role : string) (config : option role_config) :
  determine_schema_writers limit spec = Ok writers →
  writers !! schema = Some vals →
  (role, config) ∈ spec → flagged cfg_is_superuser config = true →
  role ∈ vals.
Proof.
  unfold determine_schema_writers. intros Hret Hschema Hin Hflag.
  destruct (determine_role_members limit spec) as [members_of_role|]; [simpl in Hret|done].
  destruct (for_in spec _ _) as [w|]; [simpl in Hret|done].
  injection Hret as <-. rewrite lookup_fmap in Hschema.
  destruct (w !! schema) as [ws|]; [|done]. injection Hschema as <-.
  apply elem_of_union. right. apply elem_of_determine_superusers. by exists config.
Qed.

Lemma dom_determine_schema_owners (spec : Spec) (schema : string) :
  schema ∈ dom (determine_schema_owners spec) ↔ schema_has_owner spec schema.
Proof.
  clear ensure_quoted_identifier check_name.
  unfold schema_has_owner. rewrite elem_of_determine_personal_schemas.
  unfold determine_schema_owners.
  assert (∀ (role : string) (l : list string) (d : gmap string string),
            dom (foldl (λ (d : gmap string string) schema, <[schema := role]> d) d l)
            = dom d ∪ list_to_set l) as Hinner.
  { intros role l. induction l as [|x l IH]; intros d; simpl; [set_solver|].
    rewrite IH, dom_insert_L. set_solver. }
  enough (∀ acc : gmap string string,
            schema ∈ dom (foldl (λ (schema_owners : gmap string string) '(role, config),
               match config with
               | None => schema_owners
               | Some c =>
                   let schema_owners :=
                     foldl (λ (d : gmap string string) schema, <[schema := role]> d)
                           schema_owners (owned_schemas c) in
                   if parse_bool (default (SBool false) (cfg_has_personal_schema c))
                   then <[role := role]> schema_owners
                   else schema_owners
               end) acc spec)
            ↔ schema ∈ dom acc
              ∨ (∃ role c, (role, Some c) ∈ spec ∧ schema ∈ owned_schemas c)
              ∨ (∃ config, (schema, config) ∈ spec
                   ∧ flagged cfg_has_personal_schema config = true)) as Hgen.
  { rewrite Hgen, dom_empty_L. set_solver. }
  induction spec as [|[role config] spec' IH]; intros acc; simpl.
  { split; [by left|]. intros [?|[(? & ? & Hin & _)|(? & Hin & _)]]; [done|..];
      by apply elem_of_nil in Hin. }
  rewrite IH. clear IH. destruct config as [c|]; simpl.
  - assert (schema ∈ dom
              (if parse_bool (default (SBool false) (cfg_has_personal_schema c))
               then <[role := role]>
                      (foldl (λ (d : gmap string string) schema, <[schema := role]> d)
                             acc (owned_schemas c))
               else foldl (λ (d : gmap string string) schema, <[schema := role]> d)
                          acc (owned_schemas c))
            ↔ schema ∈ dom acc ∨ schema ∈ owned_schemas c
              ∨ (schema = role
                 ∧ parse_bool (default (SBool false) (cfg_has_personal_schema c)) = true))
      as ->.
    { destruct (parse_bool _).
      - rewrite dom_insert_L, Hinner. set_solver.
      - rewrite Hinner. set_solver. }
    split.
    + intros [[?|[?|[-> ?]]]|[(r & c' & ? & ?)|(c' & ? & ?)]].
      * by left.
      * right; left. exists role, c. split; [left|done].
      * right; right. exists (Some c). split; [left|done].
      * right; left. exists r, c'. split; [by right|done].
      * right; right. exists c'. split; [by right|done].
    + intros [?|[(r & c' & Hin & ?)|(c' & Hin & Hf)]].
      * by left; left.
      * apply elem_of_cons in Hin as [?|?]; simplify_eq.
        -- by left; right; left.
        -- right; left. by exists r, c'.
      * apply elem_of_cons in Hin as [?|?]; simplify_eq.
        -- left; right; right. by split.
        -- right; right. by exists c'.
  - split.
    + intros [?|[(r & c' & ? & ?)|(c' & ? & ?)]]; [by left|..].
      * right; left. exists r, c'. split; [by right|done].
      * right; right. exists c'. split; [by right|done].
    + intros [?|[(r & c' & Hin & ?)|(c' & Hin & Hf)]]; [by left|..].
      * apply elem_of_cons in Hin as [?|?]; simplify_eq. right; left. by exists r, c'.
      * apply elem_of_cons in Hin as [?|?]; simplify_eq. right; right. by exists c'.
Qed.

Lemma determine_role_members_inv (limit : nat) (spec : Spec) :
  match determine_role_members limit spec with
  | Ok members_of_role => ∀ role config, (role, config) ∈ spec → is_Some (members_of_role !! role)
  | Raise e => e = RecursionError
  end.
Proof.
  unfold determine_role_members.
  enough (∀ (items : Spec) (d : gmap string (gset string)),
            match for_in items (λ '(role, _) (d : gmap string (gset string)),
                    let* members := get_members limit role spec in
                    Ok (<[role := members]> d)) d with
            | Ok m => ∀ role, (is_Some (d !! role) ∨ ∃ config, (role, config) ∈ items)
                              → is_Some (m !! role)
            | Raise e => e = RecursionError
            end) as Hgen.
  { specialize (Hgen spec ∅). destruct (for_in spec _ _); [|done].
    intros role config Hin. apply Hgen. right. by exists config. }
  induction items as [|[role config] items IH]; intros d; simpl.
  { intros role [?|(? & Hin)]; [done|]. by apply elem_of_nil in Hin. }
  destruct (get_members limit role spec) as [members|e] eqn:Hm; simpl.
  - specialize (IH (<[role := members]> d)). destruct (for_in items _ _); [|done].
    intros r [Hr|(c & Hin)].
    + apply IH. left. destruct (decide (role = r)) as [->|?].
      * rewrite lookup_insert_eq. by eexists.
      * by rewrite lookup_insert_ne.
    + apply elem_of_cons in Hin as [?|?]; simplify_eq.
      * apply IH. left. rewrite lookup_insert_eq. by eexists.
      * apply IH. right. by exists c.
  - by eapply get_members_only_recursion_error.
Qed.

(** The loop over the writable schemas of one role. *)
Lemma schema_writers_inner_loop (members_of_role : gmap string (gset string))
    (role : string) (schemas : list string) (writers : gmap string (gset string)) :
  is_Some (members_of_role !! role) →
  match for_in schemas (λ schema (writers : gmap string (gset string)),
          let* ws := getitem writers schema in
          let* role_members := getitem members_of_role role in
          Ok (<[schema := ({[role]} ∪ ws) ∪ role_members]> writers)) writers with
  | Ok w => dom w = dom writers ∧ ∀ s, s ∈ schemas → s ∈ dom writers
  | Raise e => ∃ s, e = KeyError s ∧ s ∈ schemas ∧ s ∉ dom writers
  end.
Proof.
  clear ensure_quoted_identifier check_name.
  intros [rm Hrm]. revert writers.
  induction schemas as [|schema schemas IH]; intros writers; simpl.
  { split; [done|]. intros s Hs. by apply elem_of_nil in Hs. }
  unfold getitem at 1. destruct (writers !! schema) as [ws|] eqn:Hws; simpl.
  - unfold getitem at 1. rewrite Hrm. simpl.
    specialize (IH (<[schema := ({[role]} ∪ ws) ∪ rm]> writers)).
    assert (dom (<[schema := ({[role]} ∪ ws) ∪ rm]> writers) = dom writers) as Hdom.
    { rewrite dom_insert_L. apply elem_of_dom_2 in Hws. set_solver. }
    rewrite Hdom in IH. destruct (for_in schemas _ _) as [w|e].
    + destruct IH as [-> IH]. split; [done|]. intros s Hs.
      apply elem_of_cons in Hs as [->|?]; [by eapply elem_of_dom_2|by apply IH].
    + destruct IH as (s & -> & ? & ?). exists s. split; [done|]. split; [by right|done].
  - exists schema. split; [done|]. split; [left|]. by apply not_elem_of_dom.
Qed.

(** The loop over the roles. *)
Lemma schema_writers_outer_loop (members_of_role : gmap string (gset string))
    (personal : gset string) (items : Spec) (writers : gmap string (gset string)) :
  (∀ role config, (role, config) ∈ items → is_Some (members_of_role !! role)) →
  match for_in items (λ '(role, config) (writers : gmap string (gset string)),
          for_in (elements (writable_schemas personal config))
            (λ schema (writers : gmap string (gset string)),
               let* ws := getitem writers schema in
               let* role_members := getitem members_of_role role in
               Ok (<[schema := ({[role]} ∪ ws) ∪ role_members]> writers)) writers)
          writers with
  | Ok w => dom w = dom writers
            ∧ ∀ role config s, (role, config) ∈ items →
                s ∈ writable_schemas personal config → s ∈ dom writers
  | Raise e => ∃ role config s, e = KeyError s ∧ (role, config) ∈ items
                 ∧ s ∈ writable_schemas personal config ∧ s ∉ dom writers
  end.
Proof.
  revert writers. induction items as [|[role config] items IH]; intros writers Hm; simpl.
  { split; [done|]. intros ? ? ? Hin. by apply elem_of_nil in Hin. }
  pose proof (schema_writers_inner_loop members_of_role role
                (elements (writable_schemas personal config)) writers) as Hinner.
  destruct (for_in (elements _) _ _) as [w1|e].
  - destruct Hinner as [Hdom Hall]; [eapply Hm; left|].
    specialize (IH w1). rewrite Hdom in IH.
    destruct (for_in items _ _) as [w|e].
    + destruct IH as [-> IH]; [intros; eapply Hm; by right|]. split; [done|].
      intros r c s Hin Hs. apply elem_of_cons in Hin as [?|?]; simplify_eq.
      * apply Hall. by apply elem_of_elements.
      * by eapply IH.
    + destruct IH as (r & c & s & -> & ? & ? & ?); [intros; eapply Hm; by right|].
      exists r, c, s. split; [done|]. split; [by right|done].
  - destruct Hinner as (s & -> & Hs & ?); [eapply Hm; left|].
    exists role, config, s. split; [done|]. split; [left|].
    split; [by apply elem_of_elements|done].
Qed.

(** C10.  [determine_schema_writers] returns a map only when every schema a
    role may write to (its [privileges.schemas.write] list, with
    ['personal_schemas'] replaced by the personal schemas) has an owner in the
    specification or is a personal schema.  When one of them has not, the
    call raises instead: [KeyError] for a schema without owner, unless
    resolving the members has already exhausted the stack. *)
Theorem determine_schema_writers_unowned_schema (limit : nat) (spec : Spec) :
  (∀ writers, determine_schema_writers limit spec = Ok writers →
     ∀ role config schema, (role, config) ∈ spec →
       schema ∈ writable_schemas (determine_personal_schemas spec) config →
       schema_has_owner spec schema)
  ∧ ((∃ role config schema, (role, config) ∈ spec
        ∧ schema ∈ writable_schemas (determine_personal_schemas spec) config
        ∧ ¬ schema_has_owner spec schema) →
     ∃ e, determine_schema_writers limit spec = Raise e
          ∧ (e = RecursionError
             ∨ ∃ schema, e = KeyError schema ∧ ¬ schema_has_owner spec schema)).
Proof.
  unfold determine_schema_writers.
  pose proof (determine_role_members_inv limit spec) as Hmem.
  destruct (determine_role_members limit spec) as [members_of_role|e]; simpl.
  2:{ split; [done|]. intros _. exists e. split; [done|by left]. }
  pose proof (schema_writers_outer_loop members_of_role (determine_personal_schemas spec)
                spec ((λ owner : string, ({[owner]} : gset string))
                        <$> determine_schema_owners spec) Hmem) as Hloop.
  rewrite dom_fmap_L in Hloop.
  destruct (for_in spec _ _) as [w|e]; simpl.
  - destruct Hloop as [_ Hall]. split.
    + intros _ _ role config schema Hin Hs. apply dom_determine_schema_owners. eauto.
    + intros (role & config & schema & Hin & Hs & Hno). exfalso. apply Hno.
      apply dom_determine_schema_owners. eauto.
  - destruct Hloop as (role & config & schema & -> & Hin & Hs & Hno). split; [done|].
    intros _. eexists. split; [done|]. right. exists schema. split; [done|].
    by rewrite <- dom_determine_schema_owners.
Qed.

(** ** The order of the emitted statements *)

#[global] Instance pair_le_total : Total pair_le.
Proof.
  intros [a1 a2] [b1 b2]. unfold pair_le. simpl.
  destruct (decide (a1 = b1)) as [->|Hne].
  - destruct (total String.le a2 b2); [left|right]; (split; [|done]);
      destruct (total String.le b1 b1); done.
  - destruct (total String.le a1 b1); [left|right]; (split; [done|congruence]).
Qed.

#[global] Instance pair_le_trans : Transitive pair_le.
Proof.
  intros [a1 a2] [b1 b2] [c1 c2]. unfold pair_le. simpl. intros [H1 H2] [H3 H4].
  split; [by etrans|]. intros ->.
  assert (c1 = b1) as -> by (by apply (anti_symm String.le)).
  etrans; [by apply H2|by apply H4].
Qed.

#[global] Instance pair_le_antisym : AntiSymm (=) pair_le.
Proof.
  intros [a1 a2] [b1 b2]. unfold pair_le. simpl. intros [H1 H2] [H3 H4].
  assert (a1 = b1) as -> by (by apply (anti_symm String.le)).
  f_equal. apply (anti_symm String.le); auto.
Qed.

#[global] Instance triple_le_total : Total triple_le.
Proof.
  intros [a1 a2] [b1 b2]. unfold triple_le. simpl.
  destruct (decide (a1 = b1)) as [->|Hne].
  - destruct (total String.le a2 b2); [left|right]; (split; [|done]);
      destruct (total pair_le b1 b1); done.
  - destruct (total pair_le a1 b1); [left|right]; (split; [done|congruence]).
Qed.

#[global] Instance triple_le_trans : Transitive triple_le.
Proof.
  intros [a1 a2] [b1 b2] [c1 c2]. unfold triple_le. simpl. intros [H1 H2] [H3 H4].
  split; [by etrans|]. intros ->.
  assert (c1 = b1) as -> by (by apply (anti_symm pair_le)).
  etrans; [by apply H2|by apply H4].
Qed.

#[global] Instance triple_le_antisym : AntiSymm (=) triple_le.
Proof.
  intros [a1 a2] [b1 b2]. unfold triple_le. simpl. intros [H1 H2] [H3 H4].
  assert (a1 = b1) as -> by (by apply (anti_symm pair_le)).
  f_equal. apply (anti_symm String.le); auto.
Qed.

(** [sorted] of a set: the one increasing list of its elements. *)
Lemma merge_sort_sorted_keys {A : Type} `{Countable A} (R : relation A) `{!RelDecision R}
    `{!Total R, !Transitive R, !AntiSymm (=) R} (s : gset A) :
  sorted_keys R (merge_sort R (elements s)) s.
Proof.
  repeat split.
  - by apply StronglySorted_merge_sort.
  - rewrite merge_sort_Permutation. apply NoDup_elements.
  - rewrite merge_sort_Permutation. apply elem_of_elements.
  - rewrite merge_sort_Permutation. apply elem_of_elements.
  - intros l Hl. apply (Sorted_unique R); [by apply Sorted_merge_sort..|].
    by rewrite !merge_sort_Permutation.
Qed.

(** C9.  The list [analyze] returns is the non-default grants, then the
    non-default revokes, then the default grants, then the default revokes
    (the last two only for an object kind that has default privileges); in
    each group the statements follow the increasing lexicographic order of
    their key tuples, which fixes the list whatever the iteration order of
    the sets. *)
Theorem analyze_statement_order (self : PrivilegeAnalyzer) (sql_to_run : list stmt) :
  analyze self = Ok sql_to_run →
  ∃ d grants revokes default_grants default_revokes,
    identify_desired_objects self = Ok d
    ∧ sql_to_run = (grant_nondefault self <$> grants)
                   ++ (revoke_nondefault self <$> revokes)
                   ++ (grant_default self <$> default_grants)
                   ++ (revoke_default self <$> default_revokes)
    ∧ sorted_keys pair_le grants (desired_nondefaults d ∖ current_nondefaults self)
    ∧ sorted_keys pair_le revokes (current_nondefaults self ∖ desired_nondefaults d)
    ∧ if default_acl_possible self
      then ∃ dd, desired_defaults d = Some dd
             ∧ sorted_keys triple_le default_grants (dd ∖ current_defaults self)
             ∧ sorted_keys triple_le default_revokes (current_defaults self ∖ dd)
      else default_grants = [] ∧ default_revokes = [].
Proof.
  unfold analyze. intros Hret.
  destruct (identify_desired_objects self) as [d|] eqn:Hd; [simpl in Hret|done].
  exists d, (sorted2 (desired_nondefaults d ∖ current_nondefaults self)),
    (sorted2 (current_nondefaults self ∖ desired_nondefaults d)).
  assert (default_acl_possible self = true → ∃ dd, desired_defaults d = Some dd) as Hdd.
  { intros Hacl. unfold identify_desired_objects in Hd. rewrite Hacl in Hd.
    destruct (for_in _ _ _) as [[objs schemas]|]; [simpl in Hd|done].
    destruct (privilege_verbs _ _) as [verbs|]; [simpl in Hd|done].
    destruct (determine_desired_defaults _ _) as [dd|]; [simpl in Hd|done].
    injection Hd as <-. by eexists. }
  destruct (default_acl_possible self).
  - destruct Hdd as [dd Hdd]; [done|]. rewrite Hdd in Hret. simpl in Hret.
    exists (sorted3 (dd ∖ current_defaults self)), (sorted3 (current_defaults self ∖ dd)).
    split; [done|]. split.
    { injection Hret as <-. unfold analyze_nondefaults, analyze_defaults.
      by rewrite <- !app_assoc. }
    split; [apply merge_sort_sorted_keys; apply _|].
    split; [apply merge_sort_sorted_keys; apply _|].
    exists dd. split; [done|].
    split; apply merge_sort_sorted_keys; apply _.
  - exists [], []. split; [done|]. split.
    { injection Hret as <-. unfold analyze_nondefaults. by rewrite !app_nil_r. }
    split; [apply merge_sort_sorted_keys; apply _|].
    split; [apply merge_sort_sorted_keys; apply _|done].
Qed.

(** ** Failures of the analysis *)

Lemma prefix_app (part after : string) : String.prefix part (part +:+ after) = true.
Proof.
  induction part as [|c part IH].
  { change (EmptyString +:+ after) with after. by destruct after. }
  change (String c part +:+ after) with (String c (part +:+ after)). simpl.
  destruct (ascii_dec c c); [done|congruence].
Qed.

Lemma infixb_unfold (part s : string) :
  infixb part s
  = String.prefix part s
    || match s with
       | EmptyString => false
       | String _ s' => infixb part s'
       end.
Proof. by destruct s. Qed.

Lemma carries_infixb (msg part : string) : carries msg part → infixb part msg = true.
Proof.
  intros (before & after & ->). induction before as [|c before IH].
  - change (EmptyString +:+ part +:+ after) with (part +:+ after).
    by rewrite infixb_unfold, prefix_app.
  - change (String c before +:+ part +:+ after)
      with (String c (before +:+ part +:+ after)).
    rewrite infixb_unfold, IH. apply orb_true_r.
Qed.

Lemma string_app_assoc (a b c : string) : (a +:+ b) +:+ c = a +:+ (b +:+ c).
Proof.
  induction a as [|x a IH]; [done|].
  change ((String x a +:+ b) +:+ c) with (String x ((a +:+ b) +:+ c)).
  by rewrite IH.
Qed.

Lemma carries_here (part after : string) : carries (part +:+ after) part.
Proof. by exists EmptyString, after. Qed.

Lemma carries_later (a s part : string) : carries s part → carries (a +:+ s) part.
Proof.
  intros (before & after & ->). exists (a +:+ before), after.
  by rewrite string_app_assoc.
Qed.

Lemma last_char_app (a b : string) :
  last_char (a +:+ b) = match last_char b with Some c => Some c | None => last_char a end.
Proof.
  induction a as [|c a IH].
  - change (EmptyString +:+ b) with b. by destruct (last_char b).
  - change (String c a +:+ b) with (String c (a +:+ b)). simpl.
    rewrite IH. destruct (last_char b); [done|]. by destruct (last_char a).
Qed.

Lemma error_messages_differ (k i r r' k' a' : string) :
  OBJECT_DOES_NOT_EXIST_ERROR_MSG k i r ≠ PERSONAL_SCHEMAS_ERROR_MSG r' k' a'.
Proof.
  intros Heq. apply (f_equal last_char) in Heq.
  unfold OBJECT_DOES_NOT_EXIST_ERROR_MSG, PERSONAL_SCHEMAS_ERROR_MSG in Heq.
  rewrite !last_char_app in Heq. simpl in Heq. discriminate.
Qed.

Lemma for_in_app {A S : Type} (l1 l2 : list A) (body : A → S → result S) (s : S) :
  for_in (l1 ++ l2) body s
  = match for_in l1 body s with
    | Ok s' => for_in l2 body s'
    | Raise e => Raise e
    end.
Proof.
  revert s. induction l1 as [|x l1 IH]; intros s; simpl; [done|].
  destruct (body x s); [apply IH|done].
Qed.

Lemma for_in_raise_inv {A S : Type} (l : list A) (body : A → S → result S) (s : S) (e : exn) :
  for_in l body s = Raise e →
  ∃ pre x post s', l = pre ++ x :: post ∧ for_in pre body s = Ok s' ∧ body x s' = Raise e.
Proof.
  revert s. induction l as [|x l IH]; intros s; simpl; [done|].
  destruct (body x s) as [s1|e1] eqn:Hx.
  - intros (pre & y & post & s' & -> & Hpre & Hy)%IH.
    exists (x :: pre), y, post, s'. simpl. by rewrite Hx.
  - intros [= <-]. by exists [], x, l, s.
Qed.

Lemma for_in_ok_inv {A S : Type} (l : list A) (body : A → S → result S) (s s' : S) (x : A) :
  for_in l body s = Ok s' → x ∈ l → ∃ s1 s2, body x s1 = Ok s2.
Proof.
  revert s. induction l as [|y l IH]; intros s; simpl.
  { intros _ Hx. by apply elem_of_nil in Hx. }
  destruct (body y s) as [s1|] eqn:Hy; [|done].
  intros Hl [->|Hx]%elem_of_cons; [by eauto|by eapply IH].
Qed.

Lemma get_object_owner_raise (self : PrivilegeAnalyzer) (item : string) (e : exn) :
  get_object_owner self item None = Raise e →
  e = SystemExit (OBJECT_DOES_NOT_EXIST_ERROR_MSG (drop_last (object_kind self)) item
                    (rolename self)).
Proof.
  unfold get_object_owner, fail. destruct (split_dot item) as [schema objname].
  destruct (_ !! _) as [attr|]; [|congruence].
  destruct (bool_decide _); congruence.
Qed.

(** What makes one turn of the loop over the desired items fail; the state
    of the loop plays no part. *)
Lemma identify_item_raise (self : PrivilegeAnalyzer) (item : string)
    (st : gset string * list string) (e : exn) :
  identify_item self item st = Raise e ↔
    (item = "personal_schemas" ∧ object_kind self ≠ "schemas"
     ∧ e = SystemExit (PERSONAL_SCHEMAS_ERROR_MSG (rolename self) (object_kind self)
                         (access_str (access self))))
    ∨ (names_single_object item = true
       ∧ get_object_owner self (ensure_quoted_identifier item) None = Raise e).
Proof.
  unfold identify_item, names_single_object, fail. destruct st as [objs schemas].
  destruct (bool_decide (item = "personal_schemas")) eqn:Hps; simpl.
  - apply bool_decide_eq_true in Hps.
    destruct (bool_decide (object_kind self = "schemas")) eqn:Hk; simpl.
    + apply bool_decide_eq_true in Hk. split; [done|]. intros [(_ & ? & _)|[? _]]; done.
    + apply bool_decide_eq_false in Hk. rewrite bool_decide_eq_true_2 by done. split.
      * intros [= <-]. by left.
      * intros [(_ & _ & ->)|[? _]]; done.
  - apply bool_decide_eq_false in Hps.
    destruct (bool_decide (item = "personal_schemas.*")); simpl.
    { split; [done|]. intros [(? & _)|[? _]]; done. }
    destruct (endswith item ".*"); simpl.
    { split; [done|]. intros [(? & _)|[? _]]; done. }
    destruct (get_object_owner self (ensure_quoted_identifier item) None) as [o|e'];
      simpl.
    + split; [by destruct (bool_decide _)|]. intros [(? & _)|[_ ?]]; done.
    + split; [intros [= <-]; by right|]. intros [(? & _)|[_ [= <-]]]; done.
Qed.

Lemma determine_desired_defaults_raise (self : PrivilegeAnalyzer) (schemas : list string)
    (e : exn) :
  determine_desired_defaults self schemas = Raise e → ∃ k, e = KeyError k.
Proof.
  unfold determine_desired_defaults.
  intros (pre & schema & post & dd & _ & _ & Hbody)%for_in_raise_inv.
  unfold getitem in Hbody. destruct (schema_writers self !! schema) as [writers|];
    simpl in Hbody; [|injection Hbody as <-; by eexists].
  apply for_in_raise_inv in Hbody as (pre' & writer & post' & dd' & _ & _ & Hbody).
  destruct (bool_decide _); [done|]. unfold privilege_verbs in Hbody.
  destruct (list_find _ _) as [[? [? [? ?]]]|]; simpl in Hbody; [done|].
  injection Hbody as <-. by eexists.
Qed.

(** A failure of [identify_desired_objects] through [common.fail] comes from
    the loop over the desired items. *)
Lemma identify_desired_objects_exit (self : PrivilegeAnalyzer) (msg : string) :
  identify_desired_objects self = Raise (SystemExit msg)
  ↔ for_in (desired_items self) (identify_item self) (∅, []) = Raise (SystemExit msg).
Proof.
  unfold identify_desired_objects.
  destruct (for_in _ _ _) as [[objs schemas]|e]; simpl; [|by split; intros [= ->]].
  split; [|done]. unfold privilege_verbs.
  destruct (list_find _ _) as [[? [? [? ?]]]|]; simpl; [|done].
  destruct (default_acl_possible self); [|done].
  destruct (determine_desired_defaults _ _) as [dd|e] eqn:Hdd; simpl; [done|].
  apply determine_desired_defaults_raise in Hdd as [k ->]. done.
Qed.

(** C4 (amended).  A failure of [analyze] through [common.fail] is one of
    two.  The message about the keyword ['personal_schemas'] carries the role
    name, the object kind and the access level.  The message about an object
    without owner carries the role name, the object kind without its last
    letter and the name of the object; the access level is not part of it. *)
Theorem analyze_failure_message (self : PrivilegeAnalyzer) (msg : string) :
  analyze self = Raise (SystemExit msg) →
  (msg = PERSONAL_SCHEMAS_ERROR_MSG (rolename self) (object_kind self)
           (access_str (access self))
   ∧ carries msg (rolename self) ∧ carries msg (object_kind self)
   ∧ carries msg (access_str (access self)))
  ∨ (∃ item, item ∈ desired_items self
       ∧ msg = OBJECT_DOES_NOT_EXIST_ERROR_MSG (drop_last (object_kind self))
                 (ensure_quoted_identifier item) (rolename self)
       ∧ carries msg (rolename self) ∧ carries msg (drop_last (object_kind self))
       ∧ carries msg (ensure_quoted_identifier item)).
Proof.
  clear check_name.
  unfold analyze. intros Hret.
  destruct (identify_desired_objects self) as [d|e] eqn:Hd; simpl in Hret.
  { by destruct (default_acl_possible self). }
  injection Hret as ->. apply identify_desired_objects_exit in Hd.
  apply for_in_raise_inv in Hd as (pre & item & post & st & Hitems & _ & Hitem).
  apply identify_item_raise in Hitem as [(_ & _ & [= ->])|[_ Hown]].
  - left. split; [done|]. unfold PERSONAL_SCHEMAS_ERROR_MSG.
    repeat split; repeat (apply carries_here || apply carries_later).
  - right. exists item. split; [rewrite Hitems; set_solver|].
    apply get_object_owner_raise in Hown as [= ->]. split; [done|].
    unfold OBJECT_DOES_NOT_EXIST_ERROR_MSG.
    repeat split; repeat (apply carries_here || apply carries_later).
Qed.

(** ** What the desired items expand to *)

Lemma elem_of_product (objs : gset string) (privs : list string) (o p : string) :
  (o, p) ∈ product objs privs ↔ o ∈ objs ∧ p ∈ privs.
Proof.
  unfold product. rewrite elem_of_list_to_set, list_elem_of_bind. split.
  - intros (o' & Hin & Ho). apply elem_of_elements in Ho.
    apply list_elem_of_fmap in Hin as (p' & [= -> ->] & Hp). done.
  - intros [Ho Hp]. exists o. split; [|by apply elem_of_elements].
    apply list_elem_of_fmap. by exists p.
Qed.

Lemma identify_item_ok (self : PrivilegeAnalyzer) (item : string)
    (objs objs' : gset string) (schemas schemas' : list string) :
  identify_item self item (objs, schemas) = Ok (objs', schemas') →
  (∀ o, o ∈ objs' ↔ o ∈ objs ∨ item_objects self item o)
  ∧ schemas' = schemas ++ item_schemas self item.
Proof.
  clear check_name.
  unfold identify_item, item_objects, item_schemas, names_single_object, fail.
  destruct (bool_decide (item = "personal_schemas")) eqn:Hps; simpl.
  - apply bool_decide_eq_true in Hps.
    destruct (bool_decide (object_kind self = "schemas")) eqn:Hk; simpl.
    + apply bool_decide_eq_true in Hk. intros [= <- <-]. rewrite app_nil_r.
      split; [|done]. intros o. rewrite elem_of_union. naive_solver.
    + apply bool_decide_eq_false in Hk. by rewrite bool_decide_eq_true_2.
  - apply bool_decide_eq_false in Hps.
    destruct (bool_decide (item = "personal_schemas.*")); simpl.
    { intros [= <- <-]. split; [|done]. naive_solver. }
    destruct (endswith item ".*"); simpl.
    { intros [= <- <-]. split; [|done]. naive_solver. }
    destruct (get_object_owner self (ensure_quoted_identifier item) None) as [o'|]
      eqn:Hown; simpl; [|done].
    destruct (bool_decide (o' ≠ rolename self)) eqn:Hne.
    + apply bool_decide_eq_true in Hne. intros [= <- <-]. rewrite app_nil_r.
      split; [|done]. intros o. rewrite elem_of_union, elem_of_singleton. split.
      * intros [->|?]; [|by left]. right; right. eauto.
      * intros [?|[(? & _)|(_ & -> & _)]]; [by right|done|by left].
    + apply bool_decide_eq_false in Hne. intros [= <- <-]. rewrite app_nil_r.
      split; [|done]. intros o. split; [by left|].
      intros [?|[(? & _)|(_ & -> & o'' & Ho & ?)]]; [done..|].
      rewrite Hown in Ho. injection Ho as <-. by destruct Hne.
Qed.

(** The state of the loop over the desired items when it ends. *)
Lemma identify_loop_ok (self : PrivilegeAnalyzer) (items : list string)
    (objs objs' : gset string) (schemas schemas' : list string) :
  for_in items (identify_item self) (objs, schemas) = Ok (objs', schemas') →
  (∀ o, o ∈ objs' ↔ o ∈ objs ∨ ∃ item, item ∈ items ∧ item_objects self item o)
  ∧ schemas' = schemas ++ (items ≫= item_schemas self).
Proof.
  revert objs schemas.
  induction items as [|item items IH]; intros objs schemas; cbn [for_in mbind list_bind].
  { intros [= <- <-]. rewrite app_nil_r. split; [|done]. intros o. split; [by left|].
    intros [?|(? & Hin & _)]; [done|]. by apply elem_of_nil in Hin. }
  destruct (identify_item self item (objs, schemas)) as [[objs1 schemas1]|] eqn:Hitem;
    [|done].
  apply identify_item_ok in Hitem as [Hobjs ->].
  intros [Hobjs' ->]%IH. split; [|by rewrite app_assoc].
  intros o. rewrite Hobjs', Hobjs. split.
  - intros [[?|?]|(i & ? & ?)]; [by left|..].
    + right. exists item. split; [left|done].
    + right. exists i. split; [by right|done].
  - intros [?|(i & [->|?]%elem_of_cons & ?)]; [by left; left|by left; right|].
    right. by exists i.
Qed.

Lemma elem_of_schema_objects_loop (self : PrivilegeAnalyzer) (schemas : list string)
    (objs : gset string) (o : string) :
  o ∈ foldl (λ (objs : gset string) schema, objs ∪ get_schema_objects self schema)
            objs schemas
  ↔ o ∈ objs ∨ ∃ schema, schema ∈ schemas ∧ o ∈ get_schema_objects self schema.
Proof.
  revert objs. induction schemas as [|schema schemas IH]; intros objs; simpl.
  { split; [by left|]. intros [?|(? & Hin & _)]; [done|]. by apply elem_of_nil in Hin. }
  rewrite IH, elem_of_union. split.
  - intros [[?|?]|(s' & ? & ?)]; [by left|..].
    + right. exists schema. split; [left|done].
    + right. exists s'. split; [by right|done].
  - intros [?|(s' & [->|?]%elem_of_cons & ?)]; [by left; left|by left; right|].
    right. by exists s'.
Qed.

(** C5 (amended).  [identify_desired_objects] fails over the keyword
    ['personal_schemas'] exactly when the object kind is not ['schemas'], the
    item is in the list, and no item in front of its first occurrence names an
    object without owner (that item fails first, with the other message).
    When the object kind is ['schemas'] the item stands for every personal
    schema: each is desired with every privilege verb. *)
Theorem identify_desired_objects_personal_schemas (self : PrivilegeAnalyzer) :
  (identify_desired_objects self
   = fail (PERSONAL_SCHEMAS_ERROR_MSG (rolename self) (object_kind self)
             (access_str (access self)))
   ↔ object_kind self ≠ "schemas"
     ∧ ∃ pre post, desired_items self = pre ++ "personal_schemas" :: post
         ∧ ∀ item, item ∈ pre →
             item ≠ "personal_schemas"
             ∧ (names_single_object item = true → owner_known self item))
  ∧ (object_kind self = "schemas" → "personal_schemas" ∈ desired_items self →
     ∀ d verbs, identify_desired_objects self = Ok d →
       privilege_verbs (object_kind self) (access self) = Ok verbs →
       ∀ schema p, schema ∈ personal_schemas self → p ∈ verbs →
         (schema, p) ∈ desired_nondefaults d).
Proof.
  split.
  - unfold fail. rewrite identify_desired_objects_exit. split.
    + intros (pre & item & post & st & Hitems & Hpre & Hitem)%for_in_raise_inv.
      apply identify_item_raise in Hitem as [(-> & Hk & _)|[_ Hown]].
      2:{ apply get_object_owner_raise in Hown as [= Hmsg].
          by apply eq_sym, error_messages_differ in Hmsg. }
      split; [done|]. exists pre, post. split; [done|]. intros item Hin.
      destruct (for_in_ok_inv _ _ _ _ item Hpre Hin) as (st1 & st2 & Hok). split.
      * intros ->.
        assert (identify_item self "personal_schemas" st1
                = Raise (SystemExit (PERSONAL_SCHEMAS_ERROR_MSG (rolename self)
                           (object_kind self) (access_str (access self))))) as Hr.
        { apply identify_item_raise. by left. }
        congruence.
      * intros Hsingle. unfold owner_known.
        destruct (get_object_owner self (ensure_quoted_identifier item) None) as [o|e]
          eqn:Hown; [by eexists|].
        assert (identify_item self item st1 = Raise e) as Hr.
        { apply identify_item_raise. by right. }
        congruence.
    + intros (Hk & pre & post & -> & Hpre). rewrite for_in_app.
      assert (∃ st, for_in pre (identify_item self) (∅, []) = Ok st) as [st ->].
      { generalize (∅ : gset string, [] : list string).
        induction pre as [|item pre IH]; intros st0; simpl; [by eexists|].
        destruct (identify_item self item st0) as [st1|e] eqn:Hitem.
        - apply IH. intros i Hi. apply Hpre. by right.
        - exfalso. destruct (Hpre item) as [Hne Hown]; [left|].
          apply identify_item_raise in Hitem as [(? & _)|[Hsingle Hraise]]; [done|].
          destruct (Hown Hsingle) as [o Ho]. congruence. }
      simpl.
      assert (identify_item self "personal_schemas" st
              = Raise (SystemExit (PERSONAL_SCHEMAS_ERROR_MSG (rolename self)
                         (object_kind self) (access_str (access self))))) as ->; [|done].
      apply identify_item_raise. by left.
  - intros Hk Hin d verbs Hd Hverbs schema p Hschema Hp.
    unfold identify_desired_objects in Hd.
    destruct (for_in _ _ _) as [[objs schemas]|] eqn:Hloop; [simpl in Hd|done].
    rewrite Hverbs in Hd. simpl in Hd.
    apply identify_loop_ok in Hloop as [Hobjs _].
    assert ((schema, p) ∈ product
              (foldl (λ (objs : gset string) schema, objs ∪ get_schema_objects self schema)
                     objs schemas) verbs) as Hprod.
    { apply elem_of_product. split; [|done]. apply elem_of_schema_objects_loop. left.
      apply Hobjs. right. exists "personal_schemas". split; [done|]. by left. }
    destruct (default_acl_possible self).
    + destruct (determine_desired_defaults self schemas); [|done]. by injection Hd as <-.
    + by injection Hd as <-.
Qed.

(** ** The loop of the orchestrator *)

Lemma store_read_items_name (st : Spec) (i : nat) (k : string) (items : list string)
    (j : nat) :
  fst <$> store_read_items st i k items !! j = fst <$> st !! j.
Proof.
  unfold store_read_items. destruct (st !! i) as [[role [c|]]|] eqn:Hi; [|done..].
  destruct (cfg_privileges c) as [p|]; [|done]. destruct (p !! k); [|done].
  destruct (decide (i = j)) as [->|Hne].
  - rewrite list_lookup_insert_eq by (by eapply lookup_lt_Some). by rewrite Hi.
  - by rewrite list_lookup_insert_ne.
Qed.

Lemma store_read_items_lookup (st : Spec) (i : nat) (k : string) (items : list string)
    (j : nat) (k' : string) :
  desired_items_this_obj (store_read_items st i k items) j k'
  = if decide (i = j ∧ k = k')
    then match st !! i with
         | Some (_, Some c) =>
             match cfg_privileges c with
             | Some p =>
                 match p !! k with
                 | Some d => {| items_read := Some items; items_write := items_write d |}
                 | None => no_items
                 end
             | None => no_items
             end
         | _ => no_items
         end
    else desired_items_this_obj st j k'.
Proof.
  unfold store_read_items, desired_items_this_obj.
  destruct (st !! i) as [[role [c|]]|] eqn:Hi.
  - destruct (cfg_privileges c) as [p|] eqn:Hp.
    + destruct (p !! k) as [d|] eqn:Hk.
      * destruct (decide (i = j)) as [->|Hne].
        -- rewrite list_lookup_insert_eq by (by eapply lookup_lt_Some). simpl.
           destruct (decide (k = k')) as [->|Hne].
           ++ rewrite decide_True by done. by rewrite lookup_insert_eq.
           ++ rewrite decide_False by naive_solver.
              by rewrite lookup_insert_ne, Hi, Hp.
        -- rewrite decide_False by naive_solver. by rewrite list_lookup_insert_ne.
      * case_decide as Hd; [|done]. destruct Hd as [<- <-]. by rewrite Hi, Hp, Hk.
    + case_decide as Hd; [|done]. destruct Hd as [<- <-]. by rewrite Hi, Hp.
  - case_decide as Hd; [|done]. destruct Hd as [<- <-]. by rewrite Hi.
  - case_decide as Hd; [|done]. destruct Hd as [<- <-]. by rewrite Hi.
Qed.

Lemma store_read_items_write (st : Spec) (i : nat) (k : string) (items : list string)
    (j : nat) (k' : string) :
  items_write (desired_items_this_obj (store_read_items st i k items) j k')
  = items_write (desired_items_this_obj st j k').
Proof.
  rewrite store_read_items_lookup. case_decide as Hd; [|done]. destruct Hd as [<- <-].
  unfold desired_items_this_obj. destruct (st !! i) as [[role [c|]]|]; [|done..].
  destruct (cfg_privileges c) as [p|]; [|done]. by destruct (p !! k).
Qed.

Lemma items_evolved_refl (d : access_items) : items_evolved d d.
Proof. by left. Qed.

Lemma config_evolved_refl (c : option role_config) : config_evolved c c.
Proof.
  destruct c as [c|]; [|done]. repeat split.
  destruct (cfg_privileges c) as [m|]; [|done]. simpl. intros k.
  destruct (m !! k); [apply items_evolved_refl|done].
Qed.

Lemma evolved_refl (spec : Spec) : evolved spec spec.
Proof. apply Forall_Forall2_diag, Forall_forall. intros x _. split; [done|apply config_evolved_refl]. Qed.

Lemma evolved_name (spec0 st : Spec) (j : nat) :
  evolved spec0 st → fst <$> st !! j = fst <$> spec0 !! j.
Proof.
  intros Hev. destruct (spec0 !! j) as [x0|] eqn:H0.
  - destruct (Forall2_lookup_l _ _ _ _ _ Hev H0) as (x & -> & Hn & _).
    simpl. by rewrite Hn.
  - apply Forall2_length in Hev. apply lookup_ge_None in H0.
    rewrite (proj2 (lookup_ge_None st j)); [done|lia].
Qed.

Lemma evolved_lookup (spec0 st : Spec) (j : nat) (k : string) :
  evolved spec0 st →
  items_evolved (desired_items_this_obj spec0 j k) (desired_items_this_obj st j k).
Proof.
  intros Hev. unfold desired_items_this_obj. destruct (spec0 !! j) as [[r0 c0]|] eqn:H0.
  - destruct (Forall2_lookup_l _ _ _ _ _ Hev H0) as ([r c] & -> & _ & Hc). simpl in Hc.
    destruct c0 as [a|], c as [b|]; try done; [|apply items_evolved_refl].
    destruct Hc as (_ & _ & _ & _ & Hp).
    destruct (cfg_privileges a) as [m0|], (cfg_privileges b) as [m|]; try done;
      [|apply items_evolved_refl].
    specialize (Hp k). destruct (m0 !! k), (m !! k); try done. apply items_evolved_refl.
  - apply Forall2_length in Hev. apply lookup_ge_None in H0.
    rewrite (proj2 (lookup_ge_None st j)); [apply items_evolved_refl|lia].
Qed.

Lemma evolved_write (spec0 st : Spec) (j : nat) (k : string) :
  evolved spec0 st →
  items_write (desired_items_this_obj st j k)
  = items_write (desired_items_this_obj spec0 j k).
Proof. intros Hev. by destruct (evolved_lookup spec0 st j k Hev) as [-> | ->]. Qed.

(** Extending a read list that is still as in [spec0] keeps the store evolved. *)
Lemma store_read_items_evolved (spec0 st : Spec) (i : nat) (k : string) :
  evolved spec0 st →
  desired_items_this_obj st i k = desired_items_this_obj spec0 i k →
  evolved spec0
    (store_read_items st i k (combined_items read (desired_items_this_obj st i k))).
Proof.
  intros Hev Hfresh. unfold store_read_items.
  destruct (st !! i) as [[role [c|]]|] eqn:Hi; [|done..].
  destruct (cfg_privileges c) as [m|] eqn:Hm; [|done].
  destruct (m !! k) as [d|] eqn:Hk; [|done].
  destruct (Forall2_lookup_r _ _ _ _ _ Hev Hi) as ([r0 c0] & H0 & Hname & Hc).
  rewrite <- (list_insert_id spec0 i (r0, c0)) by done.
  apply Forall2_insert; [done|]. split; [done|]. simpl in Hc |- *.
  destruct c0 as [a|]; [|done]. destruct Hc as (? & ? & ? & ? & Hp).
  repeat (split; [done|]). rewrite Hm in Hp. simpl.
  destruct (cfg_privileges a) as [m0|] eqn:Hm0; [|done]. intros k'.
  specialize (Hp k'). destruct (decide (k = k')) as [<-|Hne].
  - rewrite lookup_insert_eq. rewrite Hk in Hp.
    destruct (m0 !! k) as [d0|] eqn:Hk0; [|done]. right.
    unfold desired_items_this_obj in Hfresh. rewrite Hi, H0, Hm, Hm0, Hk, Hk0 in Hfresh.
    simpl in Hfresh. subst d. unfold desired_items_this_obj. by rewrite Hi, Hm, Hk.
  - by rewrite lookup_insert_ne.
Qed.

Lemma for_in_store_cons {A S St : Type} (x : A) (l : list A)
    (body : A → S → St → St * result S) (s : S) (st : St) :
  for_in_store (x :: l) body s st
  = match body x s st with
    | (st', Ok s') => for_in_store l body s' st'
    | (st', Raise e) => (st', Raise e)
    end.
Proof. done. Qed.

Section loop.
Context {X : Type}.
Variable skip : string → X.
Variable privconf :
  string → access_level → string → list string →
  gmap string (gset string) → gset string → result (list X).
Variable dbcontext : DatabaseContext.
Variable schema_writers : gmap string (gset string).
Variable personal_schemas : gset string.
Variable spec0 : Spec.

Local Notation run_combination :=
  (run_combination skip privconf schema_writers personal_schemas).

Lemma analyze_access_read (st : Spec) (i : nat) (rolename kind : string)
    (ks : list string) (sql : list X) :
  fresh_from spec0 st i (kind :: ks) → kind ∉ ks →
  (analyze_access privconf i rolename kind schema_writers personal_schemas read sql st).2
  = run_combination
      (Analyzed rolename read kind
         (combined_items read (desired_items_this_obj spec0 i kind))) sql
  ∧ fresh_from spec0
      (analyze_access privconf i rolename kind schema_writers personal_schemas read sql st).1
      i ks.
Proof.
  intros (Hev & Hfresh) Hk. unfold analyze_access, desired_items_for. simpl.
  pose proof (Hfresh i kind (or_intror (conj eq_refl (list_elem_of_here _ _)))) as Hik.
  pose proof (store_read_items_evolved spec0 st i kind Hev Hik) as Hev'.
  unfold combined_items in Hev'. rewrite Hik in Hev' |- *. split; [done|].
  destruct (items_read (desired_items_this_obj spec0 i kind)).
  - split; [done|].
    intros j k Hj. rewrite store_read_items_lookup.
    rewrite decide_False; [apply Hfresh|].
    + destruct Hj as [?|[-> ?]]; [by left|]. right. split; [done|by right].
    + intros [<- <-]. destruct Hj as [?|[_ ?]]; [lia|done].
  - split; [done|]. intros j k Hj. apply Hfresh.
    destruct Hj as [?|[-> ?]]; [by left|]. right. split; [done|by right].
Qed.

Lemma analyze_access_write (st : Spec) (i : nat) (rolename kind : string)
    (ks : list string) (sql : list X) :
  fresh_from spec0 st i ks →
  analyze_access privconf i rolename kind schema_writers personal_schemas write sql st
  = (st, run_combination
           (Analyzed rolename write kind
              (combined_items write (desired_items_this_obj spec0 i kind))) sql).
Proof.
  intros (Hev & Hfresh). unfold analyze_access, desired_items_for. simpl.
  by rewrite (evolved_write spec0 st i kind Hev).
Qed.

(** The two access levels of one object kind. *)
Lemma analyze_kind_fresh (st : Spec) (i : nat) (rolename kind : string)
    (ks : list string) (sql : list X) :
  fresh_from spec0 st i (kind :: ks) → kind ∉ ks →
  (for_in_store [read; write]
     (analyze_access privconf i rolename kind schema_writers personal_schemas) sql st).2
  = for_in ((λ a, Analyzed rolename a kind
                    (combined_items a (desired_items_this_obj spec0 i kind)))
              <$> [read; write]) run_combination sql
  ∧ fresh_from spec0
      (for_in_store [read; write]
         (analyze_access privconf i rolename kind schema_writers personal_schemas) sql st).1
      i ks.
Proof.
  intros Hfresh Hk. cbn [for_in_store for_in fmap list_fmap].
  destruct (analyze_access_read st i rolename kind ks sql Hfresh Hk) as [Hres Hst].
  destruct (analyze_access privconf i rolename kind schema_writers personal_schemas
              read sql st) as [st1 res1].
  cbn [fst snd] in Hres, Hst. subst res1.
  destruct (run_combination _ sql) as [sql1|e]; [|done].
  rewrite (analyze_access_write st1 i rolename kind ks sql1 Hst).
  by destruct (run_combination _ sql1).
Qed.

(** The object kinds of one role. *)
Lemma analyze_kinds_fresh (st : Spec) (i : nat) (rolename : string)
    (ks : list string) (sql : list X) :
  NoDup ks → fresh_from spec0 st i ks →
  (for_in_store ks (λ object_kind,
     for_in_store [read; write]
       (analyze_access privconf i rolename object_kind schema_writers personal_schemas))
     sql st).2
  = for_in (object_kind ← ks;
            (λ a, Analyzed rolename a object_kind
                    (combined_items a (desired_items_this_obj spec0 i object_kind)))
              <$> [read; write]) run_combination sql
  ∧ fresh_from spec0
      (for_in_store ks (λ object_kind,
         for_in_store [read; write]
           (analyze_access privconf i rolename object_kind schema_writers
              personal_schemas)) sql st).1
      i [].
Proof.
  intros Hnd. revert st sql. induction Hnd as [|kind ks Hk Hnd IH]; intros st sql Hfresh.
  { done. }
  rewrite for_in_store_cons. cbn [mbind list_bind]. rewrite for_in_app.
  destruct (analyze_kind_fresh st i rolename kind ks sql Hfresh Hk) as [Hres Hst].
  destruct (for_in_store [read; write] _ sql st) as [st1 res1].
  cbn [fst snd] in Hres, Hst. subst res1.
  destruct (for_in _ run_combination sql) as [sql1|e]; [by apply IH|].
  split; [done|]. destruct Hst as (? & Hf). split; [done|].
  intros j k [?|[-> ?%elem_of_nil]]; [|done]. apply Hf. by left.
Qed.

(** One role. *)
Lemma analyze_role_fresh (st : Spec) (i : nat) (sql : list X) :
  NoDup PRIVILEGE_MAP_keys → fresh_from spec0 st i PRIVILEGE_MAP_keys →
  (analyze_role skip privconf dbcontext schema_writers personal_schemas i sql st).2
  = for_in (role_combinations spec0 dbcontext i) run_combination sql
  ∧ fresh_from spec0
      (analyze_role skip privconf dbcontext schema_writers personal_schemas i sql st).1
      (S i) PRIVILEGE_MAP_keys.
Proof.
  intros Hnd Hfresh.
  assert (fresh_from spec0 st (S i) PRIVILEGE_MAP_keys) as Hnext.
  { destruct Hfresh as (? & Hf). split; [done|].
    intros j k Hj. apply Hf. left. lia. }
  unfold analyze_role, role_combinations.
  pose proof (evolved_name spec0 st i (proj1 Hfresh)) as Hname.
  destruct (st !! i) as [[rolename config]|], (spec0 !! i) as [[rolename0 config0]|];
    simplify_eq/=; [|done].
  destruct (is_superuser dbcontext rolename0); [done|].
  destruct (analyze_kinds_fresh st i rolename0 PRIVILEGE_MAP_keys sql Hnd Hfresh)
    as [Hres (? & Hf)].
  split; [done|]. split; [done|]. intros j k Hj. apply Hf. left. lia.
Qed.

(** The roles from position [i] on. *)
Lemma analyze_roles_fresh (st : Spec) (i n : nat) (sql : list X) :
  NoDup PRIVILEGE_MAP_keys → fresh_from spec0 st i PRIVILEGE_MAP_keys →
  (for_in_store (seq i n)
     (analyze_role skip privconf dbcontext schema_writers personal_schemas) sql st).2
  = for_in (seq i n ≫= role_combinations spec0 dbcontext) run_combination sql
  ∧ evolved spec0
      (for_in_store (seq i n)
         (analyze_role skip privconf dbcontext schema_writers personal_schemas) sql st).1.
Proof.
  intros Hnd. revert st i sql. induction n as [|n IH]; intros st i sql Hfresh.
  { split; [done|apply Hfresh]. }
  cbn [seq]. rewrite for_in_store_cons. cbn [mbind list_bind]. rewrite for_in_app.
  destruct (analyze_role_fresh st i sql Hnd Hfresh) as [Hres Hst].
  destruct (analyze_role _ _ _ _ _ i sql st) as [st1 res1].
  cbn [fst snd] in Hres, Hst. subst res1.
  destruct (for_in _ run_combination sql) as [sql1|e]; [by apply IH|].
  split; [done|apply Hst].
Qed.

End loop.

Lemma fresh_from_refl (spec : Spec) (i : nat) (ks : list string) : fresh_from spec spec i ks.
Proof. split; [apply evolved_refl|done]. Qed.

(** The loop of [analyze_privileges] makes the turns [combinations] lists, with
    the desired items of the specification as it was handed over. *)
Lemma analyze_privileges_loop_combinations {X : Type} (skip : string → X)
    (privconf : string → access_level → string → list string →
                gmap string (gset string) → gset string → result (list X))
    (limit : nat) (spec : Spec) (dbcontext : DatabaseContext) :
  NoDup PRIVILEGE_MAP_keys →
  (analyze_privileges_loop skip privconf limit spec dbcontext).2
  = let* schema_writers := determine_schema_writers limit spec in
    for_in (combinations spec dbcontext)
      (run_combination skip privconf schema_writers (determine_personal_schemas spec)) [].
Proof.
  intros Hnd. unfold analyze_privileges_loop.
  destruct (determine_schema_writers limit spec) as [schema_writers|e]; [|done].
  simpl. apply analyze_roles_fresh; [done|apply fresh_from_refl].
Qed.

(** What the loop leaves of the specification: the same but for read lists
    extended with the write items. *)
Lemma analyze_privileges_loop_evolved {X : Type} (skip : string → X)
    (privconf : string → access_level → string → list string →
                gmap string (gset string) → gset string → result (list X))
    (limit : nat) (spec : Spec) (dbcontext : DatabaseContext) :
  NoDup PRIVILEGE_MAP_keys →
  evolved spec (analyze_privileges_loop skip privconf limit spec dbcontext).1.
Proof.
  intros Hnd. unfold analyze_privileges_loop.
  destruct (determine_schema_writers limit spec) as [schema_writers|e];
    [|apply evolved_refl].
  apply analyze_roles_fresh; [done|apply fresh_from_refl].
Qed.

(** ** Write items are read items *)


Lemma elem_of_combinations (spec : Spec) (dbcontext : DatabaseContext) (c : combination) :
  c ∈ combinations spec dbcontext ↔
  ∃ i rolename config, spec !! i = Some (rolename, config)
    ∧ if is_superuser dbcontext rolename then c = Skipped rolename
      else ∃ object_kind a, object_kind ∈ PRIVILEGE_MAP_keys
             ∧ c = Analyzed rolename a object_kind
                     (combined_items a (desired_items_this_obj spec i object_kind)).
Proof.
  clear ensure_quoted_identifier check_name.
  unfold combinations. rewrite list_elem_of_bind. split.
  - intros (i & Hc & Hi). unfold role_combinations in Hc.
    destruct (spec !! i) as [[rolename config]|] eqn:Hlook; [|by apply elem_of_nil in Hc].
    exists i, rolename, config. split; [done|].
    destruct (is_superuser dbcontext rolename).
    + by apply list_elem_of_singleton in Hc.
    + apply list_elem_of_bind in Hc as (kind & Hc & Hkind).
      apply list_elem_of_fmap in Hc as (a & -> & _). by exists kind, a.
  - intros (i & rolename & config & Hlook & Hc). exists i. split.
    + unfold role_combinations. rewrite Hlook.
      destruct (is_superuser dbcontext rolename).
      * subst c. apply list_elem_of_singleton. done.
      * destruct Hc as (kind & a & Hkind & ->). apply list_elem_of_bind.
        exists kind. split; [|done]. apply list_elem_of_fmap. exists a. split; [done|].
        destruct a; set_solver.
    + apply elem_of_seq. apply lookup_lt_Some in Hlook. lia.
Qed.


(** ** The emitted statements close the difference *)





Section apply.
Variable self : PrivilegeAnalyzer.
Variable e : emitter.









End apply.




Lemma combinations_snapshot (spec : Spec) (before after : DatabaseContext) :
  (∀ rolename, is_superuser after rolename = is_superuser before rolename) →
  combinations spec after = combinations spec before.
Proof.
  intros Hsu. unfold combinations. apply list_bind_ext; [|done].
  intros i. unfold role_combinations. destruct (spec !! i) as [[rolename config]|]; [|done].
  by rewrite Hsu.
Qed.

Section outputs.
Context {X : Type}.
Variable skip : string → X.
Variable privconf :
  string → access_level → string → list string →
  gmap string (gset string) → gset string → result (list X).
Variable sw : gmap string (gset string).
Variable ps : gset string.

Lemma run_combination_acc (c : combination) (acc : list X) :
  run_combination skip privconf sw ps c acc
  = match run_combination skip privconf sw ps c [] with
    | Ok o => Ok (acc ++ o)
    | Raise e => Raise e
    end.
Proof. destruct c as [r|r a k items]; simpl; [done|]. by destruct (privconf _ _ _ _ _ _). Qed.

(** A run of the turns that ends well is the concatenation of what each turn
    gives. *)
Lemma run_combinations_inv (cs : list combination) (acc out : list X) :
  for_in cs (run_combination skip privconf sw ps) acc = Ok out →
  ∃ outs, Forall2 (λ c o, run_combination skip privconf sw ps c [] = Ok o) cs outs
          ∧ out = acc ++ mjoin outs.
Proof.
  revert acc. induction cs as [|c cs IH]; intros acc; cbn [for_in].
  { intros [= <-]. exists []. split; [constructor|]. by rewrite app_nil_r. }
  rewrite run_combination_acc.
  destruct (run_combination skip privconf sw ps c []) as [o|] eqn:Hc; [|done].
  intros (outs & Houts & ->)%IH. exists (o :: outs). split; [by constructor|].
  simpl. by rewrite app_assoc.
Qed.


End outputs.


Section reanalysis.
Variable before after : DatabaseContext.


End reanalysis.



(** ** Repeated desired items *)

(** A loop that only adds to a set does so whatever the set holds. *)
Lemma for_in_union {A K : Type} `{Countable K} (l : list A)
    (body : A → gset K → result (gset K)) :
  (∀ x acc, body x acc = match body x ∅ with
                         | Ok c => Ok (c ∪ acc)
                         | Raise e => Raise e
                         end) →
  ∀ acc, for_in l body acc = match for_in l body ∅ with
                             | Ok c => Ok (c ∪ acc)
                             | Raise e => Raise e
                             end.
Proof.
  intros Hbody. induction l as [|x l IH]; intros acc; cbn [for_in].
  { by rewrite union_empty_l_L. }
  rewrite (Hbody x acc). destruct (body x ∅) as [c|]; [|done].
  rewrite (IH (c ∪ acc)), (IH c). destruct (for_in l body ∅); [|done].
  by rewrite (assoc_L (∪)).
Qed.

Lemma for_in_union_ok {A K : Type} `{Countable K} (l : list A)
    (body : A → gset K → result (gset K)) (dd : gset K) :
  (∀ x acc, body x acc = match body x ∅ with
                         | Ok c => Ok (c ∪ acc)
                         | Raise e => Raise e
                         end) →
  for_in l body ∅ = Ok dd →
  (∀ x, x ∈ l → ∃ c, body x ∅ = Ok c)
  ∧ ∀ t, t ∈ dd ↔ ∃ x c, x ∈ l ∧ body x ∅ = Ok c ∧ t ∈ c.
Proof.
  intros Hbody. revert dd. induction l as [|x l IH]; intros dd; cbn [for_in].
  { intros [= <-]. split; [by intros x ?%elem_of_nil|]. intros t. split; [done|].
    by intros (x & c & ?%elem_of_nil & _). }
  destruct (body x ∅) as [c|] eqn:Hx; [|done]. rewrite (for_in_union l body Hbody c).
  destruct (for_in l body ∅) as [c'|] eqn:Hl; [|done]. intros [= <-].
  destruct (IH c' eq_refl) as [Hall Hiff]. split.
  - intros y [->|Hy]%elem_of_cons; [by eexists|by apply Hall].
  - intros t. rewrite elem_of_union, Hiff. split.
    + intros [(y & cy & ? & ? & ?)|?].
      * exists y, cy. split; [by right|done].
      * exists x, c. split; [left|done].
    + intros (y & cy & [->|?]%elem_of_cons & Hy & ?).
      * right. congruence.
      * left. by exists y, cy.
Qed.

Lemma for_in_union_all_ok {A K : Type} `{Countable K} (l : list A)
    (body : A → gset K → result (gset K)) :
  (∀ x acc, body x acc = match body x ∅ with
                         | Ok c => Ok (c ∪ acc)
                         | Raise e => Raise e
                         end) →
  (∀ x, x ∈ l → ∃ c, body x ∅ = Ok c) → ∃ dd, for_in l body ∅ = Ok dd.
Proof.
  intros Hbody. induction l as [|x l IH]; intros Hall; cbn [for_in]; [by eexists|].
  destruct (Hall x) as [c ->]; [left|]. rewrite (for_in_union l body Hbody c).
  destruct IH as [dd ->]; [|by eexists]. intros y Hy. apply Hall. by right.
Qed.

(** Such a loop gives the same set for two lists with the same elements. *)
Lemma for_in_union_equiv {A K : Type} `{Countable K} (l1 l2 : list A)
    (body : A → gset K → result (gset K)) (dd : gset K) :
  (∀ x acc, body x acc = match body x ∅ with
                         | Ok c => Ok (c ∪ acc)
                         | Raise e => Raise e
                         end) →
  (∀ x, x ∈ l1 ↔ x ∈ l2) →
  for_in l1 body ∅ = Ok dd → for_in l2 body ∅ = Ok dd.
Proof.
  intros Hbody Heq H1. destruct (for_in_union_ok l1 body dd Hbody H1) as [Hall1 Hiff1].
  destruct (for_in_union_all_ok l2 body Hbody) as [dd2 H2].
  { intros x Hx. apply Hall1. by apply Heq. }
  destruct (for_in_union_ok l2 body dd2 Hbody H2) as [_ Hiff2].
  rewrite H2. f_equal. apply set_eq. intros t. rewrite Hiff1, Hiff2. split.
  - intros (x & c & ? & ? & ?). exists x, c. split; [by apply Heq|done].
  - intros (x & c & ? & ? & ?). exists x, c. split; [by apply Heq|done].
Qed.

Lemma determine_desired_defaults_equiv (self : PrivilegeAnalyzer)
    (schemas0 schemas1 : list string) (dd : gset (string * string * string)) :
  (∀ schema, schema ∈ schemas0 ↔ schema ∈ schemas1) →
  determine_desired_defaults self schemas0 = Ok dd →
  determine_desired_defaults self schemas1 = Ok dd.
Proof.
  unfold determine_desired_defaults. apply for_in_union_equiv.
  intros schema acc. destruct (getitem (schema_writers self) schema) as [writers|];
    [simpl|done].
  apply for_in_union. clear acc. intros writer acc.
  destruct (bool_decide (writer = rolename self)); [by rewrite union_empty_l_L|].
  destruct (privilege_verbs (object_kind self) (access self)) as [verbs|]; [simpl|done].
  by rewrite union_empty_r_L.
Qed.

Lemma for_in_all_ok {A S : Type} (l : list A) (body : A → S → result S) (s : S) :
  (∀ x s, x ∈ l → ∃ s', body x s = Ok s') → ∃ s', for_in l body s = Ok s'.
Proof.
  revert s. induction l as [|x l IH]; intros s Hall; cbn [for_in]; [by eexists|].
  destruct (Hall x s) as [s1 ->]; [left|]. apply IH. intros y s' Hy. apply Hall. by right.
Qed.

Lemma identify_item_with_items (self : PrivilegeAnalyzer) (items : list string)
    (item : string) (st : gset string * list string) :
  identify_item (with_items self items) item st = identify_item self item st.
Proof. by destruct self. Qed.

(** The desired privileges depend on which items are listed, not on how
    often or in which order. *)
Lemma identify_desired_objects_equiv (self : PrivilegeAnalyzer) (items : list string)
    (d : desired) :
  (∀ item, item ∈ desired_items self ↔ item ∈ items) →
  identify_desired_objects self = Ok d →
  identify_desired_objects (with_items self items) = Ok d.
Proof.
  intros Heq. unfold identify_desired_objects.
  change (desired_items (with_items self items)) with items.
  rewrite (for_in_ext items _ _ _ (identify_item_with_items self items)).
  destruct (for_in (desired_items self) _ _) as [[objs0 schemas0]|] eqn:H0; [simpl|done].
  destruct (for_in_all_ok items (identify_item self) (∅, [])) as [[objs1 schemas1] H1].
  { intros item st Hitem. apply Heq in Hitem.
    destruct (for_in_ok_inv _ _ _ _ item H0 Hitem) as (st1 & st2 & Hok).
    destruct (identify_item self item st) as [st'|e] eqn:Hr; [by eexists|].
    apply identify_item_raise in Hr. apply (identify_item_raise self item st1) in Hr.
    congruence. }
  rewrite H1. simpl.
  apply identify_loop_ok in H0 as [Hobjs0 ->]. apply identify_loop_ok in H1 as [Hobjs1 ->].
  simpl.
  assert (∀ schema, schema ∈ desired_items self ≫= item_schemas self
                    ↔ schema ∈ items ≫= item_schemas self) as Hschemas.
  { intros schema. rewrite !list_elem_of_bind. split.
    - intros (item & ? & ?). exists item. split; [done|by apply Heq].
    - intros (item & ? & ?). exists item. split; [done|by apply Heq]. }
  assert (foldl (λ (objs : gset string) schema, objs ∪ get_schema_objects self schema)
                objs1 (items ≫= item_schemas self)
          = foldl (λ (objs : gset string) schema, objs ∪ get_schema_objects self schema)
                  objs0 (desired_items self ≫= item_schemas self)) as Hobjs.
  { apply set_eq. intros o. rewrite !elem_of_schema_objects_loop, Hobjs0, Hobjs1. split.
    - intros [[?|(item & ? & ?)]|(schema & ? & ?)].
      + by left; left.
      + left; right. exists item. split; [by apply Heq|done].
      + right. exists schema. split; [by apply Hschemas|done].
    - intros [[?|(item & ? & ?)]|(schema & ? & ?)].
      + by left; left.
      + left; right. exists item. split; [by apply Heq|done].
      + right. exists schema. split; [by apply Hschemas|done]. }
  change (privilege_verbs (object_kind (with_items self items))
            (access (with_items self items)))
    with (privilege_verbs (object_kind self) (access self)).
  destruct (privilege_verbs (object_kind self) (access self)) as [verbs|]; [simpl|done].
  change (default_acl_possible (with_items self items)) with (default_acl_possible self).
  change (get_schema_objects (with_items self items)) with (get_schema_objects self).
  rewrite Hobjs. destruct (default_acl_possible self); [|done].
  change (determine_desired_defaults (with_items self items))
    with (determine_desired_defaults self).
  destruct (determine_desired_defaults self (desired_items self ≫= item_schemas self))
    as [dd|] eqn:Hdd; [simpl|done].
  by rewrite (determine_desired_defaults_equiv self _ _ dd Hschemas Hdd).
Qed.


(** ** The specification after a run *)

Lemma for_in_Forall2 {A B S : Type} (R : A → B → Prop) (l1 : list A) (l2 : list B)
    (f1 : A → S → result S) (f2 : B → S → result S) (s : S) :
  Forall2 R l1 l2 → (∀ x1 x2 s, R x1 x2 → f1 x1 s = f2 x2 s) →
  for_in l1 f1 s = for_in l2 f2 s.
Proof.
  intros HR Hf. revert s. induction HR as [|x1 x2 l1 l2 Hx _ IH]; intros s; simpl; [done|].
  rewrite (Hf x1 x2 s Hx). destruct (f2 x2 s); [apply IH|done].
Qed.

Lemma foldl_Forall2 {A B S : Type} (R : A → B → Prop) (l1 : list A) (l2 : list B)
    (f1 : S → A → S) (f2 : S → B → S) (s : S) :
  Forall2 R l1 l2 → (∀ x1 x2 s, R x1 x2 → f1 s x1 = f2 s x2) →
  foldl f1 s l1 = foldl f2 s l2.
Proof.
  intros HR Hf. revert s. induction HR as [|x1 x2 l1 l2 Hx _ IH]; intros s; simpl; [done|].
  rewrite (Hf x1 x2 s Hx). apply IH.
Qed.

Lemma config_evolved_member_of (group : string) (c0 c : option role_config) :
  config_evolved c0 c → lists_as_member_of group c0 = lists_as_member_of group c.
Proof.
  destruct c0 as [a|], c as [b|]; try done. intros (_ & _ & Hm & _). simpl. by rewrite Hm.
Qed.

Lemma config_evolved_flagged (c0 c : option role_config) :
  config_evolved c0 c →
  flagged cfg_is_superuser c0 = flagged cfg_is_superuser c
  ∧ flagged cfg_has_personal_schema c0 = flagged cfg_has_personal_schema c.
Proof.
  destruct c0 as [a|], c as [b|]; try done. intros (Hs & Hp & _). simpl.
  by rewrite Hs, Hp.
Qed.

Lemma config_evolved_schemas_write (c0 c : option role_config) :
  config_evolved c0 c → schemas_write c0 = schemas_write c.
Proof.
  destruct c0 as [a|], c as [b|]; try done. intros (_ & _ & _ & _ & Hp). simpl.
  destruct (cfg_privileges a) as [m0|], (cfg_privileges b) as [m|]; try done.
  specialize (Hp "schemas"). simpl in Hp.
  destruct (m0 !! "schemas") as [d0|], (m !! "schemas") as [d|]; try done.
  by destruct Hp as [-> | ->].
Qed.

Section evolved.
Variable spec0 st : Spec.
Hypothesis Hev : evolved spec0 st.

Lemma get_members_evolved (limit : nat) (group : string) :
  get_members limit group spec0 = get_members limit group st.
Proof using Hev.
  revert group. induction limit as [|limit IH]; intros group; [done|]. simpl.
  apply (for_in_Forall2 _ _ _ _ _ _ Hev). intros [r0 c0] [r c] members [Hr Hc].
  simpl in Hr, Hc. subst r. rewrite (config_evolved_member_of group c0 c Hc).
  destruct (lists_as_member_of group c); [|done]. by rewrite IH.
Qed.

Lemma determine_role_members_evolved (limit : nat) :
  determine_role_members limit spec0 = determine_role_members limit st.
Proof using Hev.
  unfold determine_role_members.
  apply (for_in_Forall2 _ _ _ _ _ _ Hev). intros [r0 c0] [r c] d [Hr _].
  simpl in Hr. subst r. by rewrite get_members_evolved.
Qed.

Lemma determine_personal_schemas_evolved :
  determine_personal_schemas spec0 = determine_personal_schemas st.
Proof using Hev.
  unfold determine_personal_schemas.
  apply (foldl_Forall2 _ _ _ _ _ _ Hev). intros [r0 c0] [r c] acc [Hr Hc].
  simpl in Hr, Hc. subst r. by rewrite (proj2 (config_evolved_flagged c0 c Hc)).
Qed.

Lemma determine_superusers_evolved :
  determine_superusers spec0 = determine_superusers st.
Proof using Hev.
  unfold determine_superusers.
  apply (foldl_Forall2 _ _ _ _ _ _ Hev). intros [r0 c0] [r c] acc [Hr Hc].
  simpl in Hr, Hc. subst r. by rewrite (proj1 (config_evolved_flagged c0 c Hc)).
Qed.

Lemma determine_schema_owners_evolved :
  determine_schema_owners spec0 = determine_schema_owners st.
Proof using Hev.
  unfold determine_schema_owners.
  apply (foldl_Forall2 _ _ _ _ _ _ Hev). intros [r0 c0] [r c] acc [Hr Hc].
  simpl in Hr, Hc. subst r. destruct c0 as [a|], c as [b|]; try done.
  destruct Hc as (_ & Hp & _ & Ho & _). unfold owned_schemas. by rewrite Hp, Ho.
Qed.

Lemma determine_schema_writers_evolved (limit : nat) :
  determine_schema_writers limit spec0 = determine_schema_writers limit st.
Proof using Hev.
  unfold determine_schema_writers.
  rewrite <- determine_role_members_evolved, <- determine_personal_schemas_evolved,
    <- determine_schema_owners_evolved, <- determine_superusers_evolved.
  destruct (determine_role_members limit spec0) as [members_of_role|]; [simpl|done].
  f_equal. apply (for_in_Forall2 _ _ _ _ _ _ Hev). intros [r0 c0] [r c] writers [Hr Hc].
  simpl in Hr, Hc. subst r. unfold writable_schemas.
  by rewrite (config_evolved_schemas_write c0 c Hc).
Qed.



End evolved.


(** * Further properties *)

(** ** Membership resolution on any specification *)

Lemma for_in_ok_impl {A S : Type} (l : list A) (f g : A → S → result S) (s s' : S) :
  (∀ x s s1, x ∈ l → f x s = Ok s1 → g x s = Ok s1) →
  for_in l f s = Ok s' → for_in l g s = Ok s'.
Proof.
  revert s. induction l as [|x l IH]; intros s Hfg; simpl; [done|].
  destruct (f x s) as [s1|] eqn:Hf; [|done].
  rewrite (Hfg x s s1); [|left|done]. apply IH. intros y t t1 Hy. apply Hfg. by right.
Qed.

Lemma tc_first_step {A : Type} (R : relation A) (x z : A) : tc R x z → ∃ y, R x y.
Proof. induction 1 as [x y Hxy | x y z Hxy _ _]; by exists y. Qed.

(** Whenever [get_members] returns, the set holds the direct and the indirect
    members and nothing else. *)
Lemma get_members_ok_iff (limit : nat) (group : string) (spec : Spec)
    (members : gset string) :
  get_members limit group spec = Ok members →
  ∀ r, r ∈ members ↔ tc (direct_member spec) r group.
Proof.
  revert group members.
  induction limit as [|limit IH]; intros group members Hok; [done|].
  rewrite get_members_unfold in Hok.
  destruct (get_members_loop_ok spec limit group spec ∅) as (M & HM & Hiff).
  { intros role config Hin Hl.
    destruct (for_in_ok_inv _ _ _ _ (role, config) Hok Hin) as (s1 & s2 & Hbody).
    unfold get_members_body in Hbody. simpl in Hbody. rewrite Hl in Hbody.
    destruct (get_members limit role spec) as [Msub|] eqn:Hsub; [|done].
    exists Msub. split; [done|]. by apply IH. }
  rewrite Hok in HM. injection HM as <-.
  intros r. rewrite Hiff. split.
  - intros [Hr|(role & config & Hin & Hl & [->|Hr])].
    + by apply not_elem_of_empty in Hr.
    + apply tc_once. by exists config.
    + eapply tc_r; [done|]. by exists config.
  - intros Htc. right. apply tc_last_step in Htc as (role & Hr & config & Hin & Hl).
    exists role, config. do 2 (split; [done|]).
    apply rtc_tc in Hr as [->|?]; auto.
Qed.

(** The lookups of the dictionary that the loop of [determine_role_members]
    builds. *)
Lemma determine_role_members_loop (limit : nat) (spec items : Spec)
    (d members_of_role : gmap string (gset string)) (role : string) :
  for_in items (λ '(role, _) (d : gmap string (gset string)),
    let* members := get_members limit role spec in
    Ok (<[role := members]> d)) d = Ok members_of_role →
  members_of_role !! role
  = if decide (role ∈ items.*1)
    then match get_members limit role spec with
         | Ok members => Some members
         | Raise _ => None
         end
    else d !! role.
Proof.
  revert d. induction items as [|[r c] items IH]; intros d.
  { intros [= <-]. destruct (decide _) as [Hin|]; [|done]. by apply elem_of_nil in Hin. }
  cbn [for_in]. destruct (get_members limit r spec) as [members|] eqn:Hm; [|done].
  cbn [bind]. intros Hloop. rewrite (IH _ Hloop). rewrite fmap_cons. cbn [fst].
  destruct (decide (role ∈ items.*1)) as [Hin|Hin].
  - rewrite decide_True; [done|]. by right.
  - destruct (decide (role = r)) as [->|Hne].
    + rewrite decide_True; [|left]. by rewrite lookup_insert_eq, Hm.
    + rewrite decide_False; [by rewrite lookup_insert_ne|].
      intros [?|?]%elem_of_cons; done.
Qed.

(** X1.  Whenever [get_members] returns, whatever the stack it was given and
    whether or not other parts of the specification hold a membership cycle,
    the set it returns holds exactly the direct and the indirect members of
    the group, and the group is not among them. *)
Theorem get_members_returns_transitive_members (limit : nat) (group : string) (spec : Spec)
    (members : gset string) :
  get_members limit group spec = Ok members →
  (∀ r, r ∈ members ↔ tc (direct_member spec) r group) ∧ group ∉ members.
Proof.
  intros Hok. pose proof (get_members_ok_iff _ _ _ _ Hok) as Hiff.
  split; [done|]. intros Hin%Hiff.
  by rewrite (get_members_on_cycle spec limit group group) in Hok.
Qed.

(** X2.  A deeper stack never changes an answer: what [get_members] returns
    with [limit] frames it returns with any larger number of frames. *)
Theorem get_members_limit_monotone (limit limit' : nat) (group : string) (spec : Spec)
    (members : gset string) :
  get_members limit group spec = Ok members → (limit ≤ limit')%nat →
  get_members limit' group spec = Ok members.
Proof.
  revert limit' group members.
  induction limit as [|limit IH]; intros limit' group members Hok Hle; [done|].
  destruct limit' as [|limit']; [lia|].
  rewrite get_members_unfold in Hok. rewrite get_members_unfold.
  revert Hok. apply for_in_ok_impl. intros [role config] s s1 _.
  unfold get_members_body. simpl. destruct (lists_as_member_of group config); [|done].
  destruct (get_members limit role spec) as [sub_members|] eqn:Hsub; [|done].
  rewrite (IH limit' role sub_members Hsub); [done|lia].
Qed.

(** X3.  A membership cycle anywhere in the specification aborts the whole
    analysis: [get_members] uses up any stack for the roles on the cycle and
    for every group they belong to, and since [determine_role_members] asks
    for the members of every role, [determine_schema_writers] and
    [analyze_privileges] raise [RecursionError] too, before any role is
    analysed and with the specification as it was. *)
Theorem membership_cycle_aborts_analysis (limit : nat) (spec : Spec)
    (dbcontext : DatabaseContext) (c : string) :
  tc (direct_member spec) c c →
  (∀ group, rtc (direct_member spec) c group →
     get_members limit group spec = Raise RecursionError)
  ∧ determine_schema_writers limit spec = Raise RecursionError
  ∧ analyze_privileges limit spec dbcontext = (spec, Raise RecursionError).
Proof.
  intros Hcyc.
  assert (determine_role_members limit spec = Raise RecursionError) as Hrm.
  { pose proof (determine_role_members_inv limit spec) as Hinv.
    destruct (determine_role_members limit spec) as [m|e] eqn:Hm; [|by subst].
    exfalso. destruct (tc_first_step _ _ _ Hcyc) as (y & config & Hin & _).
    unfold determine_role_members in Hm.
    destruct (for_in_ok_inv _ _ _ _ (c, config) Hm Hin) as (s1 & s2 & Hbody).
    simpl in Hbody.
    rewrite (get_members_on_cycle spec limit c c) in Hbody; [done|apply rtc_refl|done]. }
  assert (determine_schema_writers limit spec = Raise RecursionError) as Hsw.
  { unfold determine_schema_writers. by rewrite Hrm. }
  split; [intros; by eapply get_members_on_cycle|]. split; [done|].
  unfold analyze_privileges, analyze_privileges_loop. by rewrite Hsw.
Qed.

(** X4.  The dictionary of [determine_role_members] has one entry for each
    role of the specification and no other: the set that [get_members]
    returns for the role, which holds its direct and indirect members. *)
Theorem determine_role_members_contents (limit : nat) (spec : Spec)
    (members_of_role : gmap string (gset string)) (role : string) :
  determine_role_members limit spec = Ok members_of_role →
  if decide (role ∈ spec.*1)
  then ∃ members, members_of_role !! role = Some members
         ∧ get_members limit role spec = Ok members
         ∧ ∀ r, r ∈ members ↔ tc (direct_member spec) r role
  else members_of_role !! role = None.
Proof.
  intros Hok. pose proof (determine_role_members_inv limit spec) as Hinv.
  rewrite Hok in Hinv. unfold determine_role_members in Hok.
  rewrite (determine_role_members_loop _ _ _ _ _ role Hok).
  destruct (decide (role ∈ spec.*1)) as [Hin|Hin]; [|done].
  apply list_elem_of_fmap in Hin as ([r config] & -> & Hin).
  destruct (Hinv r config Hin) as [members Hm].
  rewrite (determine_role_members_loop _ _ _ _ _ r Hok) in Hm.
  rewrite decide_True in Hm; [|apply list_elem_of_fmap; by exists (r, config)].
  simpl. destruct (get_members limit r spec) as [M|] eqn:HM; [|done].
  exists M. do 2 (split; [done|]). by eapply get_members_ok_iff.
Qed.

(** ** Schema owners *)

Lemma determine_schema_owners_step (spec : Spec) :
  determine_schema_owners spec = foldl schema_owners_step ∅ spec.
Proof.
  unfold determine_schema_owners. generalize (∅ : gmap string string).
  induction spec as [|[role config] spec IH]; intros acc; [done|].
  simpl. rewrite IH. by destruct config.
Qed.

Lemma owned_schemas_loop_lookup (role : string) (schemas : list string)
    (acc : gmap string string) (schema : string) :
  foldl (λ (d : gmap string string) schema, <[schema := role]> d) acc schemas !! schema
  = if decide (schema ∈ schemas) then Some role else acc !! schema.
Proof.
  revert acc. induction schemas as [|s schemas IH]; intros acc.
  { destruct (decide (schema ∈ [])) as [Hin|]; [|done]. by apply elem_of_nil in Hin. }
  cbn [foldl]. rewrite IH. destruct (decide (schema ∈ schemas)) as [Hin|Hin].
  - rewrite decide_True; [done|]. by right.
  - destruct (decide (schema = s)) as [->|Hne].
    + rewrite decide_True; [|left]. by rewrite lookup_insert_eq.
    + rewrite decide_False; [by rewrite lookup_insert_ne|].
      intros [?|?]%elem_of_cons; done.
Qed.

Lemma schema_owners_step_lookup (acc : gmap string string)
    (item : string * option role_config) (schema : string) :
  schema_owners_step acc item !! schema
  = if declares_owner item.1 item.2 schema then Some item.1 else acc !! schema.
Proof.
  destruct item as [role [c|]]; [|done]. unfold schema_owners_step, declares_owner. simpl.
  destruct (parse_bool (default (SBool false) (cfg_has_personal_schema c))).
  - destruct (decide (schema = role)) as [->|Hne].
    + rewrite lookup_insert_eq. by repeat case_bool_decide.
    + rewrite lookup_insert_ne, owned_schemas_loop_lookup by done.
      by repeat case_bool_decide; case_decide.
  - rewrite owned_schemas_loop_lookup.
    by repeat case_bool_decide; case_decide.
Qed.

Lemma schema_owners_loop_lookup (items : Spec) (acc : gmap string string)
    (schema owner : string) :
  foldl schema_owners_step acc items !! schema = Some owner
  ↔ (∃ pre config post, items = pre ++ (owner, config) :: post
       ∧ declares_owner owner config schema = true
       ∧ ∀ r c, (r, c) ∈ post → declares_owner r c schema = false)
    ∨ (acc !! schema = Some owner
       ∧ ∀ r c, (r, c) ∈ items → declares_owner r c schema = false).
Proof.
  clear check_name ensure_quoted_identifier qualified_name PRIVILEGE_MAP.
  revert acc. induction items as [|[role config] items IH]; intros acc.
  { simpl. split.
    - intros Hacc. right. split; [done|]. by intros r c Hin%elem_of_nil.
    - intros [(pre & c & post & Heq & _)|[Hacc _]]; [|done].
      by destruct pre. }
  simpl. rewrite IH, schema_owners_step_lookup. simpl. split.
  - intros [(pre & c & post & -> & Hd & Hpost)|[Hstep Hnone]].
    + left. by exists ((role, config) :: pre), c, post.
    + destruct (declares_owner role config schema) eqn:Hd.
      * injection Hstep as ->. left. by exists [], config, items.
      * right. split; [done|]. intros r c [[= -> ->]|Hin]%elem_of_cons; eauto.
  - intros [(pre & c & post & Heq & Hd & Hpost)|[Hacc Hnone]].
    + destruct pre as [|x pre]; simpl in Heq.
      * simplify_eq. right. by rewrite Hd.
      * simplify_eq. left. by exists pre, c, post.
    + right. rewrite (Hnone role config) by left. split; [done|].
      intros r c Hin. apply Hnone. by right.
Qed.

(** X5.  The owner that [determine_schema_owners] records for a schema is the
    role of the last entry of the specification that declares the schema,
    under [owns.schemas] or as its personal schema: a later declaration
    silently replaces an earlier one, and a schema that no entry declares
    has no owner. *)
Theorem determine_schema_owners_last_declaration (spec : Spec) (schema owner : string) :
  determine_schema_owners spec !! schema = Some owner
  ↔ ∃ pre config post, spec = pre ++ (owner, config) :: post
      ∧ declares_owner owner config schema = true
      ∧ ∀ r c, (r, c) ∈ post → declares_owner r c schema = false.
Proof.
  rewrite determine_schema_owners_step, schema_owners_loop_lookup. split.
  - by intros [?|[? _]].
  - by left.
Qed.

(** ** The writers of a schema *)

Lemma schema_writers_inner_lookup (members_of_role : gmap string (gset string))
    (role : string) (schemas : list string) (writers w : gmap string (gset string))
    (s : string) (vals : gset string) :
  for_in schemas (λ schema (writers : gmap string (gset string)),
    let* ws := getitem writers schema in
    let* role_members := getitem members_of_role role in
    Ok (<[schema := ({[role]} ∪ ws) ∪ role_members]> writers)) writers = Ok w →
  w !! s = Some vals →
  ∃ ws, writers !! s = Some ws
    ∧ ∀ r, r ∈ vals ↔
        r ∈ ws ∨ (s ∈ schemas
                  ∧ (r = role ∨ ∃ rm, members_of_role !! role = Some rm ∧ r ∈ rm)).
Proof.
  clear parse_bool check_name ensure_quoted_identifier qualified_name PRIVILEGE_MAP.
  revert writers. induction schemas as [|schema schemas IH]; intros writers.
  { intros [= <-] Hs. exists vals. split; [done|]. intros r. split; [by left|].
    intros [?|[Hin _]]; [done|]. by apply elem_of_nil in Hin. }
  cbn [for_in]. unfold getitem at 1.
  destruct (writers !! schema) as [ws0|] eqn:Hws; [|done]. cbn [bind].
  unfold getitem at 1. destruct (members_of_role !! role) as [rm|] eqn:Hrm; [|done].
  cbn [bind]. intros Hloop Hw. destruct (IH _ Hloop Hw) as (ws & Hlook & Hiff).
  destruct (decide (s = schema)) as [->|Hne].
  - rewrite lookup_insert_eq in Hlook. injection Hlook as <-.
    exists ws0. split; [done|]. intros r. rewrite Hiff. split.
    + intros [Hr|[Hin Hr]].
      * apply elem_of_union in Hr as [Hr|Hr]; [apply elem_of_union in Hr as [Hr|Hr]|].
        -- apply elem_of_singleton in Hr as ->. right. split; [left|by left].
        -- by left.
        -- right. split; [left|]. right. by exists rm.
      * right. split; [by right|done].
    + intros [Hr|[_ [->|(rm' & [= <-] & Hr)]]].
      * left. apply elem_of_union. left. apply elem_of_union. by right.
      * left. apply elem_of_union. left. apply elem_of_union. left.
        by apply elem_of_singleton.
      * left. apply elem_of_union. by right.
  - rewrite lookup_insert_ne in Hlook by done.
    exists ws. split; [done|]. intros r. rewrite Hiff. split.
    + intros [?|[Hin ?]]; [by left|]. right. split; [by right|done].
    + intros [?|[Hin ?]]; [by left|]. right. split; [|done].
      by apply elem_of_cons in Hin as [?|?].
Qed.

Lemma schema_writers_outer_lookup (members_of_role : gmap string (gset string))
    (personal : gset string) (items : Spec) (writers w : gmap string (gset string))
    (s : string) (vals : gset string) :
  for_in items (λ '(role, config) (writers : gmap string (gset string)),
    for_in (elements (writable_schemas personal config))
      (λ schema (writers : gmap string (gset string)),
         let* ws := getitem writers schema in
         let* role_members := getitem members_of_role role in
         Ok (<[schema := ({[role]} ∪ ws) ∪ role_members]> writers)) writers)
    writers = Ok w →
  w !! s = Some vals →
  ∃ ws, writers !! s = Some ws
    ∧ ∀ r, r ∈ vals ↔
        r ∈ ws ∨ ∃ role config, (role, config) ∈ items
                   ∧ s ∈ writable_schemas personal config
                   ∧ (r = role ∨ ∃ rm, members_of_role !! role = Some rm ∧ r ∈ rm).
Proof.
  clear check_name ensure_quoted_identifier qualified_name PRIVILEGE_MAP.
  revert writers. induction items as [|[role config] items IH]; intros writers.
  { intros [= <-] Hs. exists vals. split; [done|]. intros r. split; [by left|].
    intros [?|(? & ? & Hin & _)]; [done|]. by apply elem_of_nil in Hin. }
  cbn [for_in].
  destruct (for_in (elements (writable_schemas personal config)) _ writers)
    as [w1|] eqn:Hinner; [|done].
  intros Hloop Hw. destruct (IH _ Hloop Hw) as (ws1 & Hlook1 & Hiff1).
  destruct (schema_writers_inner_lookup _ _ _ _ _ _ _ Hinner Hlook1) as (ws & Hlook & Hiff).
  exists ws. split; [done|]. intros r. rewrite Hiff1, Hiff, elem_of_elements. split.
  - intros [[?|[Hs Hr]]|(role' & config' & Hin & Hs & Hr)].
    + by left.
    + right. exists role, config. split; [left|done].
    + right. exists role', config'. split; [by right|done].
  - intros [?|(role' & config' & Hin & Hs & Hr)]; [by left; left|].
    apply elem_of_cons in Hin as [[= -> ->]|Hin].
    + left. by right.
    + right. by exists role', config'.
Qed.

(** X6.  The writers that [determine_schema_writers] returns: its dictionary
    has an entry for each schema that has an owner and for no other, and the
    writers of a schema are its owner, the superusers of the specification,
    every role whose [privileges.schemas.write] list holds the schema (with
    ['personal_schemas'] standing for every personal schema), and the direct
    and indirect members of such a role.  Nobody else may write. *)
Theorem determine_schema_writers_contents (limit : nat) (spec : Spec)
    (writers : gmap string (gset string)) :
  determine_schema_writers limit spec = Ok writers →
  dom writers = dom (determine_schema_owners spec)
  ∧ ∀ schema vals, writers !! schema = Some vals →
      ∀ r, r ∈ vals ↔
        determine_schema_owners spec !! schema = Some r
        ∨ r ∈ determine_superusers spec
        ∨ ∃ role config, (role, config) ∈ spec
            ∧ schema ∈ writable_schemas (determine_personal_schemas spec) config
            ∧ (r = role ∨ tc (direct_member spec) r role).
Proof.
  unfold determine_schema_writers.
  pose proof (determine_role_members_inv limit spec) as Hmem.
  destruct (determine_role_members limit spec) as [members_of_role|] eqn:Hrm; [|done].
  cbn [bind].
  pose proof (schema_writers_outer_loop members_of_role (determine_personal_schemas spec)
                spec ((λ owner : string, ({[owner]} : gset string))
                        <$> determine_schema_owners spec) Hmem) as Hdom.
  destruct (for_in spec _ _) as [w|] eqn:Hloop; [|done]. cbn [bind].
  intros [= <-]. split.
  { destruct Hdom as [Hdom _]. by rewrite dom_fmap_L, Hdom, dom_fmap_L. }
  intros schema vals Hvals r.
  rewrite lookup_fmap in Hvals. apply fmap_Some in Hvals as (v0 & Hv0 & ->).
  destruct (schema_writers_outer_lookup _ _ _ _ _ _ _ Hloop Hv0) as (ws & Hws & Hiff).
  rewrite lookup_fmap in Hws. apply fmap_Some in Hws as (owner & Howner & ->).
  assert (∀ role config, (role, config) ∈ spec →
            (∃ rm, members_of_role !! role = Some rm ∧ r ∈ rm)
            ↔ tc (direct_member spec) r role) as Htc.
  { intros role config Hin. unfold determine_role_members in Hrm.
    pose proof (determine_role_members_loop _ _ _ _ _ role Hrm) as Hlook.
    rewrite decide_True in Hlook; [|apply list_elem_of_fmap; by exists (role, config)].
    destruct (Hmem role config Hin) as [rm Hsome]. rewrite Hsome in Hlook.
    destruct (get_members limit role spec) as [M|] eqn:HM; [|done].
    injection Hlook as ->. rewrite <- (get_members_ok_iff _ _ _ _ HM r). split.
    - intros (rm' & Hrm' & ?). rewrite Hsome in Hrm'. by injection Hrm' as <-.
    - intros ?. by exists M. }
  rewrite elem_of_union, Hiff, elem_of_singleton, Howner. split.
  - intros [[->|(role & config & Hin & Hs & Hr)]|Hsu].
    + by left.
    + right. right. exists role, config. do 2 (split; [done|]).
      destruct Hr as [->|Hr]; [by left|]. right. by eapply Htc.
    + right. by left.
  - intros [[= ->]|[Hsu|(role & config & Hin & Hs & Hr)]].
    + left. by left.
    + by right.
    + left. right. exists role, config. do 2 (split; [done|]).
      destruct Hr as [->|Hr]; [by left|]. right. by eapply Htc.
Qed.

(** ** What the analyzer asks for *)

Lemma elem_of_get_schema_objects (self : PrivilegeAnalyzer) (schema o : string) :
  o ∈ get_schema_objects self schema
  ↔ ∃ dbo attr, object_owners self (object_kind self) schema !! dbo = Some attr
      ∧ owner attr ≠ rolename self ∧ o = qualified_name dbo.
Proof.
  clear parse_bool check_name ensure_quoted_identifier PRIVILEGE_MAP.
  unfold get_schema_objects. rewrite elem_of_list_to_set, list_elem_of_fmap. split.
  - intros (dbo & -> & Hin). apply list_elem_of_fmap in Hin as ([dbo' attr] & -> & Hin).
    apply list_elem_of_filter in Hin as [Hne Hin]. apply elem_of_map_to_list in Hin.
    by exists dbo', attr.
  - intros (dbo & attr & Hl & Hne & ->). exists dbo. split; [done|].
    apply list_elem_of_fmap. exists (dbo, attr). split; [done|].
    apply list_elem_of_filter. split; [done|]. by apply elem_of_map_to_list.
Qed.

(** The steps of [identify_desired_objects] when it returns. *)
Lemma identify_desired_objects_ok_inv (self : PrivilegeAnalyzer) (d : desired) :
  identify_desired_objects self = Ok d →
  ∃ objs verbs,
    for_in (desired_items self) (identify_item self) (∅, [])
    = Ok (objs, desired_items self ≫= item_schemas self)
    ∧ (∀ o, o ∈ objs ↔ ∃ item, item ∈ desired_items self ∧ item_objects self item o)
    ∧ privilege_verbs (object_kind self) (access self) = Ok verbs
    ∧ desired_nondefaults d
      = product (foldl (λ (objs : gset string) schema,
                          objs ∪ get_schema_objects self schema)
                   objs (desired_items self ≫= item_schemas self)) verbs
    ∧ if default_acl_possible self
      then ∃ dd, determine_desired_defaults self (desired_items self ≫= item_schemas self)
                 = Ok dd
             ∧ desired_defaults d = Some dd
      else desired_defaults d = None.
Proof.
  clear parse_bool check_name.
  unfold identify_desired_objects.
  destruct (for_in (desired_items self) _ _) as [[objs schemas]|] eqn:Hloop; [|done].
  cbn [bind].
  destruct (identify_loop_ok _ _ _ _ _ _ Hloop) as [Hobjs Hschemas].
  simpl in Hschemas. subst schemas.
  destruct (privilege_verbs _ _) as [verbs|] eqn:Hv; [|done]. cbn [bind].
  intros Hd. exists objs, verbs. split; [done|]. split.
  { intros o. rewrite Hobjs. split; [|by right].
    intros [Ho|?]; [|done]. by apply not_elem_of_empty in Ho. }
  split; [done|]. destruct (default_acl_possible self).
  - destruct (determine_desired_defaults self _) as [dd|] eqn:Hdd; [|done].
    injection Hd as <-. split; [done|]. by exists dd.
  - by injection Hd as <-.
Qed.

Lemma elem_of_determine_desired_defaults (self : PrivilegeAnalyzer) (schemas : list string)
    (dd : gset (string * string * string)) (verbs : list string)
    (grantor schema privilege : string) :
  determine_desired_defaults self schemas = Ok dd →
  privilege_verbs (object_kind self) (access self) = Ok verbs →
  (grantor, schema, privilege) ∈ dd
  ↔ schema ∈ schemas ∧ privilege ∈ verbs ∧ grantor ≠ rolename self
    ∧ ∃ writers, schema_writers self !! schema = Some writers ∧ grantor ∈ writers.
Proof.
  clear parse_bool check_name ensure_quoted_identifier qualified_name.
  unfold determine_desired_defaults. intros Hdd Hv. rewrite Hv in Hdd.
  assert (∀ (s : string) (writer : string) (acc : gset (string * string * string)),
            (if bool_decide (writer = rolename self) then Ok acc
             else let* verbs := Ok verbs in
                  Ok (list_to_set ((λ pg_priv_kind, (writer, s, pg_priv_kind)) <$> verbs)
                        ∪ acc))
            = match (if bool_decide (writer = rolename self) then Ok ∅
                     else let* verbs := Ok verbs in
                          Ok (list_to_set
                                ((λ pg_priv_kind, (writer, s, pg_priv_kind)) <$> verbs)
                                ∪ ∅)) with
              | Ok c => Ok (c ∪ acc)
              | Raise e => Raise e
              end) as Hinner.
  { intros s writer acc. destruct (bool_decide _); simpl; [by rewrite union_empty_l_L|].
    by rewrite union_empty_r_L. }
  apply for_in_union_ok in Hdd as [_ Hiff].
  2:{ intros s acc. destruct (getitem (schema_writers self) s) as [writers|];
        [simpl|done].
      apply for_in_union. intros writer acc'. apply Hinner. }
  rewrite Hiff. split.
  - intros (s & c & Hs & Hc & Hin). unfold getitem in Hc.
    destruct (schema_writers self !! s) as [writers|] eqn:Hw; [|done]. simpl in Hc.
    apply for_in_union_ok in Hc as [_ Hiffc]; [|intros writer acc'; apply Hinner].
    apply Hiffc in Hin as (writer & cw & Hwriter & Hcw & Hin).
    destruct (bool_decide (writer = rolename self)) eqn:Hself.
    { injection Hcw as <-. by apply not_elem_of_empty in Hin. }
    apply bool_decide_eq_false in Hself. simpl in Hcw. injection Hcw as <-.
    apply elem_of_union in Hin as [Hin|Hin]; [|by apply not_elem_of_empty in Hin].
    apply elem_of_list_to_set, list_elem_of_fmap in Hin as (p & [= -> -> ->] & Hp).
    do 3 (split; [done|]). exists writers. split; [done|]. by apply elem_of_elements.
  - intros (Hs & Hp & Hne & writers & Hw & Hg).
    destruct (for_in_union_all_ok (elements writers)
                (λ writer (desired_defaults : gset (string * string * string)),
                   if bool_decide (writer = rolename self) then Ok desired_defaults
                   else let* verbs := Ok verbs in
                        Ok (list_to_set
                              ((λ pg_priv_kind, (writer, schema, pg_priv_kind)) <$> verbs)
                              ∪ desired_defaults))) as [c Hc].
    { intros writer acc'. apply Hinner. }
    { intros writer _. destruct (bool_decide _); by eexists. }
    exists schema, c. split; [done|]. unfold getitem. rewrite Hw. split; [done|].
    apply for_in_union_ok in Hc as [_ Hiffc]; [|intros writer acc'; apply Hinner].
    apply Hiffc. exists grantor. eexists. split; [by apply elem_of_elements|].
    rewrite bool_decide_eq_false_2 by done. simpl. split; [done|].
    apply elem_of_union. left. apply elem_of_list_to_set, list_elem_of_fmap. by exists privilege.
Qed.

(** X7.  The objects [identify_desired_objects] asks privileges on: every
    privilege verb of the access level, on every personal schema when the
    keyword is given for schemas, on every object an item names unless the
    role owns it, and, for a wildcard item, on every object that the snapshot
    holds in the schema and that the role does not own; nothing else. *)
Theorem identify_desired_objects_nondefaults (self : PrivilegeAnalyzer) (d : desired) :
  identify_desired_objects self = Ok d →
  ∃ verbs, privilege_verbs (object_kind self) (access self) = Ok verbs
    ∧ ∀ o p, (o, p) ∈ desired_nondefaults d ↔
        p ∈ verbs
        ∧ ∃ item, item ∈ desired_items self
            ∧ (item_objects self item o
               ∨ ∃ schema dbo attr, schema ∈ item_schemas self item
                   ∧ object_owners self (object_kind self) schema !! dbo = Some attr
                   ∧ owner attr ≠ rolename self
                   ∧ o = qualified_name dbo).
Proof.
  clear parse_bool check_name.
  intros (objs & verbs & _ & Hobjs & Hv & -> & _)%identify_desired_objects_ok_inv.
  exists verbs. split; [done|]. intros o p.
  rewrite elem_of_product, elem_of_schema_objects_loop, Hobjs. split.
  - intros [[(item & Hin & Ho)|(schema & Hs & Ho)] Hp]; (split; [done|]).
    + exists item. split; [done|by left].
    + apply list_elem_of_bind in Hs as (item & Hs & Hin).
      apply elem_of_get_schema_objects in Ho as (dbo & attr & ? & ? & ?).
      exists item. split; [done|]. right. by exists schema, dbo, attr.
  - intros [Hp (item & Hin & [Ho|(schema & dbo & attr & Hs & Hl & Hne & Ho)])];
      (split; [|done]).
    + left. by exists item.
    + right. exists schema. split.
      * apply list_elem_of_bind. by exists item.
      * apply elem_of_get_schema_objects. by exists dbo, attr.
Qed.

(** X8.  The default privileges [identify_desired_objects] asks for, for an
    object kind that has default privileges: for every schema that a wildcard
    item names, every privilege verb of the access level, granted by every
    role that may write to the schema except the role itself. *)
Theorem identify_desired_objects_defaults (self : PrivilegeAnalyzer) (d : desired) :
  identify_desired_objects self = Ok d →
  if default_acl_possible self
  then ∃ dd verbs, desired_defaults d = Some dd
         ∧ privilege_verbs (object_kind self) (access self) = Ok verbs
         ∧ ∀ grantor schema p, (grantor, schema, p) ∈ dd ↔
             p ∈ verbs ∧ grantor ≠ rolename self
             ∧ (∃ item, item ∈ desired_items self ∧ schema ∈ item_schemas self item)
             ∧ ∃ writers, schema_writers self !! schema = Some writers ∧ grantor ∈ writers
  else desired_defaults d = None.
Proof.
  clear parse_bool check_name.
  intros (objs & verbs & _ & _ & Hv & _ & Hdd)%identify_desired_objects_ok_inv.
  destruct (default_acl_possible self); [|done].
  destruct Hdd as (dd & Hdd & ->). exists dd, verbs. do 2 (split; [done|]).
  intros grantor schema p.
  rewrite (elem_of_determine_desired_defaults _ _ _ _ _ _ _ Hdd Hv), list_elem_of_bind.
  split.
  - intros ((item & ? & ?) & ? & ? & ?). do 2 (split; [done|]). split; [|done].
    by exists item.
  - intros (? & ? & (item & ? & ?) & ?). split; [by exists item|done].
Qed.

(** ** A wildcard on a schema that nobody may write to *)

Lemma determine_desired_defaults_missing (self : PrivilegeAnalyzer) (schemas : list string)
    (schema : string) (verbs : list string) :
  privilege_verbs (object_kind self) (access self) = Ok verbs →
  schema ∈ schemas → schema_writers self !! schema = None →
  ∃ s, determine_desired_defaults self schemas = Raise (KeyError s)
       ∧ s ∈ schemas ∧ schema_writers self !! s = None.
Proof.
  clear parse_bool check_name ensure_quoted_identifier qualified_name.
  intros Hv Hin Hnone. unfold determine_desired_defaults.
  destruct (for_in schemas _ _) as [dd|e] eqn:Hdd.
  - destruct (for_in_ok_inv _ _ _ _ schema Hdd Hin) as (s1 & s2 & Hbody).
    unfold getitem in Hbody. by rewrite Hnone in Hbody.
  - apply for_in_raise_inv in Hdd as (pre & s & post & dd & -> & _ & Hbody).
    unfold getitem in Hbody.
    destruct (schema_writers self !! s) as [writers|] eqn:Hw; simpl in Hbody.
    + apply for_in_raise_inv in Hbody as (pre' & writer & post' & dd' & _ & _ & Hbody).
      rewrite Hv in Hbody. by destruct (bool_decide _).
    + injection Hbody as <-. exists s. split; [done|]. split; [|done].
      apply elem_of_app. right. left.
Qed.

(** X9.  For an object kind that has default privileges, a wildcard item on
    a schema that has no entry among the schema writers (a schema that no
    role of the specification owns) makes the analysis raise [KeyError] for
    such a schema instead of returning statements, when nothing else goes
    wrong before: no keyword for another object kind and no unknown
    object. *)
Theorem analyze_wildcard_unowned_schema (self : PrivilegeAnalyzer) (item schema : string)
    (verbs : list string) :
  default_acl_possible self = true →
  privilege_verbs (object_kind self) (access self) = Ok verbs →
  (∀ item, item ∈ desired_items self →
     (item = "personal_schemas" → object_kind self = "schemas")
     ∧ (names_single_object item = true → owner_known self item)) →
  item ∈ desired_items self → schema ∈ item_schemas self item →
  schema_writers self !! schema = None →
  ∃ s, analyze self = Raise (KeyError s)
       ∧ schema_writers self !! s = None
       ∧ ∃ item', item' ∈ desired_items self ∧ s ∈ item_schemas self item'.
Proof.
  clear parse_bool check_name.
  intros Hacl Hv Hitems Hin Hs Hnone.
  destruct (for_in_all_ok (desired_items self) (identify_item self) (∅, []))
    as [[objs schemas] Hloop].
  { intros item' st Hin'. destruct (identify_item self item' st) as [st'|e] eqn:Hr;
      [by eexists|].
    apply identify_item_raise in Hr as [(-> & Hne & _)|(Hsingle & Hraise)].
    - destruct (Hitems _ Hin') as [Hk _]. by destruct Hne; apply Hk.
    - destruct (Hitems _ Hin') as [_ Hknown]. destruct (Hknown Hsingle) as [o Ho].
      congruence. }
  destruct (identify_loop_ok _ _ _ _ _ _ Hloop) as [_ Hschemas]. simpl in Hschemas.
  subst schemas.
  destruct (determine_desired_defaults_missing self
              (desired_items self ≫= item_schemas self) schema verbs Hv)
    as (s & Hraise & Hs' & Hnone'); [|done|].
  { apply list_elem_of_bind. by exists item. }
  exists s. unfold analyze, identify_desired_objects.
  rewrite Hloop. cbn [bind]. rewrite Hv. cbn [bind]. rewrite Hacl, Hraise.
  split; [done|]. split; [done|].
  apply list_elem_of_bind in Hs' as (item' & ? & ?). by exists item'.
Qed.

(** ** What the analyzer emits *)

Lemma elem_of_sorted2 (s : gset (string * string)) (key : string * string) :
  key ∈ sorted2 s ↔ key ∈ s.
Proof. unfold sorted2. rewrite merge_sort_Permutation. apply elem_of_elements. Qed.

Lemma elem_of_sorted3 (s : gset (string * string * string))
    (key : string * string * string) :
  key ∈ sorted3 s ↔ key ∈ s.
Proof. unfold sorted3. rewrite merge_sort_Permutation. apply elem_of_elements. Qed.

(** The statements of [analyze], one by one. *)
Lemma elem_of_analyze (self : PrivilegeAnalyzer) (sql : list stmt) :
  analyze self = Ok sql →
  ∃ d, identify_desired_objects self = Ok d
    ∧ ∀ q, q ∈ sql ↔
        (∃ key, key ∈ desired_nondefaults d ∧ key ∉ current_nondefaults self
           ∧ q = grant_nondefault self key)
        ∨ (∃ key, key ∈ current_nondefaults self ∧ key ∉ desired_nondefaults d
             ∧ q = revoke_nondefault self key)
        ∨ (default_acl_possible self = true
           ∧ ∃ dd, desired_defaults d = Some dd
               ∧ ((∃ key, key ∈ dd ∧ key ∉ current_defaults self
                     ∧ q = grant_default self key)
                  ∨ (∃ key, key ∈ current_defaults self ∧ key ∉ dd
                       ∧ q = revoke_default self key))).
Proof.
  clear parse_bool check_name.
  unfold analyze. destruct (identify_desired_objects self) as [d|] eqn:Hd; [|done].
  cbn [bind]. intros Hsql. exists d. split; [done|].
  assert (∀ q, q ∈ analyze_nondefaults self (desired_nondefaults d) ↔
            (∃ key, key ∈ desired_nondefaults d ∧ key ∉ current_nondefaults self
               ∧ q = grant_nondefault self key)
            ∨ (∃ key, key ∈ current_nondefaults self ∧ key ∉ desired_nondefaults d
                 ∧ q = revoke_nondefault self key)) as Hnd.
  { intros q. unfold analyze_nondefaults. rewrite elem_of_app, !list_elem_of_fmap.
    setoid_rewrite elem_of_sorted2. setoid_rewrite elem_of_difference.
    split; (intros [(key & ? & ?)|(key & ? & ?)]; [left|right]; exists key; tauto). }
  assert (∀ dd q, q ∈ analyze_defaults self dd ↔
            (∃ key, key ∈ dd ∧ key ∉ current_defaults self ∧ q = grant_default self key)
            ∨ (∃ key, key ∈ current_defaults self ∧ key ∉ dd
                 ∧ q = revoke_default self key)) as Hdf.
  { intros dd q. unfold analyze_defaults. rewrite elem_of_app, !list_elem_of_fmap.
    setoid_rewrite elem_of_sorted3. setoid_rewrite elem_of_difference.
    split; (intros [(key & ? & ?)|(key & ? & ?)]; [left|right]; exists key; tauto). }
  apply identify_desired_objects_ok_inv in Hd as (_ & _ & _ & _ & _ & _ & Hdd).
  destruct (default_acl_possible self).
  - destruct Hdd as (dd & _ & Hdd). rewrite Hdd in Hsql. injection Hsql as <-.
    intros q. rewrite elem_of_app, Hnd, Hdf. split.
    + intros [[?|?]|?]; [by left|by right; left|]. right. right. split; [done|].
      by exists dd.
    + intros [?|[?|[_ (dd' & Hdd' & ?)]]]; [by left; left|by left; right|].
      rewrite Hdd in Hdd'. injection Hdd' as <-. by right.
  - injection Hsql as <-. intros q. rewrite Hnd. split.
    + intros [?|?]; [by left|by right; left].
    + intros [?|[?|[? _]]]; [by left|by right|done].
Qed.

(** X10.  [analyze] has nothing to emit exactly when the snapshot already
    holds what the specification asks for: the desired privileges are the
    current ones, and so are the desired default privileges when the object
    kind has any. *)
Theorem analyze_nothing_to_emit (self : PrivilegeAnalyzer) :
  analyze self = Ok []
  ↔ ∃ d, identify_desired_objects self = Ok d
      ∧ desired_nondefaults d = current_nondefaults self
      ∧ (default_acl_possible self = true →
         desired_defaults d = Some (current_defaults self)).
Proof.
  clear parse_bool check_name.
  split.
  - intros (d & Hd & Hiff)%elem_of_analyze. exists d. split; [done|].
    assert (∀ q, q ∉ ([] : list stmt)) as Hnil by (intros q; apply not_elem_of_nil).
    split.
    + apply set_eq. intros key. split; intros Hkey.
      * destruct (decide (key ∈ current_nondefaults self)) as [|Hno]; [done|].
        exfalso. apply (Hnil (grant_nondefault self key)), Hiff. left. by exists key.
      * destruct (decide (key ∈ desired_nondefaults d)) as [|Hno]; [done|].
        exfalso. apply (Hnil (revoke_nondefault self key)), Hiff. right. left.
        by exists key.
    + intros Hacl.
      apply identify_desired_objects_ok_inv in Hd as (_ & _ & _ & _ & _ & _ & Hdd).
      rewrite Hacl in Hdd. destruct Hdd as (dd & _ & Hdd). rewrite Hdd. f_equal.
      apply set_eq. intros key. split; intros Hkey.
      * destruct (decide (key ∈ current_defaults self)) as [|Hno]; [done|].
        exfalso. apply (Hnil (grant_default self key)), Hiff. right. right.
        split; [done|]. exists dd. split; [done|]. left. by exists key.
      * destruct (decide (key ∈ dd)) as [|Hno]; [done|].
        exfalso. apply (Hnil (revoke_default self key)), Hiff. right. right.
        split; [done|]. exists dd. split; [done|]. right. by exists key.
  - intros (d & Hd & Hnd & Hdd). unfold analyze. rewrite Hd. cbn [bind].
    unfold analyze_nondefaults. rewrite Hnd, difference_diag_L.
    unfold sorted2. rewrite elements_empty.
    destruct (default_acl_possible self); [|done].
    rewrite Hdd by done. unfold analyze_defaults. simpl.
    rewrite difference_diag_L. unfold sorted3. by rewrite elements_empty.
Qed.

(** X11.  Every statement of [analyze] is about the role and the object kind
    of the analyzer and is no note about a superuser.  A grant is for a
    privilege verb of the access level that the role does not hold yet, a
    revoke is for a privilege the role holds, so that no privilege is granted
    and revoked by the same analysis.  Default privileges are touched only
    for an object kind that has them, and never granted with the role itself
    as grantor. *)
Theorem analyze_statements_target (self : PrivilegeAnalyzer) (sql : list stmt) (q : stmt) :
  analyze self = Ok sql → q ∈ sql →
  ∃ verbs, privilege_verbs (object_kind self) (access self) = Ok verbs
    ∧ match q with
      | SkipSuperuser _ => False
      | GrantNondefault privilege k objname r =>
          k = object_kind self ∧ r = rolename self ∧ privilege ∈ verbs
          ∧ (objname, privilege) ∉ current_nondefaults self
      | RevokeNondefault privilege k objname r =>
          k = object_kind self ∧ r = rolename self
          ∧ (objname, privilege) ∈ current_nondefaults self
      | GrantDefault grantor schema privilege k r =>
          k = object_kind self ∧ r = rolename self ∧ privilege ∈ verbs
          ∧ default_acl_possible self = true ∧ grantor ≠ rolename self
          ∧ (grantor, schema, privilege) ∉ current_defaults self
      | RevokeDefault grantor schema privilege k r =>
          k = object_kind self ∧ r = rolename self
          ∧ default_acl_possible self = true
          ∧ (grantor, schema, privilege) ∈ current_defaults self
      end.
Proof.
  clear parse_bool check_name.
  intros (d & Hd & Hiff)%elem_of_analyze Hq. apply Hiff in Hq.
  apply identify_desired_objects_ok_inv in Hd as (objs & verbs & _ & _ & Hv & Hnd & Hdf).
  exists verbs. split; [done|].
  destruct Hq as [([o p] & Hkey & Hno & ->)|[([o p] & Hkey & Hno & ->)
                  |(Hacl & dd & Hdd & [([[g s] p] & Hkey & Hno & ->)
                                       |([[g s] p] & Hkey & Hno & ->)])]]; simpl.
  - rewrite Hnd in Hkey. by apply elem_of_product in Hkey as [_ ?].
  - done.
  - rewrite Hacl in Hdf. destruct Hdf as (dd' & Hdd' & Hsome).
    rewrite Hdd in Hsome. injection Hsome as <-.
    apply (elem_of_determine_desired_defaults _ _ _ _ _ _ _ Hdd' Hv) in Hkey
      as (_ & ? & ? & _).
    done.
  - done.
Qed.

(** ** Order and repetition *)

Lemma analyze_with_items (self : PrivilegeAnalyzer) (items : list string)
    (sql : list stmt) :
  (∀ item, item ∈ desired_items self ↔ item ∈ items) →
  analyze self = Ok sql → analyze (with_items self items) = Ok sql.
Proof.
  clear parse_bool check_name.
  intros Hitems. unfold analyze.
  destruct (identify_desired_objects self) as [d|] eqn:Hd; [|done].
  by rewrite (identify_desired_objects_equiv self items d Hitems Hd).
Qed.

Lemma NoDup_sorted2 (s : gset (string * string)) : NoDup (sorted2 s).
Proof. unfold sorted2. rewrite merge_sort_Permutation. apply NoDup_elements. Qed.

Lemma NoDup_sorted3 (s : gset (string * string * string)) : NoDup (sorted3 s).
Proof. unfold sorted3. rewrite merge_sort_Permutation. apply NoDup_elements. Qed.

(** X12.  The statements of [analyze] depend on which items are desired, not
    on the order of the list nor on an item being listed more than once: two
    analyzers that differ only in such a way return the same statements. *)
Theorem analyze_items_as_set (self : PrivilegeAnalyzer) (items : list string)
    (sql : list stmt) :
  (∀ item, item ∈ desired_items self ↔ item ∈ items) →
  analyze self = Ok sql ↔ analyze (with_items self items) = Ok sql.
Proof.
  clear parse_bool check_name.
  intros Hitems. split; [by apply analyze_with_items|].
  intros Hsql.
  apply (analyze_with_items (with_items self items) (desired_items self)) in Hsql.
  - by destruct self.
  - intros item. symmetry. apply Hitems.
Qed.

(** X13.  [analyze] returns no statement twice. *)
Theorem analyze_no_duplicate_statement (self : PrivilegeAnalyzer) (sql : list stmt) :
  analyze self = Ok sql → NoDup sql.
Proof.
  clear parse_bool check_name.
  unfold analyze. destruct (identify_desired_objects self) as [d|]; [|done]. cbn [bind].
  assert (∀ s, NoDup (analyze_nondefaults self s)) as Hnd.
  { intros s. unfold analyze_nondefaults. apply NoDup_app. split; [|split].
    - apply NoDup_fmap_2; [|apply NoDup_sorted2].
      intros [o p] [o' p'] [= -> ->]. done.
    - intros q (k & -> & _)%list_elem_of_fmap (k' & [=] & _)%list_elem_of_fmap.
    - apply NoDup_fmap_2; [|apply NoDup_sorted2].
      intros [o p] [o' p'] [= -> ->]. done. }
  assert (∀ s, NoDup (analyze_defaults self s)) as Hdf.
  { intros s. unfold analyze_defaults. apply NoDup_app. split; [|split].
    - apply NoDup_fmap_2; [|apply NoDup_sorted3].
      intros [[g sc] p] [[g' sc'] p'] [= -> -> ->]. done.
    - intros q (k & -> & _)%list_elem_of_fmap (k' & [=] & _)%list_elem_of_fmap.
    - apply NoDup_fmap_2; [|apply NoDup_sorted3].
      intros [[g sc] p] [[g' sc'] p'] [= -> -> ->]. done. }
  destruct (default_acl_possible self); intros [= <-]; [|done].
  apply NoDup_app. split; [done|]. split; [|done].
  intros q Hq Hq'. unfold analyze_nondefaults in Hq. unfold analyze_defaults in Hq'.
  apply elem_of_app in Hq as [(k & -> & _)%list_elem_of_fmap|(k & -> & _)%list_elem_of_fmap];
    apply elem_of_app in Hq'
      as [(k' & [=] & _)%list_elem_of_fmap|(k' & [=] & _)%list_elem_of_fmap].
Qed.

(** ** The run as a whole *)



Lemma evolved_names (spec0 st : Spec) : evolved spec0 st → st.*1 = spec0.*1.
Proof.
  clear parse_bool check_name ensure_quoted_identifier qualified_name PRIVILEGE_MAP.
  induction 1 as [|x0 x l0 l [Hn _] _ IH]; [done|].
  rewrite !fmap_cons. by f_equal.
Qed.

(** On value lists, a run of [analyze_privileges] is the run of its turns,
    one after the other, with the desired items read off the specification
    as it was handed in. *)
Lemma analyze_privileges_by_turns (limit : nat) (spec : Spec)
    (dbcontext : DatabaseContext) :
  NoDup PRIVILEGE_MAP_keys →
  match (analyze_privileges limit spec dbcontext).2 with
  | Ok sql =>
      ∃ schema_writers outs,
        determine_schema_writers limit spec = Ok schema_writers
        ∧ Forall2 (λ c o, run_combination SkipSuperuser (plain_privconf dbcontext)
                            schema_writers (determine_personal_schemas spec) c [] = Ok o)
            (combinations spec dbcontext) outs
        ∧ sql = mjoin outs
  | Raise e =>
      determine_schema_writers limit spec = Raise e
      ∨ ∃ schema_writers finished c rest,
          determine_schema_writers limit spec = Ok schema_writers
          ∧ combinations spec dbcontext = finished ++ c :: rest
          ∧ (∀ c', c' ∈ finished →
               ∃ o, run_combination SkipSuperuser (plain_privconf dbcontext)
                      schema_writers (determine_personal_schemas spec) c' [] = Ok o)
          ∧ run_combination SkipSuperuser (plain_privconf dbcontext)
              schema_writers (determine_personal_schemas spec) c [] = Raise e
  end.
Proof.
  intros Hkinds. unfold analyze_privileges.
  rewrite analyze_privileges_loop_combinations by done.
  destruct (determine_schema_writers limit spec) as [sw|e]; [|by left]. cbn [bind].
  destruct (for_in (combinations spec dbcontext) _ []) as [sql|e] eqn:Hrun.
  - apply (run_combinations_inv _ (plain_privconf dbcontext)) in Hrun as (outs & Houts & ->).
    by exists sw, outs.
  - right. apply for_in_raise_inv in Hrun as (pre & c & post & acc & Hcs & Hpre & Hc).
    exists sw, pre, c, post. do 2 (split; [done|]). split.
    + intros c' Hc'. destruct (for_in_ok_inv _ _ _ _ c' Hpre Hc') as (s1 & s2 & Hok).
      rewrite run_combination_acc in Hok.
      destruct (run_combination _ _ _ _ c' []) as [o|]; [by exists o|done].
    + rewrite run_combination_acc in Hc.
      by destruct (run_combination _ _ _ _ c []).
Qed.


(** On value lists, a run leaves the roles and the write lists as they
    are, and a read list as it is or followed by the write list. *)
Lemma analyze_privileges_spec_after_run (limit : nat) (spec : Spec)
    (dbcontext : DatabaseContext) :
  NoDup PRIVILEGE_MAP_keys →
  let after_run := (analyze_privileges limit spec dbcontext).1 in
  after_run.*1 = spec.*1
  ∧ (∀ limit' group, get_members limit' group after_run = get_members limit' group spec)
  ∧ determine_schema_owners after_run = determine_schema_owners spec
  ∧ determine_personal_schemas after_run = determine_personal_schemas spec
  ∧ determine_superusers after_run = determine_superusers spec
  ∧ (∀ limit', determine_schema_writers limit' after_run
               = determine_schema_writers limit' spec)
  ∧ ∀ i object_kind,
      let before := desired_items_this_obj spec i object_kind in
      let after := desired_items_this_obj after_run i object_kind in
      items_write after = items_write before
      ∧ (items_read after = items_read before
         ∨ items_read after
           = Some (default [] (items_read before) ++ default [] (items_write before))).
Proof.
  intros Hkinds after_run.
  assert (evolved spec after_run) as Hev.
  { by apply analyze_privileges_loop_evolved. }
  split; [by apply evolved_names|].
  split; [intros; symmetry; by apply get_members_evolved|].
  split; [symmetry; by apply determine_schema_owners_evolved|].
  split; [symmetry; by apply determine_personal_schemas_evolved|].
  split; [symmetry; by apply determine_superusers_evolved|].
  split; [intros; symmetry; by apply determine_schema_writers_evolved|].
  intros i k before after. split; [by apply evolved_write|].
  destruct (evolved_lookup spec after_run i k Hev) as [Heq|Heq].
  - left. unfold after. by rewrite Heq.
  - right. unfold after. by rewrite Heq.
Qed.

(** ** The run on list objects *)

Lemma deref_insert_eq (h : heap) (r : loc) (items : list string) :
  deref (<[r := items]> h) r = items.
Proof. unfold deref. by rewrite lookup_insert_eq. Qed.

Lemma deref_insert_ne (h : heap) (r r' : loc) (items : list string) :
  r ≠ r' → deref (<[r := items]> h) r' = deref h r'.
Proof. intros Hne. unfold deref. by rewrite lookup_insert_ne. Qed.

Lemma deref_insert_other (h : heap) (r : loc) (items : list string) (o : option loc) :
  o ≠ Some r → deref (<[r := items]> h) <$> o = deref h <$> o.
Proof.
  intros Hne. destruct o as [r'|]; [|done]. simpl. f_equal.
  apply deref_insert_ne. congruence.
Qed.

Lemma load_lookup (h : heap) (spec : SharedSpec) (j : nat) :
  load h spec !! j
  = (λ x : string * option shared_config, (x.1, load_config h <$> x.2)) <$> spec !! j.
Proof. unfold load. apply list_lookup_fmap. Qed.

Lemma load_this_obj (h : heap) (spec : SharedSpec) (i : nat) (object_kind : string) :
  desired_items_this_obj (load h spec) i object_kind
  = load_items h (refs_this_obj spec i object_kind).
Proof.
  unfold desired_items_this_obj, refs_this_obj. rewrite load_lookup.
  destruct (spec !! i) as [[role [c|]]|]; try done. simpl.
  destruct (shc_privileges c) as [p|]; [|done]. simpl. rewrite lookup_fmap.
  by destruct (p !! object_kind).
Qed.

(** The list object that the loop finds for a role, an object kind and an
    access level is the one at that place of the specification. *)
Lemma slot_ref_items (spec : SharedSpec) (i : nat) (object_kind : string)
    (a : access_level) :
  slot_ref spec (Items i object_kind a) = get_ref a (refs_this_obj spec i object_kind).
Proof.
  unfold slot_ref, refs_this_obj.
  destruct (spec !! i) as [[role [c|]]|]; try by destruct a.
  destruct (shc_privileges c) as [p|]; [|by destruct a]. simpl.
  destruct (p !! object_kind); by destruct a.
Qed.

(** A list object that sits at no place of a role's entry: writing to it
    leaves the entry as it reads. *)
Lemma load_config_insert_other (h : heap) (r : loc) (items : list string)
    (c : shared_config) :
  shc_member_of c ≠ Some r →
  (o ← shc_owns c; ref_schemas o) ≠ Some r →
  (∀ p k d, shc_privileges c = Some p → p !! k = Some d →
     ref_read d ≠ Some r ∧ ref_write d ≠ Some r) →
  load_config (<[r := items]> h) c = load_config h c.
Proof.
  intros Hm Ho Hp. unfold load_config. f_equal.
  - by apply deref_insert_other.
  - destruct (shc_owns c) as [o|]; [|done]. simpl in *. do 2 f_equal.
    by apply deref_insert_other.
  - destruct (shc_privileges c) as [p|]; [|done]. simpl. f_equal.
    apply map_eq. intros k. rewrite !lookup_fmap.
    destruct (p !! k) as [d|] eqn:Hk; [|done]. simpl. f_equal.
    destruct (Hp p k d eq_refl Hk). unfold load_items.
    f_equal; by apply deref_insert_other.
Qed.

(** [+=] on a read list that sits at one place only changes the
    specification as [store_read_items] says. *)
Lemma load_store_read_items (h : heap) (spec : SharedSpec) (i : nat) (k : string)
    (r : loc) (items : list string) :
  read_lists_unshared spec → slot_ref spec (Items i k read) = Some r →
  load (<[r := items]> h) spec = store_read_items (load h spec) i k items.
Proof.
  clear parse_bool check_name ensure_quoted_identifier qualified_name PRIVILEGE_MAP.
  intros Hun Hr.
  assert (∀ s, s ≠ Items i k read → slot_ref spec s ≠ Some r) as Hother.
  { intros s Hne Hs. by apply Hne, (Hun i k r). }
  unfold store_read_items. rewrite load_lookup.
  rewrite slot_ref_items in Hr. simpl in Hr. unfold refs_this_obj in Hr.
  destruct (spec !! i) as [[role [c|]]|] eqn:Hi; try done.
  destruct (shc_privileges c) as [p|] eqn:Hp; [|done].
  destruct (p !! k) as [d|] eqn:Hk; [|done]. simpl in Hr.
  simpl. rewrite Hp. simpl. rewrite lookup_fmap, Hk. simpl.
  apply list_eq. intros j. rewrite load_lookup.
  destruct (decide (j = i)) as [->|Hne].
  - rewrite list_lookup_insert_eq.
    2:{ unfold load. rewrite length_fmap. by eapply lookup_lt_Some. }
    rewrite Hi. simpl. do 3 f_equal. unfold load_config. f_equal.
    + apply deref_insert_other. specialize (Hother (MemberOf i)). simpl in Hother.
      rewrite Hi in Hother. by apply Hother.
    + specialize (Hother (OwnsSchemas i)). simpl in Hother. rewrite Hi in Hother.
      destruct (shc_owns c) as [o|]; [|done]. simpl in *. do 2 f_equal.
      apply deref_insert_other. by apply Hother.
    + rewrite Hp. simpl. f_equal. apply map_eq. intros k'. rewrite lookup_fmap.
      destruct (decide (k' = k)) as [->|Hk'].
      * rewrite lookup_insert_eq, Hk. simpl. f_equal. unfold load_items. f_equal.
        -- rewrite Hr. simpl. f_equal. apply deref_insert_eq.
        -- apply deref_insert_other. specialize (Hother (Items i k write)). rewrite slot_ref_items in Hother.
           simpl in Hother. unfold refs_this_obj in Hother.
           rewrite Hi, Hp, Hk in Hother. by apply Hother.
      * rewrite lookup_insert_ne, lookup_fmap by done.
        destruct (p !! k') as [d'|] eqn:Hd'; [|done]. simpl. f_equal.
        unfold load_items. f_equal; apply deref_insert_other.
        -- specialize (Hother (Items i k' read)). rewrite slot_ref_items in Hother.
           simpl in Hother.
           unfold refs_this_obj in Hother. rewrite Hi, Hp, Hd' in Hother.
           apply Hother. congruence.
        -- specialize (Hother (Items i k' write)). rewrite slot_ref_items in Hother.
           simpl in Hother.
           unfold refs_this_obj in Hother. rewrite Hi, Hp, Hd' in Hother.
           by apply Hother.
  - rewrite list_lookup_insert_ne by done. rewrite load_lookup.
    destruct (spec !! j) as [[role' [c'|]]|] eqn:Hj; try done. simpl. do 3 f_equal.
    apply load_config_insert_other.
    + specialize (Hother (MemberOf j)). simpl in Hother. rewrite Hj in Hother.
      by apply Hother.
    + specialize (Hother (OwnsSchemas j)). simpl in Hother. rewrite Hj in Hother.
      by apply Hother.
    + intros p' k' d' Hp' Hd'. split.
      * specialize (Hother (Items j k' read)). rewrite slot_ref_items in Hother.
           simpl in Hother.
        unfold refs_this_obj in Hother. rewrite Hj, Hp', Hd' in Hother.
        apply Hother. congruence.
      * specialize (Hother (Items j k' write)). rewrite slot_ref_items in Hother.
           simpl in Hother.
        unfold refs_this_obj in Hother. rewrite Hj, Hp', Hd' in Hother.
        by apply Hother.
Qed.

(** Lines 61 to 64 on list objects and on values agree when no read list is
    shared. *)
Lemma desired_items_shared_load (h : heap) (spec : SharedSpec) (i : nat) (k : string)
    (a : access_level) :
  read_lists_unshared spec →
  desired_items_for (load h spec) i k a
  = ((desired_items_shared spec i k a h).1, load (desired_items_shared spec i k a h).2 spec).
Proof.
  clear parse_bool check_name ensure_quoted_identifier qualified_name PRIVILEGE_MAP.
  intros Hun. unfold desired_items_for, desired_items_shared. rewrite load_this_obj.
  destruct a; [|done]. simpl. f_equal.
  destruct (ref_read (refs_this_obj spec i k)) as [r|] eqn:Hr; [|done]. simpl.
  symmetry. apply load_store_read_items; [done|]. by rewrite slot_ref_items.
Qed.

Lemma for_in_store_sim {A S St1 St2 : Type} (f : St1 → St2) (l : list A)
    (body1 : A → S → St1 → St1 * result S) (body2 : A → S → St2 → St2 * result S)
    (s : S) (st : St1) :
  (∀ x s st, body2 x s (f st) = (f (body1 x s st).1, (body1 x s st).2)) →
  for_in_store l body2 s (f st)
  = (f (for_in_store l body1 s st).1, (for_in_store l body1 s st).2).
Proof.
  intros Hsim. revert s st. induction l as [|x l IH]; intros s st; [done|].
  cbn [for_in_store]. rewrite Hsim. destruct (body1 x s st) as [st1 [s1|e]]; [|done].
  apply IH.
Qed.

Lemma for_in_store_inv {A S St : Type} (P : St → Prop) (l : list A)
    (body : A → S → St → St * result S) (s : S) (st : St) :
  P st → (∀ x s st, P st → P (body x s st).1) → P (for_in_store l body s st).1.
Proof.
  intros Hst Hbody. revert s st Hst. induction l as [|x l IH]; intros s st Hst; [done|].
  cbn [for_in_store]. specialize (Hbody x s st Hst).
  destruct (body x s st) as [st1 [s1|e]]; [|done]. by apply IH.
Qed.

Section shared_loop.
Context {X : Type}.
Variable skip : string → X.
Variable privconf :
  string → access_level → string → list string →
  gmap string (gset string) → gset string → result (list X).

(** The loop on list objects and the loop on values agree when no read list
    is shared. *)
Lemma analyze_privileges_loop_shared_load (limit : nat) (spec : SharedSpec) (h : heap)
    (dbcontext : DatabaseContext) :
  read_lists_unshared spec →
  analyze_privileges_loop skip privconf limit (load h spec) dbcontext
  = (load (analyze_privileges_loop_shared skip privconf limit spec h dbcontext).1 spec,
     (analyze_privileges_loop_shared skip privconf limit spec h dbcontext).2).
Proof.
  intros Hun. unfold analyze_privileges_loop, analyze_privileges_loop_shared.
  destruct (determine_schema_writers limit (load h spec)) as [sw|]; [|done].
  cbn zeta. generalize (determine_personal_schemas (load h spec)). intros ps.
  replace (length (load h spec)) with (length spec) by (unfold load; by rewrite length_fmap).
  generalize (@nil X). intros sql.
  apply (for_in_store_sim (λ h, load h spec)). clear sql h.
  intros i sql h. unfold analyze_role, analyze_role_shared. rewrite load_lookup.
  destruct (spec !! i) as [[rolename config]|]; [|done].
  cbn [fmap option_fmap option_map fst snd].
  destruct (is_superuser dbcontext rolename); [done|].
  apply (for_in_store_sim (λ h, load h spec)). clear sql h.
  intros k sql h. apply (for_in_store_sim (λ h, load h spec)). clear sql h.
  intros a sql h. unfold analyze_access, analyze_access_shared.
  rewrite desired_items_shared_load by done.
  by destruct (desired_items_shared spec i k a h).
Qed.

(** Whatever is shared, the loop only appends to list objects. *)
Lemma analyze_privileges_loop_shared_grows (limit : nat) (spec : SharedSpec) (h : heap)
    (dbcontext : DatabaseContext) (r : loc) :
  deref h r `prefix_of`
    deref (analyze_privileges_loop_shared skip privconf limit spec h dbcontext).1 r.
Proof.
  unfold analyze_privileges_loop_shared.
  destruct (determine_schema_writers limit (load h spec)) as [sw|]; [|done].
  cbn zeta. generalize (determine_personal_schemas (load h spec)). intros ps.
  generalize (@nil X). intros sql.
  apply (for_in_store_inv (λ h', deref h r `prefix_of` deref h' r)); [done|].
  clear sql. intros i sql h' Hh'. unfold analyze_role_shared.
  destruct (spec !! i) as [[rolename config]|]; [|done].
  destruct (is_superuser dbcontext rolename); [done|].
  apply (for_in_store_inv (λ h', deref h r `prefix_of` deref h' r)); [done|].
  clear sql h' Hh'. intros k sql h' Hh'.
  apply (for_in_store_inv (λ h', deref h r `prefix_of` deref h' r)); [done|].
  clear sql h' Hh'. intros a sql h' Hh'. unfold analyze_access_shared.
  destruct (desired_items_shared spec i k a h') as [items h''] eqn:Hstep. simpl.
  unfold desired_items_shared in Hstep. destruct a; [|by injection Hstep as _ <-].
  injection Hstep as _ <-. simpl.
  destruct (ref_read (refs_this_obj spec i k)) as [r'|]; [|done]. simpl.
  destruct (decide (r' = r)) as [->|Hne].
  - rewrite deref_insert_eq. etrans; [done|]. by apply prefix_app_r.
  - by rewrite deref_insert_ne.
Qed.

End shared_loop.

(** When no read list is shared, the run on list objects returns what the
    run on value lists returns for the specification as it reads when the
    run begins, and leaves the specification that run leaves: what is shown
    of [analyze_privileges] on value lists holds of the run on list objects
    of such a specification. *)
Lemma analyze_privileges_shared_load (limit : nat) (spec : SharedSpec) (h : heap)
    (dbcontext : DatabaseContext) :
  read_lists_unshared spec →
  analyze_privileges limit (load h spec) dbcontext
  = (load (analyze_privileges_shared limit spec h dbcontext).1 spec,
     (analyze_privileges_shared limit spec h dbcontext).2).
Proof. intros Hun. by apply analyze_privileges_loop_shared_load. Qed.

Lemma analyzer_calls_shared_load (limit : nat) (spec : SharedSpec) (h : heap)
    (dbcontext : DatabaseContext) :
  read_lists_unshared spec →
  analyzer_calls limit (load h spec) dbcontext
  = (load (analyzer_calls_shared limit spec h dbcontext).1 spec,
     (analyzer_calls_shared limit spec h dbcontext).2).
Proof. intros Hun. by apply analyze_privileges_loop_shared_load. Qed.

(** X14.  A run of [analyze_privileges] on a specification in which no list
    under a ['read'] key is an object that sits at another place too (as in
    any document without aliases) is the run of its turns, one after the
    other: the roles in the order of the specification, a superuser giving
    one turn that leaves a note, any other role one analysis for each object
    kind and then for read and for write access, handed the lists as the
    specification held them when the run began, for read access the read
    list followed by the write list.  When every turn returns, the run
    returns their statements in that order; the first turn that raises aborts
    the run with its exception, and no statement of the turns before it is
    returned. *)
Theorem analyze_privileges_shared_by_turns (limit : nat) (spec : SharedSpec) (h : heap)
    (dbcontext : DatabaseContext) :
  NoDup PRIVILEGE_MAP_keys → read_lists_unshared spec →
  (∀ c, c ∈ combinations (load h spec) dbcontext ↔
     ∃ i rolename config, spec !! i = Some (rolename, config)
       ∧ if is_superuser dbcontext rolename then c = Skipped rolename
         else ∃ object_kind a, object_kind ∈ PRIVILEGE_MAP_keys
                ∧ c = Analyzed rolename a object_kind
                        (default [] (deref h <$> slot_ref spec (Items i object_kind a))
                         ++ match a with
                            | read => default [] (deref h <$> slot_ref spec
                                                    (Items i object_kind write))
                            | write => []
                            end))
  ∧ match (analyze_privileges_shared limit spec h dbcontext).2 with
    | Ok sql =>
        ∃ schema_writers outs,
          determine_schema_writers limit (load h spec) = Ok schema_writers
          ∧ Forall2 (λ c o, run_combination SkipSuperuser (plain_privconf dbcontext)
                              schema_writers (determine_personal_schemas (load h spec))
                              c [] = Ok o)
              (combinations (load h spec) dbcontext) outs
          ∧ sql = mjoin outs
    | Raise e =>
        determine_schema_writers limit (load h spec) = Raise e
        ∨ ∃ schema_writers finished c rest,
            determine_schema_writers limit (load h spec) = Ok schema_writers
            ∧ combinations (load h spec) dbcontext = finished ++ c :: rest
            ∧ (∀ c', c' ∈ finished →
                 ∃ o, run_combination SkipSuperuser (plain_privconf dbcontext)
                        schema_writers (determine_personal_schemas (load h spec))
                        c' [] = Ok o)
            ∧ run_combination SkipSuperuser (plain_privconf dbcontext)
                schema_writers (determine_personal_schemas (load h spec)) c [] = Raise e
    end.
Proof.
  intros Hkinds Hun. split.
  - intros c. rewrite elem_of_combinations. split.
    + intros (i & rolename & config & Hlook & Hc). rewrite load_lookup in Hlook.
      destruct (spec !! i) as [[rolename' config']|] eqn:Hi; [|done].
      injection Hlook as -> <-. exists i, rolename, config'. split; [done|].
      destruct (is_superuser dbcontext rolename); [done|].
      destruct Hc as (k & a & Hk & ->). exists k, a. split; [done|].
      rewrite load_this_obj, !slot_ref_items. f_equal. destruct a; [done|]. simpl.
      by rewrite app_nil_r.
    + intros (i & rolename & config & Hlook & Hc).
      exists i, rolename, (load_config h <$> config). split.
      { rewrite load_lookup, Hlook. done. }
      destruct (is_superuser dbcontext rolename); [done|].
      destruct Hc as (k & a & Hk & ->). exists k, a. split; [done|].
      rewrite load_this_obj, !slot_ref_items. f_equal. destruct a; [done|]. simpl.
      by rewrite app_nil_r.
  - pose proof (analyze_privileges_by_turns limit (load h spec) dbcontext Hkinds) as Hturns.
    unfold analyze_privileges in Hturns.
    rewrite analyze_privileges_loop_shared_load in Hturns by done. exact Hturns.
Qed.

(** X16.  What a run of [analyze_privileges] does to the list objects of the
    specification, whether it returns or raises.  Whatever is shared, a list
    object only gains items at its end.  When no list under a ['read'] key
    sits at another place too, a list under [member_of], [owns.schemas] or a
    ['write'] key is left as it was, and a list under a ['read'] key is left
    as it was or has become itself followed by the write list of the same
    role and object kind; memberships, schema owners, personal schemas,
    superusers and the writers of the schemas are then the same on the
    specification after the run. *)
Theorem analyze_privileges_shared_store_after_run (limit : nat) (spec : SharedSpec)
    (h : heap) (dbcontext : DatabaseContext) :
  NoDup PRIVILEGE_MAP_keys →
  let after_run := (analyze_privileges_shared limit spec h dbcontext).1 in
  (∀ r, deref h r `prefix_of` deref after_run r)
  ∧ (read_lists_unshared spec →
     (∀ s r, slot_ref spec s = Some r →
        match s with
        | Items i object_kind read =>
            deref after_run r = deref h r
            ∨ deref after_run r
              = deref h r
                ++ default [] (deref h <$> slot_ref spec (Items i object_kind write))
        | _ => deref after_run r = deref h r
        end)
     ∧ (∀ limit' group, get_members limit' group (load after_run spec)
                        = get_members limit' group (load h spec))
     ∧ determine_schema_owners (load after_run spec)
       = determine_schema_owners (load h spec)
     ∧ determine_personal_schemas (load after_run spec)
       = determine_personal_schemas (load h spec)
     ∧ determine_superusers (load after_run spec) = determine_superusers (load h spec)
     ∧ ∀ limit', determine_schema_writers limit' (load after_run spec)
                 = determine_schema_writers limit' (load h spec)).
Proof.
  intros Hkinds after_run. split.
  { intros r. apply analyze_privileges_loop_shared_grows. }
  intros Hun.
  assert (evolved (load h spec) (load after_run spec)) as Hev.
  { pose proof (analyze_privileges_loop_evolved SkipSuperuser (plain_privconf dbcontext)
                  limit (load h spec) dbcontext Hkinds) as Hev.
    by rewrite analyze_privileges_loop_shared_load in Hev. }
  split.
  { intros s r Hs. destruct s as [i|i|i k a]; [simpl in Hs..|rewrite slot_ref_items in Hs].
    - destruct (spec !! i) as [[role [c|]]|] eqn:Hi; try done.
      destruct (Forall2_lookup_lr _ _ _ i (role, Some (load_config h c))
                  (role, Some (load_config after_run c)) Hev) as [_ Hc].
      { by rewrite load_lookup, Hi. }
      { by rewrite load_lookup, Hi. }
      destruct Hc as (_ & _ & Hm & _). simpl in Hm. rewrite Hs in Hm.
      by injection Hm.
    - destruct (spec !! i) as [[role [c|]]|] eqn:Hi; try done.
      destruct (Forall2_lookup_lr _ _ _ i (role, Some (load_config h c))
                  (role, Some (load_config after_run c)) Hev) as [_ Hc].
      { by rewrite load_lookup, Hi. }
      { by rewrite load_lookup, Hi. }
      destruct Hc as (_ & _ & _ & Ho & _). simpl in Ho.
      destruct (shc_owns c) as [o|]; [|done]. simpl in Hs, Ho. rewrite Hs in Ho.
      by injection Ho.
    - destruct a.
      + pose proof (evolved_lookup _ _ i k Hev) as Hitems.
        rewrite !load_this_obj in Hitems. rewrite slot_ref_items. simpl in Hs.
        destruct Hitems as [Heq|Heq];
          apply (f_equal items_read) in Heq; simpl in Heq; rewrite Hs in Heq;
          injection Heq as Heq; [by left|by right].
      + pose proof (evolved_write _ _ i k Hev) as Hitems.
        rewrite !load_this_obj in Hitems. simpl in Hs, Hitems. rewrite Hs in Hitems.
        by injection Hitems. }
  split; [intros; symmetry; by apply get_members_evolved|].
  split; [symmetry; by apply determine_schema_owners_evolved|].
  split; [symmetry; by apply determine_personal_schemas_evolved|].
  split; [symmetry; by apply determine_superusers_evolved|].
  intros. symmetry. by apply determine_schema_writers_evolved.
Qed.

End privileges.

(** * The statements at work on sample inputs *)

Example endswith_wildcard :
  endswith "sales.*" ".*" = true ∧ endswith "sales.orders" ".*" = false
  ∧ endswith "*" ".*" = false.
Proof. by vm_compute. Qed.

Example split_dot_qualified :
  split_dot "sales.orders.v2" = ("sales", Some "orders.v2") ∧ split_dot "sales" = ("sales", None).
Proof. by vm_compute. Qed.

Example render_grant_nondefault :
  render (GrantNondefault "SELECT" "tables" "sales.orders" "reader")
  = "GRANT SELECT ON TABLE sales.orders TO " +:+ dquote +:+ "reader" +:+ dquote +:+ ";".
Proof. by vm_compute. Qed.

Example render_revoke_default :
  render (RevokeDefault "former" "sales" "SELECT" "tables" "reader")
  = newline +:+ "    SET ROLE " +:+ dquote +:+ "former" +:+ dquote +:+ ";" +:+ newline
    +:+ "    ALTER DEFAULT PRIVILEGES IN SCHEMA sales REVOKE SELECT ON TABLES FROM "
    +:+ dquote +:+ "reader" +:+ dquote +:+ ";" +:+ newline
    +:+ "    RESET ROLE;" +:+ newline +:+ "    ".
Proof. by vm_compute. Qed.

Lemma direct_member_cyclic_A_B : direct_member Sample.cyclic_spec "A" "B".
Proof. eexists. split; [left|]. done. Qed.

Lemma direct_member_cyclic_B_A : direct_member Sample.cyclic_spec "B" "A".
Proof. eexists. split; [right; left|]. done. Qed.

(** C1, as stated, fails: when A lists B and B lists A in [member_of],
    [get_members] returns for neither role, whatever the size of the stack. *)
Lemma get_members_cycle_recursion_error :
  (∀ limit, get_members limit "A" Sample.cyclic_spec = Raise RecursionError)
  ∧ (∀ limit, get_members limit "B" Sample.cyclic_spec = Raise RecursionError).
Proof.
  split; intros limit.
  - apply (get_members_on_cycle _ _ _ "A"); [apply rtc_refl|].
    eapply tc_l; [apply direct_member_cyclic_A_B|]. apply tc_once, direct_member_cyclic_B_A.
  - apply (get_members_on_cycle _ _ _ "B"); [apply rtc_refl|].
    eapply tc_l; [apply direct_member_cyclic_B_A|]. apply tc_once, direct_member_cyclic_A_B.
Qed.

Lemma get_members_acyclic_transitive_members_witness :
  ∃ M, get_members 3 "A" Sample.chain_spec = Ok M
       ∧ ∀ r, r ∈ M ↔ tc (direct_member Sample.chain_spec) r "A".
Proof.
  apply (get_members_acyclic_transitive_members Sample.chain_spec Sample.chain_rank 3 "A").
  - intros r g (config & Hin & Hl).
    repeat (apply elem_of_cons in Hin as [Hin|Hin]); [..|by apply elem_of_nil in Hin];
      injection Hin as -> ->; simpl in Hl; [done|..];
      apply bool_decide_eq_true, list_elem_of_singleton in Hl as ->; vm_compute; lia.
  - vm_compute. lia.
Defined.

Lemma determine_schema_writers_superusers_witness :
  "admin" ∈ ({["owner"; "admin"]} : gset string).
Proof.
  apply (determine_schema_writers_superusers Sample.parse_bool 2 Sample.sales_spec
           {["sales" := {["owner"; "admin"]}]} "sales" {["owner"; "admin"]} "admin"
           (Sample.role (Some (SBool true)) None None None None)).
  - vm_compute. reflexivity.
  - vm_compute. reflexivity.
  - left.
  - reflexivity.
Defined.

Lemma NoDup_sample_kinds : NoDup (PRIVILEGE_MAP_keys Sample.PRIVILEGE_MAP).
Proof. by apply (bool_decide_unpack _). Defined.


Lemma determine_schema_writers_unowned_schema_witness :
  (∀ role config schema, (role, config) ∈ Sample.sales_spec →
     schema ∈ writable_schemas
                (determine_personal_schemas Sample.parse_bool Sample.sales_spec) config →
     schema_has_owner Sample.parse_bool Sample.sales_spec schema)
  ∧ ∃ e, determine_schema_writers Sample.parse_bool 2 Sample.unowned_spec = Raise e
         ∧ (e = RecursionError
            ∨ ∃ schema, e = KeyError schema
                ∧ ¬ schema_has_owner Sample.parse_bool Sample.unowned_spec schema).
Proof.
  split.
  - apply (proj1 (determine_schema_writers_unowned_schema Sample.parse_bool 2
                    Sample.sales_spec) {["sales" := {["owner"; "admin"]}]}).
    vm_compute. reflexivity.
  - apply (proj2 (determine_schema_writers_unowned_schema Sample.parse_bool 2
                    Sample.unowned_spec)).
    eexists "intern", _, "lab". split; [left|]. split.
    + by apply (bool_decide_unpack _).
    + intros [(role & c & Hin & Hs)|Hp].
      * apply list_elem_of_singleton in Hin. injection Hin as -> ->.
        by apply elem_of_nil in Hs.
      * apply elem_of_determine_personal_schemas in Hp as (config & Hin & Hf).
        apply list_elem_of_singleton in Hin. discriminate Hin.
Defined.


(** The read-access analyzer of [writer] for tables is handed the read item
    and the write item. *)
Lemma writer_read_call :
  (analyzer_calls Sample.parse_bool Sample.PRIVILEGE_MAP 2 Sample.writer_spec
     Sample.sales_before).2
  = Ok ((λ c, Some {| call_rolename := c.1.1.1; call_access := c.1.1.2;
                      call_object_kind := c.1.2; call_desired_items := c.2 |})
          <$> [("owner", read, "schemas", []); ("owner", write, "schemas", []);
               ("owner", read, "sequences", []); ("owner", write, "sequences", []);
               ("owner", read, "tables", []); ("owner", write, "tables", []);
               ("writer", read, "schemas", []); ("writer", write, "schemas", []);
               ("writer", read, "sequences", []); ("writer", write, "sequences", []);
               ("writer", read, "tables", ["sales.orders"; "sales.*"]);
               ("writer", write, "tables", ["sales.*"])]).
Proof. vm_compute. reflexivity. Qed.

(** C3, the defect.  [desired_items += ...] extends the list it got from the
    specification: after the run the read list of [writer] for tables holds
    the write item as well, so the specification is not what was handed in. *)
Theorem analyze_privileges_extends_read_list :
  let after_run :=
    (analyze_privileges Sample.parse_bool Sample.check_name
       Sample.ensure_quoted_identifier Sample.qualified_name Sample.PRIVILEGE_MAP 2
       Sample.writer_spec Sample.sales_before).1 in
  items_read (desired_items_this_obj Sample.writer_spec 1 "tables") = Some ["sales.orders"]
  ∧ items_read (desired_items_this_obj after_run 1 "tables")
    = Some ["sales.orders"; "sales.*"]
  ∧ after_run ≠ Sample.writer_spec.
Proof.
  split; [by vm_compute|]. split; [by vm_compute|]. intros Heq.
  apply (f_equal (λ spec, length <$> items_read (desired_items_this_obj spec 1 "tables")))
    in Heq.
  vm_compute in Heq. discriminate Heq.
Qed.

(** The run of C3 does not fail: the statements it returns. *)
Lemma writer_run_statements :
  (analyze_privileges Sample.parse_bool Sample.check_name
     Sample.ensure_quoted_identifier Sample.qualified_name Sample.PRIVILEGE_MAP 2
     Sample.writer_spec Sample.sales_before).2
  = Ok [GrantNondefault "SELECT" "tables" (Sample.qualified_name Sample.orders) "writer";
        GrantDefault "owner" "sales" "SELECT" "tables" "writer";
        GrantNondefault "DELETE" "tables" (Sample.qualified_name Sample.orders) "writer";
        GrantNondefault "INSERT" "tables" (Sample.qualified_name Sample.orders) "writer";
        GrantNondefault "REFERENCES" "tables" (Sample.qualified_name Sample.orders) "writer";
        GrantNondefault "TRIGGER" "tables" (Sample.qualified_name Sample.orders) "writer";
        GrantNondefault "TRUNCATE" "tables" (Sample.qualified_name Sample.orders) "writer";
        GrantNondefault "UPDATE" "tables" (Sample.qualified_name Sample.orders) "writer";
        GrantDefault "owner" "sales" "DELETE" "tables" "writer";
        GrantDefault "owner" "sales" "INSERT" "tables" "writer";
        GrantDefault "owner" "sales" "REFERENCES" "tables" "writer";
        GrantDefault "owner" "sales" "TRIGGER" "tables" "writer";
        GrantDefault "owner" "sales" "TRUNCATE" "tables" "writer";
        GrantDefault "owner" "sales" "UPDATE" "tables" "writer"].
Proof. vm_compute. reflexivity. Qed.

(** C4, as stated, fails: the message about an object without owner names
    neither the access level nor the object kind as the specification
    spells it. *)
Lemma unknown_object_message_lacks_access :
  analyze Sample.ensure_quoted_identifier Sample.qualified_name Sample.PRIVILEGE_MAP
    Sample.ghost_tables_write = Raise (SystemExit Sample.ghost_message)
  ∧ ¬ carries Sample.ghost_message (access_str (access Sample.ghost_tables_write))
  ∧ ¬ carries Sample.ghost_message (object_kind Sample.ghost_tables_write).
Proof.
  split; [by vm_compute|].
  split; intros Hc%carries_infixb; vm_compute in Hc; discriminate.
Qed.

Lemma analyze_failure_message_witness :
  (Sample.ghost_message
   = PERSONAL_SCHEMAS_ERROR_MSG (rolename Sample.ghost_tables_write)
       (object_kind Sample.ghost_tables_write)
       (access_str (access Sample.ghost_tables_write))
   ∧ carries Sample.ghost_message (rolename Sample.ghost_tables_write)
   ∧ carries Sample.ghost_message (object_kind Sample.ghost_tables_write)
   ∧ carries Sample.ghost_message (access_str (access Sample.ghost_tables_write)))
  ∨ (∃ item, item ∈ desired_items Sample.ghost_tables_write
       ∧ Sample.ghost_message
         = OBJECT_DOES_NOT_EXIST_ERROR_MSG (drop_last (object_kind Sample.ghost_tables_write))
             (Sample.ensure_quoted_identifier item) (rolename Sample.ghost_tables_write)
       ∧ carries Sample.ghost_message (rolename Sample.ghost_tables_write)
       ∧ carries Sample.ghost_message (drop_last (object_kind Sample.ghost_tables_write))
       ∧ carries Sample.ghost_message (Sample.ensure_quoted_identifier item)).
Proof.
  apply (analyze_failure_message Sample.ensure_quoted_identifier Sample.qualified_name
           Sample.PRIVILEGE_MAP Sample.ghost_tables_write Sample.ghost_message).
  vm_compute. reflexivity.
Defined.

(** C5, as stated, fails: the keyword is in the list and the object kind is
    [tables], yet the failure is the one of the item in front of it. *)
Lemma identify_desired_objects_other_failure_first :
  "personal_schemas" ∈ desired_items Sample.ghost_tables_write
  ∧ object_kind Sample.ghost_tables_write ≠ "schemas"
  ∧ identify_desired_objects Sample.ensure_quoted_identifier Sample.qualified_name
      Sample.PRIVILEGE_MAP Sample.ghost_tables_write
    ≠ fail (PERSONAL_SCHEMAS_ERROR_MSG (rolename Sample.ghost_tables_write)
              (object_kind Sample.ghost_tables_write)
              (access_str (access Sample.ghost_tables_write))).
Proof.
  split; [by right; left|]. split; [done|]. vm_compute. discriminate.
Qed.

Lemma identify_desired_objects_personal_schemas_witness :
  identify_desired_objects Sample.ensure_quoted_identifier Sample.qualified_name
    Sample.PRIVILEGE_MAP Sample.keyword_tables_read
  = fail (PERSONAL_SCHEMAS_ERROR_MSG "reader" "tables" "read")
  ∧ ∀ schema p, schema ∈ personal_schemas Sample.alice_schemas_read → p ∈ ["USAGE"] →
      (schema, p) ∈ desired_nondefaults
                      {| desired_nondefaults := {[("alice", "USAGE")]};
                         desired_defaults := None |}.
Proof.
  split.
  - apply (proj1 (identify_desired_objects_personal_schemas
                    Sample.ensure_quoted_identifier Sample.qualified_name
                    Sample.PRIVILEGE_MAP Sample.keyword_tables_read)).
    split; [done|]. exists [], []. split; [done|]. intros item Hin.
    by apply elem_of_nil in Hin.
  - apply (proj2 (identify_desired_objects_personal_schemas
                    Sample.ensure_quoted_identifier Sample.qualified_name
                    Sample.PRIVILEGE_MAP Sample.alice_schemas_read)
             eq_refl (list_elem_of_here _ _)
             {| desired_nondefaults := {[("alice", "USAGE")]}; desired_defaults := None |}
             ["USAGE"]).
    + vm_compute. reflexivity.
    + vm_compute. reflexivity.
Defined.

(** C6, the defect.  The keyword ['personal_schemas'] adds every personal
    schema, the one of the analyzed role included: [alice] owns the schema
    [alice], and USAGE on it is among her desired privileges and is granted. *)
Theorem identify_desired_objects_owned_personal_schema :
  PrivilegeAnalyzer_init Sample.check_name Sample.qualified_name "alice" read "schemas"
    ["personal_schemas"] {["alice" := {["alice"]}]} {["alice"]} Sample.alice_context
  = Ok Sample.alice_schemas_read
  ∧ get_object_owner Sample.alice_schemas_read "alice" None
    = Ok (rolename Sample.alice_schemas_read)
  ∧ identify_desired_objects Sample.ensure_quoted_identifier Sample.qualified_name
      Sample.PRIVILEGE_MAP Sample.alice_schemas_read
    = Ok {| desired_nondefaults := {[("alice", "USAGE")]}; desired_defaults := None |}
  ∧ (analyze_privileges Sample.parse_bool Sample.check_name
       Sample.ensure_quoted_identifier Sample.qualified_name Sample.PRIVILEGE_MAP 2
       Sample.alice_spec Sample.alice_context).2
    = Ok [GrantNondefault "USAGE" "schemas" "alice" "alice"].
Proof. repeat split; vm_compute; reflexivity. Qed.

Lemma analyze_statement_order_witness :
  ∃ d grants revokes default_grants default_revokes,
    identify_desired_objects Sample.ensure_quoted_identifier Sample.qualified_name
      Sample.PRIVILEGE_MAP Sample.reader_tables_stale = Ok d
    ∧ Sample.stale_sql = (grant_nondefault Sample.reader_tables_stale <$> grants)
                  ++ (revoke_nondefault Sample.reader_tables_stale <$> revokes)
                  ++ (grant_default Sample.reader_tables_stale <$> default_grants)
                  ++ (revoke_default Sample.reader_tables_stale <$> default_revokes)
    ∧ sorted_keys pair_le grants
        (desired_nondefaults d ∖ current_nondefaults Sample.reader_tables_stale)
    ∧ sorted_keys pair_le revokes
        (current_nondefaults Sample.reader_tables_stale ∖ desired_nondefaults d)
    ∧ if default_acl_possible Sample.reader_tables_stale
      then ∃ dd, desired_defaults d = Some dd
             ∧ sorted_keys triple_le default_grants
                 (dd ∖ current_defaults Sample.reader_tables_stale)
             ∧ sorted_keys triple_le default_revokes
                 (current_defaults Sample.reader_tables_stale ∖ dd)
      else default_grants = [] ∧ default_revokes = [].
Proof.
  apply (analyze_statement_order Sample.ensure_quoted_identifier Sample.qualified_name
           Sample.PRIVILEGE_MAP Sample.reader_tables_stale Sample.stale_sql).
  vm_compute. reflexivity.
Defined.

(** ** The further properties on sample inputs *)

Lemma get_members_returns_transitive_members_witness :
  (∀ r, r ∈ ({["B"; "C"]} : gset string) ↔ tc (direct_member Sample.chain_spec) r "A")
  ∧ "A" ∉ ({["B"; "C"]} : gset string).
Proof.
  apply (get_members_returns_transitive_members 3 "A" Sample.chain_spec {["B"; "C"]}).
  vm_compute. reflexivity.
Defined.

Lemma get_members_limit_monotone_witness :
  get_members 7 "A" Sample.chain_spec = Ok {["B"; "C"]}.
Proof.
  apply (get_members_limit_monotone 3 7 "A" Sample.chain_spec {["B"; "C"]}).
  - vm_compute. reflexivity.
  - lia.
Defined.

Lemma membership_cycle_aborts_analysis_witness :
  (∀ group, rtc (direct_member Sample.cyclic_spec) "A" group →
     get_members 5 group Sample.cyclic_spec = Raise RecursionError)
  ∧ determine_schema_writers Sample.parse_bool 5 Sample.cyclic_spec = Raise RecursionError
  ∧ analyze_privileges Sample.parse_bool Sample.check_name Sample.ensure_quoted_identifier
      Sample.qualified_name Sample.PRIVILEGE_MAP 5 Sample.cyclic_spec Sample.sales_before
    = (Sample.cyclic_spec, Raise RecursionError).
Proof.
  apply (membership_cycle_aborts_analysis Sample.parse_bool Sample.check_name
           Sample.ensure_quoted_identifier Sample.qualified_name Sample.PRIVILEGE_MAP
           5 Sample.cyclic_spec Sample.sales_before "A").
  eapply tc_l; [apply direct_member_cyclic_A_B|]. apply tc_once, direct_member_cyclic_B_A.
Defined.

Lemma determine_role_members_contents_witness :
  if decide ("B" ∈ Sample.chain_spec.*1)
  then ∃ members, Sample.chain_members !! "B" = Some members
         ∧ get_members 3 "B" Sample.chain_spec = Ok members
         ∧ ∀ r, r ∈ members ↔ tc (direct_member Sample.chain_spec) r "B"
  else Sample.chain_members !! "B" = None.
Proof.
  apply (determine_role_members_contents 3 Sample.chain_spec Sample.chain_members "B").
  vm_compute. reflexivity.
Defined.

Lemma determine_schema_writers_contents_witness :
  dom ({["sales" := {["owner"; "admin"]}]} : gmap string (gset string))
  = dom (determine_schema_owners Sample.parse_bool Sample.sales_spec)
  ∧ ∀ schema vals,
      ({["sales" := {["owner"; "admin"]}]} : gmap string (gset string)) !! schema
      = Some vals →
      ∀ r, r ∈ vals ↔
        determine_schema_owners Sample.parse_bool Sample.sales_spec !! schema = Some r
        ∨ r ∈ determine_superusers Sample.parse_bool Sample.sales_spec
        ∨ ∃ role config, (role, config) ∈ Sample.sales_spec
            ∧ schema ∈ writable_schemas
                         (determine_personal_schemas Sample.parse_bool Sample.sales_spec)
                         config
            ∧ (r = role ∨ tc (direct_member Sample.sales_spec) r role).
Proof.
  apply (determine_schema_writers_contents Sample.parse_bool 2 Sample.sales_spec
           {["sales" := {["owner"; "admin"]}]}).
  vm_compute. reflexivity.
Defined.

Lemma identify_desired_objects_nondefaults_witness :
  ∃ verbs,
    privilege_verbs Sample.PRIVILEGE_MAP (object_kind Sample.reader_tables_stale)
      (access Sample.reader_tables_stale) = Ok verbs
    ∧ ∀ o p, (o, p) ∈ desired_nondefaults Sample.stale_desired ↔
        p ∈ verbs
        ∧ ∃ item, item ∈ desired_items Sample.reader_tables_stale
            ∧ (item_objects Sample.ensure_quoted_identifier Sample.reader_tables_stale item o
               ∨ ∃ schema dbo attr, schema ∈ item_schemas Sample.reader_tables_stale item
                   ∧ object_owners Sample.reader_tables_stale
                       (object_kind Sample.reader_tables_stale) schema !! dbo = Some attr
                   ∧ owner attr ≠ rolename Sample.reader_tables_stale
                   ∧ o = Sample.qualified_name dbo).
Proof.
  apply (identify_desired_objects_nondefaults Sample.ensure_quoted_identifier
           Sample.qualified_name Sample.PRIVILEGE_MAP Sample.reader_tables_stale
           Sample.stale_desired).
  vm_compute. reflexivity.
Defined.

Lemma identify_desired_objects_defaults_witness :
  if default_acl_possible Sample.reader_tables_stale
  then ∃ dd verbs, desired_defaults Sample.stale_desired = Some dd
         ∧ privilege_verbs Sample.PRIVILEGE_MAP (object_kind Sample.reader_tables_stale)
             (access Sample.reader_tables_stale) = Ok verbs
         ∧ ∀ grantor schema p, (grantor, schema, p) ∈ dd ↔
             p ∈ verbs ∧ grantor ≠ rolename Sample.reader_tables_stale
             ∧ (∃ item, item ∈ desired_items Sample.reader_tables_stale
                  ∧ schema ∈ item_schemas Sample.reader_tables_stale item)
             ∧ ∃ writers, schema_writers Sample.reader_tables_stale !! schema = Some writers
                 ∧ grantor ∈ writers
  else desired_defaults Sample.stale_desired = None.
Proof.
  apply (identify_desired_objects_defaults Sample.ensure_quoted_identifier
           Sample.qualified_name Sample.PRIVILEGE_MAP Sample.reader_tables_stale
           Sample.stale_desired).
  vm_compute. reflexivity.
Defined.

Lemma analyze_wildcard_unowned_schema_witness :
  ∃ s, analyze Sample.ensure_quoted_identifier Sample.qualified_name Sample.PRIVILEGE_MAP
         Sample.lab_tables_read = Raise (KeyError s)
       ∧ schema_writers Sample.lab_tables_read !! s = None
       ∧ ∃ item', item' ∈ desired_items Sample.lab_tables_read
           ∧ s ∈ item_schemas Sample.lab_tables_read item'.
Proof.
  apply (analyze_wildcard_unowned_schema Sample.ensure_quoted_identifier
           Sample.qualified_name Sample.PRIVILEGE_MAP Sample.lab_tables_read
           "lab.*" "lab" ["SELECT"]).
  - reflexivity.
  - reflexivity.
  - intros item Hin. apply list_elem_of_singleton in Hin as ->.
    split; [discriminate|]. vm_compute. discriminate.
  - left.
  - vm_compute. left.
  - reflexivity.
Defined.

Lemma analyze_statements_target_witness :
  ∃ verbs,
    privilege_verbs Sample.PRIVILEGE_MAP (object_kind Sample.reader_tables_stale)
      (access Sample.reader_tables_stale) = Ok verbs
    ∧ "tables" = object_kind Sample.reader_tables_stale
    ∧ "reader" = rolename Sample.reader_tables_stale
    ∧ "SELECT" ∈ verbs
    ∧ default_acl_possible Sample.reader_tables_stale = true
    ∧ "owner" ≠ rolename Sample.reader_tables_stale
    ∧ ("owner", "sales", "SELECT") ∉ current_defaults Sample.reader_tables_stale.
Proof.
  apply (analyze_statements_target Sample.ensure_quoted_identifier Sample.qualified_name
           Sample.PRIVILEGE_MAP Sample.reader_tables_stale Sample.stale_sql
           (GrantDefault "owner" "sales" "SELECT" "tables" "reader")).
  - vm_compute. reflexivity.
  - do 3 right. left.
Defined.


Lemma analyze_items_as_set_witness :
  analyze Sample.ensure_quoted_identifier Sample.qualified_name Sample.PRIVILEGE_MAP
    Sample.reader_tables_stale = Ok Sample.stale_sql
  ↔ analyze Sample.ensure_quoted_identifier Sample.qualified_name Sample.PRIVILEGE_MAP
      (with_items Sample.reader_tables_stale ["sales.*"; "sales.*"]) = Ok Sample.stale_sql.
Proof.
  apply (analyze_items_as_set Sample.ensure_quoted_identifier Sample.qualified_name
           Sample.PRIVILEGE_MAP Sample.reader_tables_stale ["sales.*"; "sales.*"]
           Sample.stale_sql).
  intros item. simpl. rewrite !elem_of_cons. tauto.
Defined.

Lemma analyze_no_duplicate_statement_witness : NoDup Sample.stale_sql.
Proof.
  apply (analyze_no_duplicate_statement Sample.ensure_quoted_identifier
           Sample.qualified_name Sample.PRIVILEGE_MAP Sample.reader_tables_stale
           Sample.stale_sql).
  vm_compute. reflexivity.
Defined.

Lemma determine_schema_owners_last_declaration_witness :
  determine_schema_owners Sample.parse_bool Sample.contested_spec !! "shared"
  = Some "second".
Proof.
  apply (proj2 (determine_schema_owners_last_declaration Sample.parse_bool
                  Sample.contested_spec "shared" "second")).
  exists [("first", Sample.role None None None (Some ["shared"]) None)],
    (Sample.role None None None (Some ["shared"]) None), [].
  split; [reflexivity|]. split; [reflexivity|].
  intros r c Hin. by apply elem_of_nil in Hin.
Defined.

Lemma analyze_nothing_to_emit_witness :
  analyze Sample.ensure_quoted_identifier Sample.qualified_name Sample.PRIVILEGE_MAP
    (with_current Sample.reader_tables_stale
       {[("admin", "sales", "SELECT"); ("owner", "sales", "SELECT")]}
       {[(Sample.qualified_name Sample.orders, "SELECT")]})
  = Ok [].
Proof.
  apply (proj2 (analyze_nothing_to_emit Sample.ensure_quoted_identifier
                  Sample.qualified_name Sample.PRIVILEGE_MAP
                  (with_current Sample.reader_tables_stale
                     {[("admin", "sales", "SELECT"); ("owner", "sales", "SELECT")]}
                     {[(Sample.qualified_name Sample.orders, "SELECT")]}))).
  exists Sample.stale_desired. split; [vm_compute; reflexivity|].
  split; [reflexivity|]. intros _. reflexivity.
Defined.

(** ** The run on list objects, on sample inputs *)

Example load_writer_shared : load Sample.writer_heap Sample.writer_shared = Sample.writer_spec.
Proof. vm_compute. reflexivity. Qed.

Lemma writer_shared_unshared : read_lists_unshared Sample.writer_shared.
Proof.
  intros i k r s Hr Hs.
  assert (i = 1 ∧ k = "tables" ∧ r = 1) as (-> & -> & ->).
  { destruct i as [|[|i]]; [done| |done]. simpl in Hr.
    destruct (decide (k = "tables")) as [->|Hne].
    - by injection Hr as <-.
    - by rewrite lookup_singleton_ne in Hr. }
  destruct s as [j|j|j k' a]; simpl in Hs.
  - by destruct j as [|[|j]].
  - by destruct j as [|[|j]].
  - destruct j as [|[|j]]; [done| |done]. simpl in Hs.
    destruct (decide (k' = "tables")) as [->|Hne].
    + by destruct a.
    + by rewrite lookup_singleton_ne in Hs.
Qed.

Lemma analyze_privileges_shared_by_turns_witness :
  ((∀ c, c ∈ combinations Sample.PRIVILEGE_MAP
              (load Sample.writer_heap Sample.writer_shared) Sample.sales_before ↔
     ∃ i rolename config, Sample.writer_shared !! i = Some (rolename, config)
       ∧ if is_superuser Sample.sales_before rolename then c = Skipped rolename
         else ∃ object_kind a, object_kind ∈ PRIVILEGE_MAP_keys Sample.PRIVILEGE_MAP
                ∧ c = Analyzed rolename a object_kind
                        (default [] (deref Sample.writer_heap
                                       <$> slot_ref Sample.writer_shared
                                             (Items i object_kind a))
                         ++ match a with
                            | read => default [] (deref Sample.writer_heap
                                                    <$> slot_ref Sample.writer_shared
                                                          (Items i object_kind write))
                            | write => []
                            end))
  ∧ match (analyze_privileges_shared Sample.parse_bool Sample.check_name
             Sample.ensure_quoted_identifier Sample.qualified_name Sample.PRIVILEGE_MAP 2
             Sample.writer_shared Sample.writer_heap Sample.sales_before).2 with
    | Ok sql =>
        ∃ schema_writers outs,
          determine_schema_writers Sample.parse_bool 2
            (load Sample.writer_heap Sample.writer_shared) = Ok schema_writers
          ∧ Forall2 (λ c o, run_combination SkipSuperuser
                              (plain_privconf Sample.check_name
                                 Sample.ensure_quoted_identifier Sample.qualified_name
                                 Sample.PRIVILEGE_MAP Sample.sales_before)
                              schema_writers
                              (determine_personal_schemas Sample.parse_bool
                                 (load Sample.writer_heap Sample.writer_shared))
                              c [] = Ok o)
              (combinations Sample.PRIVILEGE_MAP
                 (load Sample.writer_heap Sample.writer_shared) Sample.sales_before) outs
          ∧ sql = mjoin outs
    | Raise e =>
        determine_schema_writers Sample.parse_bool 2
          (load Sample.writer_heap Sample.writer_shared) = Raise e
        ∨ ∃ schema_writers finished c rest,
            determine_schema_writers Sample.parse_bool 2
              (load Sample.writer_heap Sample.writer_shared) = Ok schema_writers
            ∧ combinations Sample.PRIVILEGE_MAP
                (load Sample.writer_heap Sample.writer_shared) Sample.sales_before
              = finished ++ c :: rest
            ∧ (∀ c', c' ∈ finished →
                 ∃ o, run_combination SkipSuperuser
                        (plain_privconf Sample.check_name Sample.ensure_quoted_identifier
                           Sample.qualified_name Sample.PRIVILEGE_MAP Sample.sales_before)
                        schema_writers
                        (determine_personal_schemas Sample.parse_bool
                           (load Sample.writer_heap Sample.writer_shared))
                        c' [] = Ok o)
            ∧ run_combination SkipSuperuser
                (plain_privconf Sample.check_name Sample.ensure_quoted_identifier
                   Sample.qualified_name Sample.PRIVILEGE_MAP Sample.sales_before)
                schema_writers
                (determine_personal_schemas Sample.parse_bool
                   (load Sample.writer_heap Sample.writer_shared)) c []
              = Raise e
    end)
  ∧ Analyzed "writer" read "tables" ["sales.orders"; "sales.*"]
    ∈ combinations Sample.PRIVILEGE_MAP
        (load Sample.writer_heap Sample.writer_shared) Sample.sales_before
  ∧ Analyzed "writer" write "tables" ["sales.*"]
    ∈ combinations Sample.PRIVILEGE_MAP
        (load Sample.writer_heap Sample.writer_shared) Sample.sales_before.
Proof.
  pose proof (analyze_privileges_shared_by_turns Sample.parse_bool Sample.check_name
                Sample.ensure_quoted_identifier Sample.qualified_name
                Sample.PRIVILEGE_MAP 2 Sample.writer_shared Sample.writer_heap
                Sample.sales_before NoDup_sample_kinds writer_shared_unshared) as Hturns.
  split; [exact Hturns|]. destruct Hturns as [Hiff _].
  split; apply Hiff; eexists 1, "writer", _; (split; [reflexivity|]);
    cbn [is_superuser Sample.sales_before];
    rewrite bool_decide_eq_false_2 by discriminate.
  - exists "tables", read. split; [by apply (bool_decide_unpack _)|reflexivity].
  - exists "tables", write. split; [by apply (bool_decide_unpack _)|reflexivity].
Defined.

Lemma analyze_privileges_shared_store_after_run_witness :
  let after_run :=
    (analyze_privileges_shared Sample.parse_bool Sample.check_name
       Sample.ensure_quoted_identifier Sample.qualified_name Sample.PRIVILEGE_MAP 2
       Sample.writer_shared Sample.writer_heap Sample.sales_before).1 in
  (∀ r, deref Sample.writer_heap r `prefix_of` deref after_run r)
  ∧ (∀ s r, slot_ref Sample.writer_shared s = Some r →
       match s with
       | Items i object_kind read =>
           deref after_run r = deref Sample.writer_heap r
           ∨ deref after_run r
             = deref Sample.writer_heap r
               ++ default [] (deref Sample.writer_heap
                                <$> slot_ref Sample.writer_shared
                                      (Items i object_kind write))
       | _ => deref after_run r = deref Sample.writer_heap r
       end)
  ∧ (∀ limit' group,
       get_members limit' group (load after_run Sample.writer_shared)
       = get_members limit' group (load Sample.writer_heap Sample.writer_shared))
  ∧ determine_schema_owners Sample.parse_bool (load after_run Sample.writer_shared)
    = determine_schema_owners Sample.parse_bool
        (load Sample.writer_heap Sample.writer_shared)
  ∧ determine_personal_schemas Sample.parse_bool (load after_run Sample.writer_shared)
    = determine_personal_schemas Sample.parse_bool
        (load Sample.writer_heap Sample.writer_shared)
  ∧ determine_superusers Sample.parse_bool (load after_run Sample.writer_shared)
    = determine_superusers Sample.parse_bool
        (load Sample.writer_heap Sample.writer_shared)
  ∧ (∀ limit', determine_schema_writers Sample.parse_bool limit'
                 (load after_run Sample.writer_shared)
               = determine_schema_writers Sample.parse_bool limit'
                   (load Sample.writer_heap Sample.writer_shared))
  ∧ deref after_run 1 = ["sales.orders"; "sales.*"]
  ∧ deref after_run 2 = ["sales.*"].
Proof.
  intros after_run.
  destruct (analyze_privileges_shared_store_after_run Sample.parse_bool Sample.check_name
              Sample.ensure_quoted_identifier Sample.qualified_name Sample.PRIVILEGE_MAP 2
              Sample.writer_shared Sample.writer_heap Sample.sales_before
              NoDup_sample_kinds) as [Hgrows Hunshared].
  destruct (Hunshared writer_shared_unshared) as (Hslots & Hm & Ho & Hp & Hs & Hw).
  split; [exact Hgrows|]. split; [exact Hslots|]. split; [exact Hm|].
  split; [exact Ho|]. split; [exact Hp|]. split; [exact Hs|]. split; [exact Hw|].
  split; by vm_compute.
Defined.

(** With an alias the run is another one.  When the read list for tables of
    [one] is also that of [two], the write item of [one] reaches the
    read-access analyzer of [two], which has no write list; on value lists
    it would be handed its read item only. *)
Example shared_read_list_reaches_other_role :
  Some {| call_rolename := "two"; call_access := read; call_object_kind := "tables";
          call_desired_items := ["sales.orders"; "sales.*"] |}
  ∈ default [] (match (analyzer_calls_shared Sample.parse_bool Sample.PRIVILEGE_MAP 2
                         Sample.aliased_shared Sample.writer_heap Sample.sales_before).2
                with Ok calls => Some calls | Raise _ => None end)
  ∧ Some {| call_rolename := "two"; call_access := read; call_object_kind := "tables";
            call_desired_items := ["sales.orders"] |}
    ∈ default [] (match (analyzer_calls Sample.parse_bool Sample.PRIVILEGE_MAP 2
                           (load Sample.writer_heap Sample.aliased_shared)
                           Sample.sales_before).2
                  with Ok calls => Some calls | Raise _ => None end)
  ∧ ¬ read_lists_unshared Sample.aliased_shared.
Proof.
  split; [|split].
  - vm_compute. do 16 right. left.
  - vm_compute. do 16 right. left.
  - intros Hun. by specialize (Hun 1 "tables" 1 (Items 2 "tables" read) eq_refl eq_refl).
Qed.

(** When one list object sits under the read key and under the write key,
    [+=] extends it with itself: the write list changes too. *)
Example shared_read_and_write_list_doubles :
  let after_run :=
    (analyze_privileges_shared Sample.parse_bool Sample.check_name
       Sample.ensure_quoted_identifier Sample.qualified_name Sample.PRIVILEGE_MAP 2
       Sample.doubled_shared Sample.writer_heap Sample.sales_before).1 in
  deref Sample.writer_heap 2 = ["sales.*"]
  ∧ deref after_run 2 = ["sales.*"; "sales.*"]
  ∧ items_write (desired_items_this_obj (load after_run Sample.doubled_shared) 1 "tables")
    = Some ["sales.*"; "sales.*"]
  ∧ ¬ read_lists_unshared Sample.doubled_shared.
Proof.
  split; [by vm_compute|]. split; [by vm_compute|]. split; [by vm_compute|].
  intros Hun. by specialize (Hun 1 "tables" 2 (Items 1 "tables" write) eq_refl eq_refl).
Qed.
